(** * Latin square solver: a shallow embedding of LatinSquareSolver

    The development follows the three C translation units of the solver:
    - [node.c]      : the puzzle frame ([Node]) with its copy and update routines;
    - [stack.c]     : the linked stack of frames ([Stack]) with [push] and [pop];
    - [algorithm.c] : [checkDuplicates], [findNextEmptyCell] and the
                      backtracking driver [solveLatinSquare];
    - [latinsolver.c] : the entry point, which builds the first frame and
                      the one-frame stack handed to the driver.

    C [int]s are integers of [Z]: the solver computes on them only
    [abs] and [- 1] of cell values, which [readLatinNode] keeps within
    [-N, N], loop indices below the size, and three statistics counters
    that are only printed; the counters are unbounded here, so a run of
    more than 2^31 rounds is followed beyond the point where the C
    counters overflow.  An [int*] array of [size] entries is a [list Z]; the
    [int**] matrix is a list of rows.  The [next] pointer of a frame is
    its position in the stack's list; a second model of [pop] keeps the
    arrays in a heap.  Reads and writes of the arrays are modelled at
    indices inside them; the one index the driver computes from data,
    [indexToChange], is checked.  Console output ([printf], [printNode])
    and allocation failure are not modelled. *)

From Stdlib Require Import ZArith List Bool Lia Arith.
Import ListNotations.
Local Open Scope Z_scope.

(** ** Results of C code: a small error monad *)

(** [Undefined] marks a run that reaches a memory fault the model
    tracks: a dereference of a NULL [top], a use of the uninitialised
    [retNode], a write outside [moves].  [OutOfFuel] marks a loop cut by
    the iteration budget. *)
Inductive Result (A : Type) : Type :=
| Done (a : A)
| Undefined
| OutOfFuel.
Arguments Done {A} a.
Arguments Undefined {A}.
Arguments OutOfFuel {A}.

Definition bind {A B} (r : Result A) (k : A -> Result B) : Result B :=
  match r with
  | Done a => k a
  | Undefined => Undefined
  | OutOfFuel => OutOfFuel
  end.

Notation "x <- r ;; k" := (bind r (fun x => k))
  (at level 61, r at next level, right associativity).

Definition EXIT_SUCCESS : Z := 0.
Definition EXIT_FAILURE : Z := 1.

(** ** Arrays *)

(** [zrange n] lists the values taken by [k] in [for (k = 0; k < n; k++)]. *)
Definition zrange (n : Z) : list Z := map Z.of_nat (seq 0 (Z.to_nat n)).

(** [l[i]] for an index inside the array. *)
Definition idx {A} (l : list A) (i : Z) (d : A) : A := nth (Z.to_nat i) l d.

Fixpoint set_nth {A} (n : nat) (v : A) (l : list A) : list A :=
  match l, n with
  | [], _ => []
  | _ :: t, O => v :: t
  | x :: t, S k => x :: set_nth k v t
  end.

(** [l[i] = v] for an index inside the array (no entry is written
    otherwise). *)
Definition store {A} (l : list A) (i : Z) (v : A) : list A :=
  set_nth (Z.to_nat i) v l.

(** [square[i][j]] *)
Definition cell (sq : list (list Z)) (i j : Z) : Z := idx (idx sq i []) j 0.

(** [square[i][j] = v] *)
Definition setCell (sq : list (list Z)) (i j v : Z) : list (list Z) :=
  store sq i (store (idx sq i []) j v).

(** ** node.c *)

Record Node : Type := mkNode {
  square : list (list Z);
  size : Z;
  row : Z;
  col : Z;
  moves : list Z
}.

(** The two copy loops shared by [initNode], [cloneNode] and [pop]. *)
Definition copySquare (n : Z) (sq : list (list Z)) : list (list Z) :=
  map (fun i => map (fun j => cell sq i j) (zrange n)) (zrange n).

Definition copyMoves (n : Z) (mv : list Z) : list Z :=
  map (fun i => idx mv i 0) (zrange n).

(** [initNode(&newNode, node, size)]: [node] is [None] for a NULL source. *)
Definition initNode (node : option Node) (sz : Z) : Z * Node :=
  (EXIT_SUCCESS,
   {| square := match node with
                | Some n => copySquare sz (square n)
                | None => map (fun _ => map (fun _ => 0) (zrange sz)) (zrange sz)
                end;
      size := sz;
      row := match node with Some n => row n | None => 0 end;
      col := match node with Some n => col n | None => 0 end;
      moves := match node with
               | Some n => copyMoves sz (moves n)
               | None => map (fun _ => 1) (zrange sz)
               end |}).

(** [updateNode(node, row, col, num)] *)
Definition updateNode (node : Node) (r c num : Z) : Z * Node :=
  (EXIT_SUCCESS,
   {| square := setCell (square node) r c num;
      size := size node;
      row := r;
      col := c;
      moves := map (fun _ => 1) (zrange (size node)) |}).

(** [cloneNode(node)] *)
Definition cloneNode (node : Node) : Node :=
  {| square := copySquare (size node) (square node);
     size := size node;
     row := row node;
     col := col node;
     moves := copyMoves (size node) (moves node) |}.

(** ** stack.c *)

(** [top] is the chain of frames reached from the [top] pointer through
    [next] ([[]] for NULL); [depth] is the C field [size] of the stack. *)
Record Stack : Type := mkStack {
  top : list Node;
  depth : Z
}.

(** What a caller's [Stack*] designates after a call. *)
Inductive StackRef : Type :=
| Live (s : Stack)
| Freed.

Definition initStack : Z * Stack := (EXIT_SUCCESS, {| top := []; depth := 0 |}).

Definition isEmpty (s : Stack) : bool := depth s =? 0.

Definition push (s : Stack) (newNode : Node) : Z * Stack :=
  (EXIT_SUCCESS, {| top := cloneNode newNode :: top s; depth := depth s + 1 |}).

(** [pop(stack, retNode)].  [retNode] is [None] while the caller's struct
    is still uninitialised, as it is in the driver. *)
Definition pop (s : Stack) (retNode : option Node)
  : Result (Z * Stack * option Node) :=
  if isEmpty s then Done (EXIT_FAILURE, s, retNode)
  else match top s with
       | [] => Undefined
       | temp :: rest =>
           Done (EXIT_SUCCESS,
                 {| top := rest; depth := depth s - 1 |},
                 Some {| square := copySquare (size temp) (square temp);
                         size := size temp;
                         row := row temp;
                         col := col temp;
                         moves := copyMoves (size temp) (moves temp) |})
       end.

(** [freeStack(stack)] walks the chain releasing every frame, then
    releases the stack structure: nothing of it is left to the caller. *)
Definition freeStack (s : Stack) : StackRef := Freed.

(** [peekTop] of the specification: the frame a holder of the stack can read. *)
Definition peekTop (r : StackRef) : option Node :=
  match r with
  | Live s => hd_error (top s)
  | Freed => None
  end.

(** ** algorithm.c *)

Definition checkDuplicates (node : Node) (num r c : Z) : bool :=
  existsb (fun k => negb (k =? c) && (Z.abs (cell (square node) r k) =? num))
          (zrange (size node))
  || existsb (fun k => negb (k =? r) && (Z.abs (cell (square node) k c) =? num))
             (zrange (size node)).

(** The inner [for (j = lastCol; j < size; j++)] of [findNextEmptyCell];
    [n] bounds the number of iterations. *)
Fixpoint scanCols (sq : list (list Z)) (sz i j : Z) (n : nat) : option (Z * Z) :=
  match n with
  | O => None
  | S n' =>
      if j <? sz then
        if cell sq i j =? 0 then Some (i, j)
        else scanCols sq sz i (j + 1) n'
      else None
  end.

(** The outer [for (i = lastRow; i < size; i++)], with [lastCol] reset to
    0 at the end of each round. *)
Fixpoint scanRows (sq : list (list Z)) (sz i lastCol : Z) (n : nat) : option (Z * Z) :=
  match n with
  | O => None
  | S n' =>
      if i <? sz then
        match scanCols sq sz i lastCol (Z.to_nat (sz - lastCol)) with
        | Some p => Some p
        | None => scanRows sq sz (i + 1) 0 n'
        end
      else None
  end.

(** [findNextEmptyCell(node, &row, &col)]: the status with the two outputs. *)
Definition findNextEmptyCell (node : Node) : Z * Z * Z :=
  match scanRows (square node) (size node) (row node) (col node)
                 (Z.to_nat (size node - row node)) with
  | Some (i, j) => (EXIT_SUCCESS, i, j)
  | None => (EXIT_FAILURE, -1, -1)
  end.

(** The [for (i = 1; i <= size; i++)] of the driver: the value it commits,
    if any. *)
Fixpoint tryValues (node : Node) (sz r c i : Z) (n : nat) : option Z :=
  match n with
  | O => None
  | S n' =>
      if i <=? sz then
        if (idx (moves node) (i - 1) 0 =? 1) && negb (checkDuplicates node i r c)
        then Some i
        else tryValues node sz r c (i + 1) n'
      else None
  end.

(** Calls made by the driver, recorded for the statements about them
    (a ghost field: the C code keeps no such log). *)
Inductive Event : Type :=
| EvUpdate (r c old new : Z)   (* updateNode wrote [new] over [old] at (r, c) *)
| EvPush
| EvPop.

(** The local variables of [solveLatinSquare]. *)
Record Locals : Type := mkLocals {
  l_stack : Stack;
  l_size : Z;
  l_pushCounter : Z;
  l_popCounter : Z;
  l_stepCounter : Z;
  l_newNode : Node;
  l_row : Z;
  l_col : Z;
  l_trace : list Event
}.

(** How one round of the [while] ends. *)
Inductive Control : Type :=
| Continue (s : Locals)
| ReturnFalse (s : Locals).

(** The tail of the loop body: re-clone the top, look for the next empty
    cell, count the step. *)
Definition nextRound (s : Locals) (st : Stack) (pushes pops : Z)
           (tr : list Event) : Result Control :=
  match top st with
  | [] => Undefined
  | t :: _ =>
      let newNode := cloneNode t in
      let '(_, r, c) := findNextEmptyCell newNode in
      Done (Continue {| l_stack := st; l_size := l_size s;
                        l_pushCounter := pushes; l_popCounter := pops;
                        l_stepCounter := l_stepCounter s + 1;
                        l_newNode := newNode; l_row := r; l_col := c;
                        l_trace := tr |})
  end.

(** One round of the [while] loop of [solveLatinSquare]. *)
Definition loopBody (s : Locals) : Result Control :=
  match tryValues (l_newNode s) (l_size s) (l_row s) (l_col s) 1
                  (Z.to_nat (l_size s)) with
  | Some i =>
      let old := cell (square (l_newNode s)) (l_row s) (l_col s) in
      let '(_, updated) := updateNode (l_newNode s) (l_row s) (l_col s) i in
      let '(_, st) := push (l_stack s) updated in
      nextRound s st (l_pushCounter s + 1) (l_popCounter s)
                (EvPush :: EvUpdate (l_row s) (l_col s) old i :: l_trace s)
  | None =>
      popped <- pop (l_stack s) None ;;
      let '(_, st, retNode) := popped in
      if negb (isEmpty st) then
        match retNode, top st with
        | Some ret, t :: rest =>
            let indexToChange := cell (square ret) (row ret) (col ret) - 1 in
            if (0 <=? indexToChange) && (indexToChange <? size t) then
              let t' := {| square := square t; size := size t; row := row t;
                           col := col t;
                           moves := store (moves t) indexToChange 0 |} in
              nextRound s {| top := t' :: rest; depth := depth st |}
                        (l_pushCounter s) (l_popCounter s + 1)
                        (EvPop :: l_trace s)
            else Undefined
        | _, _ => Undefined
        end
      else
        match retNode with
        | Some _ =>
            Done (ReturnFalse {| l_stack := st; l_size := l_size s;
                                 l_pushCounter := l_pushCounter s;
                                 l_popCounter := l_popCounter s;
                                 l_stepCounter := l_stepCounter s;
                                 l_newNode := l_newNode s;
                                 l_row := l_row s; l_col := l_col s;
                                 l_trace := EvPop :: l_trace s |})
        | None => Undefined
        end
  end.

(** The guard of the [while]. *)
Definition guard (s : Locals) : bool :=
  negb (l_row s =? -1) && negb (l_col s =? -1).

(** The states in which the driver leaves its loop (names of the
    specification's state machine). *)
Inductive Exit : Type :=
| SOLVED (s : Locals)
| UNSOLVABLE (s : Locals).

(** [while (row != -1 && col != -1) { ... }] *)
Fixpoint solveLoop (fuel : nat) (s : Locals) : Result Exit :=
  if guard s then
    match fuel with
    | O => OutOfFuel
    | S fuel' =>
        c <- loopBody s ;;
        match c with
        | Continue s' => solveLoop fuel' s'
        | ReturnFalse s' => Done (UNSOLVABLE s')
        end
    end
  else Done (SOLVED s).

(** The statements of [solveLatinSquare] before the loop. *)
Definition solveEntry (stack : Stack) : Result Locals :=
  match top stack with
  | [] => Undefined
  | t :: _ =>
      let newNode := cloneNode t in
      let '(_, r, c) := findNextEmptyCell newNode in
      Done {| l_stack := stack; l_size := size t;
              l_pushCounter := 0; l_popCounter := 0; l_stepCounter := 1;
              l_newNode := newNode; l_row := r; l_col := c;
              l_trace := [] |}
  end.

(** [solveLatinSquare(stack)]: the returned boolean and what the caller's
    stack pointer designates afterwards. *)
Definition solveLatinSquare (fuel : nat) (stack : Stack) : Result (bool * StackRef) :=
  s0 <- solveEntry stack ;;
  e <- solveLoop fuel s0 ;;
  match e with
  | SOLVED s => Done (true, freeStack (l_stack s))
  | UNSOLVABLE s => Done (false, Live (l_stack s))
  end.

(** ** latinsolver.c *)

(** The value test of [readLatinNode]. *)
Definition inRange (sz v : Z) : bool := (- sz <=? v) && (v <=? sz).

(** [readLatinNode]: [sz] is the size read first, [grid] the integers
    that follow it in the file, row by row.  [None] stands for the [exit]
    taken on a file with missing, extra or out-of-range values, and for
    a size below 1, for which [initNode] asks [malloc] for no or a
    negative number of bytes and builds no usable node. *)
Definition readLatinNode (sz : Z) (grid : list (list Z)) : option Node :=
  if (1 <=? sz)
     && (length grid =? Z.to_nat sz)%nat
     && forallb (fun r => (length r =? Z.to_nat sz)%nat) grid
     && forallb (forallb (inRange sz)) grid
  then
    let '(_, node) := initNode None sz in
    Some {| square := grid; size := size node; row := row node;
            col := col node; moves := moves node |}
  else None.

(** The stack [main] hands to the driver: [initStack] then [push]. *)
Definition mainStack (node : Node) : Stack :=
  let '(_, st) := initStack in
  let '(_, st') := push st node in st'.

(** The variables of [main] right after the call of [solveLatinSquare]:
    the returned boolean, its [stack] pointer and its own [node]. *)
Record CallerView : Type := mkCallerView {
  cv_result : bool;
  cv_stack : StackRef;
  cv_node : Node
}.

(** [main] from the node read from the file up to that point. *)
Definition mainSolve (fuel : nat) (node : Node) : Result CallerView :=
  r <- solveLatinSquare fuel (mainStack node) ;;
  Done {| cv_result := fst r; cv_stack := snd r; cv_node := node |}.

(** ** Predicates of the specification *)

(** [isComplete]: no cell of the [sz] x [sz] grid equals 0. *)
Definition isComplete (sz : Z) (sq : list (list Z)) : bool :=
  forallb (fun i => forallb (fun j => negb (cell sq i j =? 0)) (zrange sz))
          (zrange sz).

(** Number of empty cells of a grid. *)
Definition emptyCells (sq : list (list Z)) : nat :=
  list_sum (map (fun r => count_occ Z.eq_dec r 0) sq).

(** Row [i] and column [j] of a grid, by absolute magnitude. *)
Definition rowAbs (sz : Z) (sq : list (list Z)) (i : Z) : list Z :=
  map (fun j => Z.abs (cell sq i j)) (zrange sz).

Definition colAbs (sz : Z) (sq : list (list Z)) (j : Z) : list Z :=
  map (fun i => Z.abs (cell sq i j)) (zrange sz).

(** The values 1..N. *)
Definition values (sz : Z) : list Z := map (fun k => k + 1) (zrange sz).

(** [isLatin]: every row and every column holds each of 1..N exactly once. *)
Definition isLatin (sz : Z) (sq : list (list Z)) : bool :=
  forallb (fun i =>
    forallb (fun v => (count_occ Z.eq_dec (rowAbs sz sq i) v =? 1)%nat
                      && (count_occ Z.eq_dec (colAbs sz sq i) v =? 1)%nat)
            (values sz))
    (zrange sz).

(** The Snapshot invariant of the specification: in no row and no column
    do two filled cells share a magnitude. *)
Definition noConflict (sz : Z) (sq : list (list Z)) : Prop :=
  forall i j k, 0 <= i < sz -> 0 <= j < sz -> 0 <= k < sz -> j <> k ->
    (cell sq i j <> 0 -> Z.abs (cell sq i j) <> Z.abs (cell sq i k)) /\
    (cell sq j i <> 0 -> Z.abs (cell sq j i) <> Z.abs (cell sq k i)).

Definition noConflictb (sz : Z) (sq : list (list Z)) : bool :=
  forallb (fun i => forallb (fun j => forallb (fun k =>
    (j =? k)
    || (((cell sq i j =? 0) || negb (Z.abs (cell sq i j) =? Z.abs (cell sq i k)))
        && ((cell sq j i =? 0) || negb (Z.abs (cell sq j i) =? Z.abs (cell sq k i)))))
    (zrange sz)) (zrange sz)) (zrange sz).

(** ** Well-formed data *)

Definition wfSquare (sz : Z) (sq : list (list Z)) : Prop :=
  length sq = Z.to_nat sz /\ Forall (fun r => length r = Z.to_nat sz) sq.

Definition wfNode (sz : Z) (n : Node) : Prop :=
  size n = sz /\ wfSquare sz (square n) /\ length (moves n) = Z.to_nat sz
  /\ 0 <= row n /\ 0 <= col n.

Definition wfStack (s : Stack) : Prop :=
  depth s = Z.of_nat (length (top s))
  /\ Forall (fun n => wfNode (size n) n) (top s).

(** ** The scan of findNextEmptyCell in the specification's words *)

(** The scan of the specification: the positions visited, in order,
    starting at (lastRow, lastCol), the column back at 0 on every later
    row; the answer is the first of them holding 0. *)
Definition zrangeFrom (lo hi : Z) : list Z := map (fun k => lo + k) (zrange (hi - lo)).

Definition scanOrder (sz lastRow lastCol : Z) : list (Z * Z) :=
  flat_map (fun i => map (pair i)
                         (zrangeFrom (if i =? lastRow then lastCol else 0) sz))
           (zrangeFrom lastRow sz).

(** The emptiness test of the scan, on a position. *)
Definition emptyAt (sq : list (list Z)) (p : Z * Z) : bool :=
  cell sq (fst p) (snd p) =? 0.

Definition firstEmptyFrom (node : Node) : option (Z * Z) :=
  find (emptyAt (square node))
       (scanOrder (size node) (row node) (col node)).

(** Position (i', j') comes strictly before (i, j) in row-major order. *)
Definition before (i' j' i j : Z) : Prop := i' < i \/ (i' = i /\ j' < j).

(** Position (i', j') is visited by a scan started at (i, lastCol). *)
Definition scanned (sz i lastCol i' j' : Z) : Prop :=
  i <= i' < sz /\ (if i' =? i then lastCol else 0) <= j' < sz.

(** ** Invariants of the driver *)

(** The frames the driver can build over the input grid [g], top first:
    the frame pushed by [main] at the bottom, and above it frames that
    each fill the next empty cell of the frame below with a value the
    [for] loop accepted there.  The candidate flags of a frame are free:
    they change while the frame is the top. *)
Inductive chain (N : Z) (g : list (list Z)) : list Node -> Prop :=
| chain_base mv :
    length mv = Z.to_nat N ->
    chain N g [mkNode g N 0 0 mv]
| chain_push F fs r c v mv :
    chain N g (F :: fs) ->
    findNextEmptyCell F = (EXIT_SUCCESS, r, c) ->
    1 <= v <= N ->
    idx (moves F) (v - 1) 0 = 1 ->
    checkDuplicates F v r c = false ->
    length mv = Z.to_nat N ->
    chain N g (mkNode (setCell (square F) r c v) N r c mv :: F :: fs).

(** Every cell before the cursor of a frame is filled. *)
Definition prefixFull (N : Z) (F : Node) : Prop :=
  forall i j, 0 <= i < N -> 0 <= j < N -> before i j (row F) (col F) ->
    cell (square F) i j <> 0.

(** The filled cells of [g] are kept as they are in [sq]. *)
Definition extends (N : Z) (g sq : list (list Z)) : Prop :=
  forall i j, 0 <= i < N -> 0 <= j < N -> cell g i j <> 0 ->
    cell sq i j = cell g i j.

(** Every cell holds a value of [-N, N]: the test of [readLatinNode]. *)
Definition cellsInRange (N : Z) (sq : list (list Z)) : Prop :=
  forall i j, 0 <= i < N -> 0 <= j < N -> - N <= cell sq i j <= N.

Record frameOk (N : Z) (g : list (list Z)) (F : Node) (below : nat) : Prop := {
  fo_wf : wfNode N F;
  fo_cursor : below = 0%nat \/ (row F < N /\ col F < N);
  fo_prefix : prefixFull N F;
  fo_extends : extends N g (square F);
  fo_empty : (emptyCells (square F) + below)%nat = emptyCells g;
  fo_conflict : noConflict N g -> noConflict N (square F);
  fo_range : cellsInRange N g -> cellsInRange N (square F)
}.

Definition isPush (e : Event) : bool :=
  match e with EvPush => true | _ => false end.

Definition isPop (e : Event) : bool :=
  match e with EvPop => true | _ => false end.

(** Number of calls of [push] and of [pop] made by the driver. *)
Definition pushCalls (tr : list Event) : Z := Z.of_nat (length (filter isPush tr)).
Definition popCalls (tr : list Event) : Z := Z.of_nat (length (filter isPop tr)).

(** Every write of [updateNode] went to an empty cell. *)
Definition writesEmpty (tr : list Event) : Prop :=
  forall r c old new, In (EvUpdate r c old new) tr -> old = 0.

(** The value last written at (r, c) by [updateNode], the log being
    kept newest first. *)
Fixpoint lastWrite (tr : list Event) (r c : Z) : option Z :=
  match tr with
  | [] => None
  | EvUpdate r' c' _ v :: tr' =>
      if (r' =? r) && (c' =? c) then Some v else lastWrite tr' r c
  | _ :: tr' => lastWrite tr' r c
  end.

(** The value a frame holds at its cursor is the last one [updateNode]
    wrote there. *)
Definition placedBy (tr : list Event) (G : Node) : Prop :=
  lastWrite tr (row G) (col G) = Some (cell (square G) (row G) (col G)).

(** The loop invariant of [solveLatinSquare] at the head of the [while]. *)
Record Inv (N : Z) (g : list (list Z)) (s : Locals) : Prop := {
  inv_chain : chain N g (top (l_stack s));
  inv_depth : depth (l_stack s) = Z.of_nat (length (top (l_stack s)));
  inv_size : l_size s = N;
  inv_newNode : hd_error (top (l_stack s)) = Some (l_newNode s);
  inv_cursor : exists code,
      findNextEmptyCell (l_newNode s) = (code, l_row s, l_col s);
  inv_pushes : l_pushCounter s = pushCalls (l_trace s);
  inv_pops : l_popCounter s = popCalls (l_trace s);
  inv_balance : pushCalls (l_trace s) - popCalls (l_trace s)
                = Z.of_nat (length (top (l_stack s))) - 1;
  inv_writes : writesEmpty (l_trace s);
  inv_placed : Forall (placedBy (l_trace s)) (removelast (top (l_stack s)))
}.

(** The states the loop passes through at its head. *)
Inductive reaches : Locals -> Locals -> Prop :=
| reaches_here s : reaches s s
| reaches_round s s' s'' :
    guard s = true -> loopBody s = Done (Continue s') ->
    reaches s' s'' -> reaches s s''.

(** The event log at an exit of the loop. *)
Definition exitTrace (e : Exit) : list Event :=
  match e with SOLVED s => l_trace s | UNSOLVABLE s => l_trace s end.

(** What the proofs use of a grid accepted by [readLatinNode]. *)
Definition wfInput (N : Z) (g : list (list Z)) : Prop :=
  0 <= N /\ wfSquare N g /\ cellsInRange N g.

(** Number of values still marked untried in a candidate array. *)
Definition ones (mv : list Z) : nat := count_occ Z.eq_dec mv 1.

(** What one round of the loop does to the chain of frames. *)
Inductive stackStep (N : Z) : list Node -> list Node -> Prop :=
| step_push F fs G :
    Z.of_nat (ones (moves G)) = N ->
    stackStep N (F :: fs) (G :: F :: fs)
| step_pop G F fs F' :
    S (ones (moves F')) = ones (moves F) ->
    stackStep N (G :: F :: fs) (F' :: fs).

(** The variant of the loop: the untried values of the frames, bottom
    frame most significant, in base [B]; [K] is the number of empty
    cells of the input, the depth no chain exceeds. *)
Fixpoint weight (B K : Z) (frames : list Node) : Z :=
  match frames with
  | [] => 0
  | F :: fs =>
      Z.of_nat (ones (moves F)) * B ^ (K - Z.of_nat (length fs))
      + weight B K fs
  end.

Definition measure (N K : Z) (frames : list Node) : Z :=
  weight (N + 2) K frames + (N + 2) ^ (K + 1 - Z.of_nat (length frames)).

(** The frame [readLatinNode] builds for an accepted file. *)
Definition inputNode (N : Z) (g : list (list Z)) : Node :=
  mkNode g N 0 0 (map (fun _ => 1) (zrange N)).

(** The driver run by [main] on an accepted frame, up to the exit of
    the loop. *)
Definition solveRun (fuel : nat) (node : Node) : Result Exit :=
  s0 <- solveEntry (mainStack node) ;; solveLoop fuel s0.

(** A number of rounds that is enough for the input [g]. *)
Definition enoughFuel (N : Z) (g : list (list Z)) : nat :=
  S (Z.to_nat (measure N (Z.of_nat (emptyCells g)) [inputNode N g])).

(** The grids [main] can still read once [solveLatinSquare] has returned:
    the top frame of its stack, if the stack is still there, and its
    own [node]. *)
Definition callerGrids (v : CallerView) : list (list (list Z)) :=
  match peekTop (cv_stack v) with
  | Some n => [square n; square (cv_node v)]
  | None => [square (cv_node v)]
  end.

(** Value [u] passes the two tests of the driver's [for] loop. *)
Definition admissible (node : Node) (r c u : Z) : Prop :=
  idx (moves node) (u - 1) 0 = 1 /\ checkDuplicates node u r c = false.

(** ** pop at the level of pointers *)

(** The arrays of a frame live in heap blocks: [int] arrays ([moves],
    the rows of [square]) and the array of row pointers ([square]).  An
    address is a position in the heap; [malloc] takes the next one and
    [free] leaves [None] behind.  The node structures themselves stay
    values, chained in a list as in [Stack]. *)
Inductive Block : Type :=
| Ints (l : list Z)
| Rows (l : list nat).

Definition Heap : Type := list (option Block).

Definition malloc (h : Heap) (b : Block) : nat * Heap :=
  (length h, h ++ [Some b]).

Definition free (h : Heap) (a : nat) : Heap := set_nth a None h.

Definition intsAt (h : Heap) (a : nat) : list Z :=
  match nth a h None with Some (Ints l) => l | _ => [] end.

Definition rowsAt (h : Heap) (a : nat) : list nat :=
  match nth a h None with Some (Rows l) => l | _ => [] end.

(** A node structure with its two pointers. *)
Record NodePtr : Type := mkNodePtr {
  p_square : nat;
  p_size : Z;
  p_row : Z;
  p_col : Z;
  p_moves : nat
}.

Record StackPtr : Type := mkStackPtr {
  p_top : list NodePtr;
  p_depth : Z
}.

(** The frame a node structure designates, and the addresses it owns. *)
Definition nodeAt (h : Heap) (p : NodePtr) : Node :=
  {| square := map (intsAt h) (rowsAt h (p_square p));
     size := p_size p;
     row := p_row p;
     col := p_col p;
     moves := intsAt h (p_moves p) |}.

Definition footprint (h : Heap) (p : NodePtr) : list nat :=
  p_square p :: p_moves p :: rowsAt h (p_square p).

Definition stackAt (h : Heap) (s : StackPtr) : Stack :=
  {| top := map (nodeAt h) (p_top s); depth := p_depth s |}.

(** The row loop of [pop]: for each [i], a fresh block filled with
    [temp->square[i][j]], [j] below the size; the addresses obtained are
    the row pointers of [retNode]. *)
Fixpoint copyRowsP (h : Heap) (temp : NodePtr) (rows : list Z)
  : list nat * Heap :=
  match rows with
  | [] => ([], h)
  | i :: rows' =>
      let src := intsAt h (idx (rowsAt h (p_square temp)) i 0%nat) in
      let '(a, h1) :=
        malloc h (Ints (map (fun j => idx src j 0) (zrange (p_size temp)))) in
      let '(addrs, h2) := copyRowsP h1 temp rows' in
      (a :: addrs, h2)
  end.

(** [freeNode(node)]: the rows, the array of row pointers, the flags. *)
Definition freeNodeP (h : Heap) (node : NodePtr) : Heap :=
  let rows := rowsAt h (p_square node) in
  let h1 := fold_left (fun hh i => free hh (idx rows i 0%nat))
                      (zrange (p_size node)) h in
  free (free h1 (p_square node)) (p_moves node).

(** [pop(stack, retNode)] on the heap.  The row pointers of [retNode]
    are stored into its [square] block once the rows are copied. *)
Definition popP (h : Heap) (s : StackPtr) (retNode : option NodePtr)
  : Result (Z * Heap * StackPtr * option NodePtr) :=
  if p_depth s =? 0 then Done (EXIT_FAILURE, h, s, retNode)
  else match p_top s with
       | [] => Undefined
       | temp :: rest =>
           let sz := p_size temp in
           let '(a_sq, h1) := malloc h (Rows (map (fun _ => 0%nat) (zrange sz))) in
           let '(a_mv, h2) := malloc h1 (Ints (map (fun _ => 0) (zrange sz))) in
           let '(rows, h3) := copyRowsP h2 temp (zrange sz) in
           let h4 := set_nth a_sq (Some (Rows rows)) h3 in
           let h5 := set_nth a_mv
                       (Some (Ints (copyMoves sz (intsAt h4 (p_moves temp)))))
                       h4 in
           let h6 := freeNodeP h5 temp in
           Done (EXIT_SUCCESS, h6,
                 {| p_top := rest; p_depth := p_depth s - 1 |},
                 Some {| p_square := a_sq; p_size := sz; p_row := p_row temp;
                         p_col := p_col temp; p_moves := a_mv |})
       end.

(** A live [int] array of [sz] entries at address [a]. *)
Definition liveInts (h : Heap) (sz : Z) (a : nat) : Prop :=
  exists l, nth a h None = Some (Ints l) /\ length l = Z.to_nat sz.

(** The blocks of a node structure are allocated, with [size] entries. *)
Definition wfNodePtr (h : Heap) (p : NodePtr) : Prop :=
  0 <= p_row p /\ 0 <= p_col p
  /\ (exists rs, nth (p_square p) h None = Some (Rows rs)
                 /\ length rs = Z.to_nat (p_size p)
                 /\ Forall (liveInts h (p_size p)) rs)
  /\ liveInts h (p_size p) (p_moves p).

(** The frames of a stack own their blocks separately. *)
Definition wfStackPtr (h : Heap) (s : StackPtr) : Prop :=
  p_depth s = Z.of_nat (length (p_top s))
  /\ Forall (wfNodePtr h) (p_top s)
  /\ NoDup (flat_map (footprint h) (p_top s)).

(** A heap holding the two frames [[1,2],[0,1]] over [[1,0],[0,1]]. *)
Definition demoHeap : Heap :=
  [ Some (Ints [1; 0]); Some (Ints [0; 1]); Some (Rows [0; 1]%nat);
    Some (Ints [1; 0]);
    Some (Ints [1; 2]); Some (Ints [0; 1]); Some (Rows [4; 5]%nat);
    Some (Ints [1; 1]) ].

Definition demoStack : StackPtr :=
  {| p_top := [mkNodePtr 6 2 0 1 7; mkNodePtr 2 2 0 0 3]; p_depth := 2 |}.

(** The blocks [pop] allocates for [retNode] when [temp] is the top
    frame: the row pointers, the flags, the rows. *)
Definition copiedBlocks (h : Heap) (temp : NodePtr) : Heap :=
  Some (Rows (seq (length h + 2) (Z.to_nat (p_size temp))))
  :: Some (Ints (intsAt h (p_moves temp)))
  :: map (fun i => Some (Ints (intsAt h (idx (rowsAt h (p_square temp)) i 0%nat))))
         (zrange (p_size temp)).

(** ** Completions of a puzzle *)

(** In [sq] the value at (i, j) is the magnitude of no other cell of
    row i and of column j: the test of [checkDuplicates], on a whole
    grid. *)
Definition noClash (N : Z) (sq : list (list Z)) (i j : Z) : Prop :=
  forall k, 0 <= k < N ->
    (k <> j -> Z.abs (cell sq i k) <> cell sq i j)
    /\ (k <> i -> Z.abs (cell sq k j) <> cell sq i j).

(** [sq'] completes [sq]: it keeps the filled cells of [sq], and each
    cell empty in [sq] holds in [sq'] a value of 1..N clashing with no
    cell of its row and column. *)
Definition completes (N : Z) (sq sq' : list (list Z)) : Prop :=
  forall i j, 0 <= i < N -> 0 <= j < N ->
    (cell sq i j <> 0 -> cell sq' i j = cell sq i j)
    /\ (cell sq i j = 0 -> 1 <= cell sq' i j <= N /\ noClash N sq' i j).

(** No completion of [sq] holds [v] at (r, c). *)
Definition hopeless (N : Z) (sq : list (list Z)) (r c v : Z) : Prop :=
  forall sq', completes N sq sq' -> cell sq' r c <> v.

(** The values flagged off in a frame are hopeless at its next empty cell. *)
Definition flagsSound (N : Z) (F : Node) : Prop :=
  forall r c v,
    findNextEmptyCell F = (EXIT_SUCCESS, r, c) ->
    1 <= v <= N -> idx (moves F) (v - 1) 0 <> 1 ->
    hopeless N (square F) r c v.

(** Below the value a frame holds at its cursor, every value is hopeless
    there for the frame underneath. *)
Fixpoint choicesLeast (N : Z) (frames : list Node) : Prop :=
  match frames with
  | G :: fs =>
      match fs with
      | F :: _ =>
          (forall u, 1 <= u < cell (square G) (row G) (col G) ->
                     hopeless N (square F) (row G) (col G) u)
          /\ choicesLeast N fs
      | [] => True
      end
  | [] => True
  end.

(** What the search has established at the head of the loop. *)
Record Search (N : Z) (s : Locals) : Prop := {
  se_flags : Forall (flagsSound N) (top (l_stack s));
  se_least : choicesLeast N (top (l_stack s))
}.

(** [sq] comes first in the order of the cells read row by row: the two
    grids agree, or [sq] holds the smaller value at the first cell where
    they differ. *)
Definition lexLe (N : Z) (sq sq' : list (list Z)) : Prop :=
  (forall i j, 0 <= i < N -> 0 <= j < N -> cell sq i j = cell sq' i j)
  \/ exists i j, 0 <= i < N /\ 0 <= j < N
       /\ cell sq i j < cell sq' i j
       /\ forall i' j', 0 <= i' < N -> 0 <= j' < N -> before i' j' i j ->
            cell sq i' j' = cell sq' i' j'.


(** The cyclic square: (i + j) mod N + 1 at (i, j). *)
Definition cyclic (N : Z) : list (list Z) :=
  map (fun i => map (fun j => (i + j) mod N + 1) (zrange N)) (zrange N).


(** ** cloneNode, push and freeStack at the level of pointers *)

(** [cloneNode(node)] on the heap: the block of the flags, the block of
    the row pointers, then for each [i] a fresh row filled with
    [node->square[i][j]]; the flags are copied last. *)
Definition cloneNodeP (h : Heap) (node : NodePtr) : NodePtr * Heap :=
  let sz := p_size node in
  let '(a_mv, h1) := malloc h (Ints (map (fun _ => 0) (zrange sz))) in
  let '(a_sq, h2) := malloc h1 (Rows (map (fun _ => 0%nat) (zrange sz))) in
  let '(rows, h3) := copyRowsP h2 node (zrange sz) in
  let h4 := set_nth a_sq (Some (Rows rows)) h3 in
  let h5 := set_nth a_mv
              (Some (Ints (copyMoves sz (intsAt h4 (p_moves node)))))
              h4 in
  ({| p_square := a_sq; p_size := sz; p_row := p_row node;
      p_col := p_col node; p_moves := a_mv |}, h5).

(** [push(stack, newNode)] on the heap. *)
Definition pushP (h : Heap) (s : StackPtr) (newNode : NodePtr)
  : Z * Heap * StackPtr :=
  let '(pushedNode, h') := cloneNodeP h newNode in
  (EXIT_SUCCESS, h',
   {| p_top := pushedNode :: p_top s; p_depth := p_depth s + 1 |}).

(** The [while (stack->top != NULL)] of [freeStack]: [freeNode] on each
    frame, top first. *)
Definition freeStackP (h : Heap) (s : StackPtr) : Heap :=
  fold_left freeNodeP (p_top s) h.

(** The blocks [cloneNode] allocates for the copy of [node]: the flags,
    the row pointers, the rows. *)
Definition clonedBlocks (h : Heap) (node : NodePtr) : Heap :=
  Some (Ints (intsAt h (p_moves node)))
  :: Some (Rows (seq (length h + 2) (Z.to_nat (p_size node))))
  :: map (fun i => Some (Ints (intsAt h (idx (rowsAt h (p_square node)) i 0%nat))))
         (zrange (p_size node)).


(** * Arrays: reads, writes and copies *)

Section Arrays.
Context {A : Type}.
Implicit Types (l : list A) (d v : A).

Lemma length_set_nth n v l : length (set_nth n v l) = length l.
Proof.
  revert n; induction l as [|x t IH]; intros [|n]; simpl; auto.
Qed.

Lemma nth_set_nth_same n v l d :
  (n < length l)%nat -> nth n (set_nth n v l) d = v.
Proof.
  revert n; induction l as [|x t IH]; intros [|n]; simpl; intros H;
    try lia; auto.
  apply IH; lia.
Qed.

Lemma nth_set_nth_other n m v l d :
  n <> m -> nth m (set_nth n v l) d = nth m l d.
Proof.
  revert n m; induction l as [|x t IH]; intros [|n] [|m] H; simpl; auto;
    try congruence.
Qed.

Lemma length_store l i v : length (store l i v) = length l.
Proof. apply length_set_nth. Qed.

Lemma idx_store_same l i v d :
  0 <= i < Z.of_nat (length l) -> idx (store l i v) i d = v.
Proof. intros H; apply nth_set_nth_same; lia. Qed.

Lemma idx_store_other l i j v d :
  0 <= i -> 0 <= j -> i <> j -> idx (store l i v) j d = idx l j d.
Proof. intros Hi Hj H; apply nth_set_nth_other; lia. Qed.

Lemma nth_seq_copy l d :
  map (fun k => nth k l d) (seq 0 (length l)) = l.
Proof.
  induction l as [|x t IH]; simpl; auto.
  f_equal. rewrite <- seq_shift, map_map. exact IH.
Qed.

Lemma idx_copy l d n :
  length l = Z.to_nat n -> map (fun i => idx l i d) (zrange n) = l.
Proof.
  intros H. unfold zrange, idx. rewrite map_map, <- H.
  rewrite <- (nth_seq_copy l d) at 2.
  apply map_ext; intros k; now rewrite Nat2Z.id.
Qed.
End Arrays.

Lemma in_zrange n k : In k (zrange n) <-> 0 <= k < n.
Proof.
  unfold zrange; rewrite in_map_iff; split.
  - intros [m [<- Hm]]; apply in_seq in Hm; lia.
  - intros H; exists (Z.to_nat k); split; [lia | apply in_seq; lia].
Qed.

Lemma length_zrange n : length (zrange n) = Z.to_nat n.
Proof. unfold zrange; now rewrite length_map, length_seq. Qed.

Lemma wfSquare_row sz sq i :
  wfSquare sz sq -> 0 <= i < sz -> length (idx sq i []) = Z.to_nat sz.
Proof.
  intros [Hl Hr] Hi. rewrite Forall_forall in Hr. apply Hr.
  apply nth_In; lia.
Qed.

Lemma copySquare_id sz sq : wfSquare sz sq -> copySquare sz sq = sq.
Proof.
  intros H. unfold copySquare.
  etransitivity; [| apply (idx_copy sq [] sz), H].
  apply map_ext_in; intros i Hi; apply in_zrange in Hi.
  unfold cell. apply idx_copy. now apply wfSquare_row.
Qed.

Lemma copyMoves_id sz mv : length mv = Z.to_nat sz -> copyMoves sz mv = mv.
Proof. apply idx_copy. Qed.

Lemma cloneNode_id sz n : wfNode sz n -> cloneNode n = n.
Proof.
  intros (Hs & Hq & Hm & _). destruct n as [sq s r c mv]; simpl in *; subst s.
  unfold cloneNode; simpl. now rewrite copySquare_id, copyMoves_id.
Qed.

Lemma wfSquare_setCell sz sq i j v :
  wfSquare sz sq -> 0 <= i < sz -> wfSquare sz (setCell sq i j v).
Proof.
  intros H Hi. pose proof (wfSquare_row _ _ _ H Hi) as Hrow.
  destruct H as [Hl Hr]. unfold setCell; split.
  - now rewrite length_store.
  - rewrite Forall_forall in *. intros r Hin.
    destruct (In_nth _ _ [] Hin) as (k & Hk & <-).
    rewrite length_store in Hk.
    destruct (Nat.eq_dec (Z.to_nat i) k) as [<-|Hne].
    + unfold store at 1. rewrite nth_set_nth_same by lia.
      now rewrite length_store.
    + unfold store at 1. rewrite nth_set_nth_other by assumption.
      apply Hr, nth_In; lia.
Qed.

Lemma cell_setCell_same sz sq i j v :
  wfSquare sz sq -> 0 <= i < sz -> 0 <= j < sz ->
  cell (setCell sq i j v) i j = v.
Proof.
  intros H Hi Hj. pose proof (wfSquare_row _ _ _ H Hi) as Hrow.
  destruct H as [Hl _]. unfold cell, setCell.
  rewrite idx_store_same by lia. apply idx_store_same; lia.
Qed.

Lemma cell_setCell_other sz sq i j v i' j' :
  wfSquare sz sq -> 0 <= i < sz -> 0 <= j -> 0 <= i' -> 0 <= j' ->
  (i', j') <> (i, j) ->
  cell (setCell sq i j v) i' j' = cell sq i' j'.
Proof.
  intros H Hi Hj Hi' Hj' Hne. destruct H as [Hl _]. unfold cell, setCell.
  destruct (Z.eq_dec i i') as [<-|Hd].
  - rewrite idx_store_same by lia.
    apply idx_store_other; try lia. congruence.
  - now rewrite idx_store_other by lia.
Qed.

(** * findNextEmptyCell *)

Lemma zrangeFrom_nil lo hi : hi <= lo -> zrangeFrom lo hi = [].
Proof.
  intros H. unfold zrangeFrom, zrange.
  replace (Z.to_nat (hi - lo)) with 0%nat by lia. reflexivity.
Qed.

Lemma zrangeFrom_cons lo hi :
  lo < hi -> zrangeFrom lo hi = lo :: zrangeFrom (lo + 1) hi.
Proof.
  intros H. unfold zrangeFrom, zrange.
  replace (Z.to_nat (hi - lo)) with (S (Z.to_nat (hi - (lo + 1)))) by lia.
  simpl. f_equal; [lia |].
  rewrite <- seq_shift, !map_map. apply map_ext; intros k; lia.
Qed.

Lemma find_app {A} (f : A -> bool) l1 l2 :
  find f (l1 ++ l2) = match find f l1 with Some x => Some x | None => find f l2 end.
Proof.
  induction l1 as [|x t IH]; simpl; auto. now destruct (f x).
Qed.

Lemma flat_map_ext_in {A B} (f g : A -> list B) l :
  (forall a, In a l -> f a = g a) -> flat_map f l = flat_map g l.
Proof.
  induction l as [|x t IH]; simpl; intros H; auto.
  rewrite (H x), IH; auto.
Qed.

Lemma in_zrangeFrom lo hi k : In k (zrangeFrom lo hi) <-> lo <= k < hi.
Proof.
  unfold zrangeFrom; rewrite in_map_iff; split.
  - intros (m & <- & Hm); apply in_zrange in Hm; lia.
  - intros H; exists (k - lo); split; [lia | apply in_zrange; lia].
Qed.

Section Scan.
Variables (sq : list (list Z)) (sz : Z).

Lemma scanCols_find i n : forall j,
  (Z.to_nat (sz - j) <= n)%nat ->
  scanCols sq sz i j n = find (emptyAt sq) (map (pair i) (zrangeFrom j sz)).
Proof.
  induction n as [|n IH]; intros j Hn; simpl.
  - rewrite zrangeFrom_nil by lia. reflexivity.
  - destruct (Z.ltb_spec j sz) as [Hlt|Hge].
    + rewrite zrangeFrom_cons by assumption. simpl. unfold emptyAt at 1; simpl.
      destruct (cell sq i j =? 0); auto. apply IH; lia.
    + rewrite zrangeFrom_nil by lia. reflexivity.
Qed.

Lemma scanRows_find n : forall i lastCol,
  (Z.to_nat (sz - i) <= n)%nat ->
  scanRows sq sz i lastCol n = find (emptyAt sq) (scanOrder sz i lastCol).
Proof.
  unfold scanOrder.
  induction n as [|n IH]; intros i lastCol Hn; simpl.
  - rewrite zrangeFrom_nil by lia. reflexivity.
  - destruct (Z.ltb_spec i sz) as [Hlt|Hge].
    + rewrite zrangeFrom_cons by assumption. simpl.
      rewrite find_app, Z.eqb_refl.
      rewrite <- (scanCols_find i (Z.to_nat (sz - lastCol))) by lia.
      destruct (scanCols sq sz i lastCol _); auto.
      rewrite IH by lia. f_equal. apply flat_map_ext_in.
      intros a Ha; apply in_zrangeFrom in Ha.
      destruct (Z.eqb_spec a (i + 1)), (Z.eqb_spec a i); auto; lia.
    + rewrite zrangeFrom_nil by lia. reflexivity.
Qed.

Lemma scanCols_spec i n : forall j,
  (Z.to_nat (sz - j) <= n)%nat ->
  match scanCols sq sz i j n with
  | Some (r, c) => r = i /\ j <= c < sz /\ cell sq i c = 0
                   /\ forall k, j <= k < c -> cell sq i k <> 0
  | None => forall k, j <= k < sz -> cell sq i k <> 0
  end.
Proof.
  induction n as [|n IH]; intros j Hn; simpl.
  - intros k Hk; lia.
  - destruct (Z.ltb_spec j sz) as [Hlt|Hge]; [| intros k Hk; lia].
    destruct (Z.eqb_spec (cell sq i j) 0) as [Hz|Hnz].
    + repeat split; auto; lia.
    + specialize (IH (j + 1) ltac:(lia)).
      destruct (scanCols sq sz i (j + 1) n) as [[r c]|].
      * destruct IH as (-> & Hc & Hz & Hb). repeat split; auto; try lia.
        intros k Hk. destruct (Z.eq_dec k j) as [->|]; auto. apply Hb; lia.
      * intros k Hk. destruct (Z.eq_dec k j) as [->|]; auto. apply IH; lia.
Qed.

Lemma scanRows_spec n : forall i lastCol,
  (Z.to_nat (sz - i) <= n)%nat ->
  match scanRows sq sz i lastCol n with
  | Some (r, c) => scanned sz i lastCol r c /\ cell sq r c = 0
                   /\ forall i' j', scanned sz i lastCol i' j' ->
                                    before i' j' r c -> cell sq i' j' <> 0
  | None => forall i' j', scanned sz i lastCol i' j' -> cell sq i' j' <> 0
  end.
Proof.
  unfold scanned, before.
  induction n as [|n IH]; intros i lastCol Hn; simpl.
  - intros i' j' [Hi _]; lia.
  - destruct (Z.ltb_spec i sz) as [Hlt|Hge]; [| intros i' j' [Hi _]; lia].
    pose proof (scanCols_spec i (Z.to_nat (sz - lastCol)) lastCol
                              ltac:(lia)) as Hc.
    destruct (scanCols sq sz i lastCol _) as [[r c]|].
    + destruct Hc as (-> & Hc & Hz & Hb). rewrite Z.eqb_refl.
      repeat split; auto; try lia.
      intros i' j' [Hi' Hj'] Hbef.
      destruct (Z.eqb_spec i' i) as [->|]; [apply Hb|]; lia.
    + specialize (IH (i + 1) 0 ltac:(lia)).
      assert (Hrow : forall i' j', i <= i' < sz ->
                (if i' =? i then lastCol else 0) <= j' < sz ->
                i' = i \/ (i + 1 <= i' < sz
                           /\ (if i' =? i + 1 then 0 else 0) <= j' < sz)).
      { intros i' j' Hi' Hj'.
        destruct (Z.eqb_spec i' i); [now left | right].
        destruct (Z.eqb_spec i' (i + 1)); lia. }
      destruct (scanRows sq sz (i + 1) 0 n) as [[r c]|].
      * destruct IH as ((Hr & Hcc) & Hz & Hb).
        assert (Hc0 : 0 <= c < sz) by (destruct (r =? i + 1); lia).
        destruct (Z.eqb_spec r i); [lia|].
        repeat split; auto; try lia.
        intros i' j' [Hi' Hj'] Hbef.
        destruct (Hrow i' j' Hi' Hj') as [->|Hs].
        -- rewrite Z.eqb_refl in Hj'. apply Hc; lia.
        -- apply Hb; auto.
      * intros i' j' [Hi' Hj'].
        destruct (Hrow i' j' Hi' Hj') as [->|Hs].
        -- rewrite Z.eqb_refl in Hj'. apply Hc; lia.
        -- apply IH; auto.
Qed.
End Scan.

Lemma findNextEmptyCell_cases node :
  (exists r c, findNextEmptyCell node = (EXIT_SUCCESS, r, c)
     /\ scanned (size node) (row node) (col node) r c
     /\ cell (square node) r c = 0
     /\ forall i' j', scanned (size node) (row node) (col node) i' j' ->
                      before i' j' r c -> cell (square node) i' j' <> 0)
  \/ (findNextEmptyCell node = (EXIT_FAILURE, -1, -1)
      /\ forall i' j', scanned (size node) (row node) (col node) i' j' ->
                       cell (square node) i' j' <> 0).
Proof.
  unfold findNextEmptyCell.
  pose proof (scanRows_spec (square node) (size node)
                (Z.to_nat (size node - row node)) (row node) (col node)
                (Nat.le_refl _)) as H.
  destruct (scanRows _ _ _ _ _) as [[r c]|].
  - left; exists r, c; auto.
  - right; auto.
Qed.

(** * The driver's for loop *)

Lemma tryValues_spec node sz r c n : forall i,
  (Z.to_nat (sz - i + 1) <= n)%nat ->
  match tryValues node sz r c i n with
  | Some v => i <= v <= sz /\ idx (moves node) (v - 1) 0 = 1
              /\ checkDuplicates node v r c = false
              /\ forall u, i <= u < v ->
                   idx (moves node) (u - 1) 0 <> 1
                   \/ checkDuplicates node u r c = true
  | None => forall u, i <= u <= sz ->
              idx (moves node) (u - 1) 0 <> 1
              \/ checkDuplicates node u r c = true
  end.
Proof.
  induction n as [|n IH]; intros i Hn; simpl.
  - intros u Hu; lia.
  - destruct (Z.leb_spec i sz) as [Hle|Hgt]; [| intros u Hu; lia].
    assert (Hi : idx (moves node) (i - 1) 0 = 1 /\ checkDuplicates node i r c = false
                 \/ (idx (moves node) (i - 1) 0 <> 1
                     \/ checkDuplicates node i r c = true)).
    { destruct (Z.eq_dec (idx (moves node) (i - 1) 0) 1); auto.
      destruct (checkDuplicates node i r c); auto. }
    destruct Hi as [[Hm Hd]|Hno].
    + rewrite Hm, Hd; simpl. repeat split; auto; try lia.
    + replace ((idx (moves node) (i - 1) 0 =? 1)
               && negb (checkDuplicates node i r c)) with false.
      2:{ destruct Hno as [Hm|Hd]; [| rewrite Hd; now rewrite andb_false_r].
          apply Z.eqb_neq in Hm; now rewrite Hm. }
      specialize (IH (i + 1) ltac:(lia)).
      destruct (tryValues node sz r c (i + 1) n) as [v|].
      * destruct IH as (Hv & Hm & Hd & Hb). repeat split; auto; try lia.
        intros u Hu. destruct (Z.eq_dec u i) as [->|]; auto. apply Hb; lia.
      * intros u Hu. destruct (Z.eq_dec u i) as [->|]; auto. apply IH; lia.
Qed.

Lemma checkDuplicates_false node v r c :
  checkDuplicates node v r c = false ->
  forall k, 0 <= k < size node ->
    (k <> c -> Z.abs (cell (square node) r k) <> v)
    /\ (k <> r -> Z.abs (cell (square node) k c) <> v).
Proof.
  unfold checkDuplicates. intros H k Hk.
  apply orb_false_elim in H; destruct H as [H1 H2].
  rewrite <- in_zrange in Hk.
  rewrite <- not_true_iff_false, existsb_exists in H1, H2.
  rename H1 into N1, H2 into N2.
  split; intros Hne Habs.
  - apply N1. exists k; split; auto.
    apply andb_true_intro; split; [| now apply Z.eqb_eq].
    apply negb_true_iff, Z.eqb_neq; auto.
  - apply N2. exists k; split; auto.
    apply andb_true_intro; split; [| now apply Z.eqb_eq].
    apply negb_true_iff, Z.eqb_neq; auto.
Qed.

(** * Counting empty cells *)

Lemma list_sum_set_nth {A} (f : A -> nat) n x l d :
  (n < length l)%nat ->
  (list_sum (map f (set_nth n x l)) + f (nth n l d)
   = list_sum (map f l) + f x)%nat.
Proof.
  revert n; induction l as [|y t IH]; intros [|n] H; simpl in *; try lia.
  specialize (IH n ltac:(lia)). lia.
Qed.

Lemma count_occ_set_nth n v l a d :
  (n < length l)%nat -> nth n l d = a -> v <> a ->
  S (count_occ Z.eq_dec (set_nth n v l) a) = count_occ Z.eq_dec l a.
Proof.
  revert n; induction l as [|y t IH]; intros [|n] H Hz Hv; simpl in *;
    try lia.
  - subst y. destruct (Z.eq_dec v a), (Z.eq_dec a a); congruence.
  - destruct (Z.eq_dec y a); rewrite <- (IH n) by (auto; lia); reflexivity.
Qed.

Lemma emptyCells_setCell N sq r c v :
  wfSquare N sq -> 0 <= r < N -> 0 <= c < N -> cell sq r c = 0 -> v <> 0 ->
  S (emptyCells (setCell sq r c v)) = emptyCells sq.
Proof.
  intros Hwf Hr Hc Hz Hv. pose proof (wfSquare_row _ _ _ Hwf Hr) as Hrow.
  destruct Hwf as [Hl _]. unfold emptyCells, setCell, store.
  pose proof (list_sum_set_nth (fun r => count_occ Z.eq_dec r 0) (Z.to_nat r)
                (set_nth (Z.to_nat c) v (idx sq r [])) sq [] ltac:(lia)) as E.
  simpl in E. fold (idx sq r []) in E.
  rewrite <- (count_occ_set_nth (Z.to_nat c) v (idx sq r []) 0 0) in E;
    auto; lia.
Qed.

(** * Frames of a chain *)

Lemma frameOk_base N g mv :
  0 <= N -> wfSquare N g -> length mv = Z.to_nat N ->
  frameOk N g (mkNode g N 0 0 mv) 0.
Proof.
  intros HN Hg Hmv. constructor; simpl; auto.
  - repeat split; simpl; auto; try lia; apply Hg.
  - intros i j Hi Hj Hb; unfold before in Hb; simpl in Hb; lia.
  - intros i j _ _ _; reflexivity.
Qed.

Lemma found_in_grid N F r c :
  wfNode N F -> findNextEmptyCell F = (EXIT_SUCCESS, r, c) ->
  0 <= r < N /\ 0 <= c < N /\ cell (square F) r c = 0
  /\ scanned N (row F) (col F) r c
  /\ forall i j, scanned N (row F) (col F) i j -> before i j r c ->
                 cell (square F) i j <> 0.
Proof.
  intros (Hs & _ & _ & Hr & Hc) Hf.
  destruct (findNextEmptyCell_cases F) as [(r' & c' & E & Hsc & Hz & Hb)|[E _]];
    rewrite Hf in E; [| discriminate].
  injection E as <- <-. rewrite Hs in *.
  assert (Hrc : 0 <= r < N /\ 0 <= c < N).
  { destruct Hsc as [H1 H2]. destruct (r =? row F); lia. }
  tauto.
Qed.

Lemma frameOk_push N g F below r c v mv :
  frameOk N g F below ->
  findNextEmptyCell F = (EXIT_SUCCESS, r, c) ->
  1 <= v <= N ->
  checkDuplicates F v r c = false ->
  length mv = Z.to_nat N ->
  frameOk N g (mkNode (setCell (square F) r c v) N r c mv) (S below).
Proof.
  intros [Hwf Hcur Hpre Hext Hcnt Hcon Hran] Hf Hv Hdup Hmv.
  destruct (found_in_grid _ _ _ _ Hwf Hf) as (Hr & Hc & Hz & Hsc & Hfirst).
  pose proof Hwf as (Hsz & Hsq & _ & Hrow & Hcol).
  assert (Hother : forall i j, 0 <= i < N -> 0 <= j < N -> (i, j) <> (r, c) ->
            cell (setCell (square F) r c v) i j = cell (square F) i j).
  { intros; apply cell_setCell_other with N; auto; lia. }
  assert (Hsame : cell (setCell (square F) r c v) r c = v).
  { apply cell_setCell_same with N; auto. }
  constructor; simpl.
  - repeat split; simpl; auto; try lia;
      apply (wfSquare_setCell N); auto.
  - right; lia.
  - intros i j Hi Hj Hb. rewrite Hother; auto.
    2:{ unfold before in Hb; simpl in Hb; intros E; injection E as Ei Ej; lia. }
    destruct (Z_lt_dec i (row F)) as [Hlt|Hge];
      [apply Hpre; auto; left; auto|].
    destruct (Z.eq_dec i (row F)) as [->|Hne].
    + destruct (Z_lt_dec j (col F)) as [Hlt|Hge'];
        [apply Hpre; auto; right; auto|].
      apply Hfirst; auto. split; [lia|]. rewrite Z.eqb_refl; lia.
    + apply Hfirst; auto. split; [lia|].
      destruct (Z.eqb_spec i (row F)); lia.
  - intros i j Hi Hj Hg. rewrite Hother; auto.
    intros E; injection E as -> ->. rewrite (Hext r c) in Hz; auto.
  - rewrite <- Hcnt, <- (emptyCells_setCell N (square F) r c v); auto; lia.
  - intros Hg. specialize (Hcon Hg).
    pose proof (checkDuplicates_false _ _ _ _ Hdup) as Hd. rewrite Hsz in Hd.
    intros i j k Hi Hj Hk Hjk.
    destruct (Hcon i j k Hi Hj Hk Hjk) as [Hrow' Hcol'].
    split; intros Hnz.
    + destruct (Z.eq_dec i r) as [->|Hir].
      * destruct (Z.eq_dec j c) as [->|Hjc].
        -- rewrite Hsame, (Hother r k) by (auto; congruence).
           intros E. apply (proj1 (Hd k Hk)); auto. rewrite <- E; lia.
        -- rewrite (Hother r j) in * by (auto; congruence).
           destruct (Z.eq_dec k c) as [->|Hkc].
           ++ rewrite Hsame. intros E. apply (proj1 (Hd j Hj)); auto.
              rewrite E; lia.
           ++ rewrite (Hother r k) by (auto; congruence). auto.
      * rewrite !Hother in * by (auto; congruence). auto.
    + destruct (Z.eq_dec i c) as [->|Hic].
      * destruct (Z.eq_dec j r) as [->|Hjr].
        -- rewrite Hsame, (Hother k c) by (auto; congruence).
           intros E. apply (proj2 (Hd k Hk)); auto. rewrite <- E; lia.
        -- rewrite (Hother j c) in * by (auto; congruence).
           destruct (Z.eq_dec k r) as [->|Hkr].
           ++ rewrite Hsame. intros E. apply (proj2 (Hd j Hj)); auto.
              rewrite E; lia.
           ++ rewrite (Hother k c) by (auto; congruence). auto.
      * rewrite !Hother in * by (auto; congruence). auto.
  - intros Hg i j Hi Hj. specialize (Hran Hg i j Hi Hj).
    destruct (Z.eq_dec i r) as [->|Hir]; [destruct (Z.eq_dec j c) as [->|Hjc]|].
    + rewrite Hsame; lia.
    + rewrite Hother; auto; congruence.
    + rewrite Hother; auto; congruence.
Qed.

Lemma chain_head N g F fs :
  0 <= N -> wfSquare N g ->
  chain N g (F :: fs) -> frameOk N g F (length fs).
Proof.
  intros HN Hg H. remember (F :: fs) as l eqn:E. revert F fs E.
  induction H as [mv Hmv | F' fs' r c v mv Hch IH Hf Hv Hm Hd Hmv];
    intros F fs E; injection E as <- <-.
  - now apply frameOk_base.
  - simpl. eapply frameOk_push; eauto.
Qed.

Lemma chain_nonempty N g l : chain N g l -> l <> [].
Proof. destruct 1; discriminate. Qed.

(** The candidate flags of the top frame may change. *)
Lemma chain_moves N g F fs mv :
  chain N g (F :: fs) -> length mv = Z.to_nat N ->
  chain N g (mkNode (square F) (size F) (row F) (col F) mv :: fs).
Proof.
  intros H Hmv. inversion H; subst; simpl.
  - now constructor.
  - now constructor.
Qed.

(** A frame above the bottom was pushed over the frame below it. *)
Lemma chain_pushed N g G F fs :
  0 <= N -> wfSquare N g ->
  chain N g (G :: F :: fs) ->
  chain N g (F :: fs)
  /\ 1 <= cell (square G) (row G) (col G) <= N
  /\ idx (moves F) (cell (square G) (row G) (col G) - 1) 0 = 1.
Proof.
  intros HN Hg H. inversion H as [|F' fs' r c v mv Hch Hf Hv Hm Hd Hmv]; subst.
  simpl. pose proof (chain_head _ _ _ _ HN Hg Hch) as [Hwf _ _ _ _ _ _].
  destruct (found_in_grid _ _ _ _ Hwf Hf) as (Hr & Hc & _).
  rewrite (cell_setCell_same N); auto. apply Hwf.
Qed.

(** The cursor cells of the frames above the bottom one are filled in
    the top frame. *)
Lemma chain_cells_filled N g F fs :
  0 <= N -> wfSquare N g ->
  chain N g (F :: fs) ->
  forall G, In G (removelast (F :: fs)) ->
    0 <= row G < N /\ 0 <= col G < N
    /\ cell (square F) (row G) (col G) <> 0.
Proof.
  intros HN Hg H. remember (F :: fs) as l eqn:E. revert F fs E.
  induction H as [mv Hmv | F' fs' r c v mv Hch IH Hf Hv Hm Hd Hmv];
    intros F fs E G HG; injection E as <- <-.
  - destruct HG.
  - pose proof (chain_head _ _ _ _ HN Hg Hch) as [Hwf _ _ _ _ _ _].
    destruct (found_in_grid _ _ _ _ Hwf Hf) as (Hr & Hc & _).
    pose proof Hwf as (_ & Hsq & _).
    change (removelast (mkNode (setCell (square F') r c v) N r c mv :: F' :: fs'))
      with (mkNode (setCell (square F') r c v) N r c mv
            :: removelast (F' :: fs')) in HG.
    cbn [square]. destruct HG as [<-|HG]; cbn [row col].
    + rewrite (cell_setCell_same N) by assumption. repeat split; lia.
    + destruct (IH F' fs' eq_refl G HG) as (HrG & HcG & Hnz).
      repeat split; try lia.
      destruct (Z.eq_dec (row G) r) as [Er|Hner];
        [destruct (Z.eq_dec (col G) c) as [Ec|Hnec]|].
      * rewrite Er, Ec, (cell_setCell_same N) by assumption. lia.
      * rewrite (cell_setCell_other N) by (auto; try lia; congruence). auto.
      * rewrite (cell_setCell_other N) by (auto; try lia; congruence). auto.
Qed.

(** * One round of the driver *)

Lemma count_occ_const (l : list nat) :
  count_occ Z.eq_dec (map (fun _ => 1) l) 1 = length l.
Proof. induction l; simpl; auto. Qed.

Lemma ones_fresh N : 0 <= N -> Z.of_nat (ones (map (fun _ => 1) (zrange N))) = N.
Proof.
  intros H. unfold ones, zrange. rewrite map_map, count_occ_const, length_seq. lia.
Qed.

Lemma length_fresh N : length (map (fun _ : Z => 1) (zrange N)) = Z.to_nat N.
Proof. now rewrite length_map, length_zrange. Qed.

Lemma ones_store mv i :
  0 <= i < Z.of_nat (length mv) -> idx mv i 0 = 1 ->
  S (ones (store mv i 0)) = ones mv.
Proof.
  intros Hi H1. unfold ones, store.
  apply count_occ_set_nth with 0; [lia | exact H1 | lia].
Qed.

Lemma pushCalls_cons e tr :
  pushCalls (e :: tr) = (if isPush e then 1 else 0) + pushCalls tr.
Proof. unfold pushCalls; cbn [filter]; destruct (isPush e); cbn [length]; lia. Qed.

Lemma popCalls_cons e tr :
  popCalls (e :: tr) = (if isPop e then 1 else 0) + popCalls tr.
Proof. unfold popCalls; cbn [filter]; destruct (isPop e); cbn [length]; lia. Qed.

Lemma guard_true_found N g s :
  0 <= N -> wfSquare N g -> Inv N g s -> guard s = true ->
  findNextEmptyCell (l_newNode s) = (EXIT_SUCCESS, l_row s, l_col s).
Proof.
  intros HN Hg HI Hgd. destruct (inv_cursor _ _ _ HI) as [code Hc].
  destruct (findNextEmptyCell_cases (l_newNode s))
    as [(r & c & E & _)|[E _]]; rewrite Hc in E.
  - injection E as -> <- <-. exact Hc.
  - injection E as _ Hr _. unfold guard in Hgd. rewrite Hr in Hgd. discriminate.
Qed.

Lemma Inv_top N g s :
  0 <= N -> wfSquare N g -> Inv N g s ->
  exists fs, top (l_stack s) = l_newNode s :: fs
             /\ frameOk N g (l_newNode s) (length fs).
Proof.
  intros HN Hg HI. pose proof (inv_chain _ _ _ HI) as Hch.
  pose proof (inv_newNode _ _ _ HI) as Hhd.
  destruct (top (l_stack s)) as [|F fs]; [discriminate|].
  injection Hhd as ->. exists fs; split; auto. now apply chain_head.
Qed.

Lemma guard_false_complete N g s :
  0 <= N -> wfSquare N g -> Inv N g s -> guard s = false ->
  forall i j, 0 <= i < N -> 0 <= j < N -> cell (square (l_newNode s)) i j <> 0.
Proof.
  intros HN Hg HI Hgd i j Hi Hj.
  destruct (Inv_top _ _ _ HN Hg HI) as (fs & _ & [Hwf _ Hpre _ _ _ _]).
  destruct (inv_cursor _ _ _ HI) as [code Hc].
  pose proof Hwf as (Hsz & _ & _ & Hrow & Hcol).
  destruct (findNextEmptyCell_cases (l_newNode s))
    as [(r & c & E & Hsc & _)|[E Hall]]; rewrite Hc in E.
  - injection E as _ Er Ec. exfalso. unfold guard in Hgd.
    rewrite Er, Ec in Hgd. destruct Hsc as [H1 H2].
    assert (0 <= r /\ 0 <= c) as [Hr0 Hc0]
      by (destruct (r =? row (l_newNode s)); lia).
    destruct (Z.eqb_spec r (-1)), (Z.eqb_spec c (-1)); simpl in Hgd;
      try discriminate; lia.
  - rewrite Hsz in Hall.
    destruct (Z_lt_dec i (row (l_newNode s))) as [Hlt|Hge];
      [apply Hpre; auto; left; auto|].
    destruct (Z.eq_dec i (row (l_newNode s))) as [->|Hne].
    + destruct (Z_lt_dec j (col (l_newNode s))) as [Hlt|Hge'];
        [apply Hpre; auto; right; auto|].
      apply Hall. split; [lia|]. rewrite Z.eqb_refl; lia.
    + apply Hall. split; [lia|].
      destruct (Z.eqb_spec i (row (l_newNode s))); lia.
Qed.

Lemma nextRound_Inv N g s st pushes pops tr :
  0 <= N -> wfSquare N g ->
  chain N g (top st) ->
  depth st = Z.of_nat (length (top st)) ->
  l_size s = N ->
  pushes = pushCalls tr -> pops = popCalls tr ->
  pushCalls tr - popCalls tr = Z.of_nat (length (top st)) - 1 ->
  writesEmpty tr ->
  Forall (placedBy tr) (removelast (top st)) ->
  exists s', nextRound s st pushes pops tr = Done (Continue s')
             /\ Inv N g s' /\ l_stack s' = st /\ l_trace s' = tr.
Proof.
  intros HN Hg Hch Hdep Hsz Hpu Hpo Hbal Hwr Hpl. unfold nextRound.
  destruct (top st) as [|t rest] eqn:Etop;
    [exfalso; eapply chain_nonempty; eauto|].
  pose proof (chain_head _ _ _ _ HN Hg Hch) as [Hwf _ _ _ _ _ _].
  rewrite (cloneNode_id N) by assumption.
  destruct (findNextEmptyCell t) as [[code r] c] eqn:Ef.
  eexists; split; [reflexivity|]. split; [|split; reflexivity].
  constructor; simpl; rewrite ?Etop; auto. now exists code.
Qed.

Lemma loopBody_step N g s :
  0 <= N -> wfSquare N g -> Inv N g s -> guard s = true ->
  (exists s', loopBody s = Done (Continue s') /\ Inv N g s'
              /\ stackStep N (top (l_stack s)) (top (l_stack s')))
  \/ (exists s', loopBody s = Done (ReturnFalse s')
                 /\ top (l_stack s') = [] /\ depth (l_stack s') = 0
                 /\ length (top (l_stack s)) = 1%nat
                 /\ l_trace s' = EvPop :: l_trace s).
Proof.
  intros HN Hg HI Hgd.
  pose proof (guard_true_found _ _ _ HN Hg HI Hgd) as Hf.
  destruct (Inv_top _ _ _ HN Hg HI) as (fs & Etop & HF).
  destruct HI as [Hch Hdep Hsz _ _ Hpu Hpo Hbal Hwr Hpl].
  pose proof (fo_wf _ _ _ _ HF) as Hwf.
  pose proof Hwf as (HszF & HsqF & HmvF & _).
  destruct (found_in_grid _ _ _ _ Hwf Hf) as (Hr & Hc & Hz & _).
  unfold loopBody.
  pose proof (tryValues_spec (l_newNode s) (l_size s) (l_row s) (l_col s)
                (Z.to_nat (l_size s)) 1 ltac:(lia)) as Ht.
  destruct (tryValues _ _ _ _ _ _) as [v|].
  - (* a value is committed: updateNode, push *)
    left. destruct Ht as (Hv & Hm & Hd & _). rewrite Hsz in Hv.
    unfold updateNode, push. rewrite HszF.
    set (G := mkNode (setCell (square (l_newNode s)) (l_row s) (l_col s) v) N
                     (l_row s) (l_col s) (map (fun _ => 1) (zrange N))).
    pose proof (frameOk_push _ _ _ _ _ _ v (map (fun _ => 1) (zrange N))
                  HF Hf Hv Hd (length_fresh N)) as HG. fold G in HG.
    rewrite (cloneNode_id N G) by apply HG.
    rewrite Etop in *.
    destruct (nextRound_Inv N g s
                (mkStack (G :: l_newNode s :: fs) (depth (l_stack s) + 1))
                (l_pushCounter s + 1) (l_popCounter s)
                (EvPush :: EvUpdate (l_row s) (l_col s)
                   (cell (square (l_newNode s)) (l_row s) (l_col s)) v
                   :: l_trace s) HN Hg)
      as (s' & E & HI' & Hst & Htr).
    + simpl. apply chain_push; auto. apply length_fresh.
    + cbn [depth top length] in *. lia.
    + exact Hsz.
    + rewrite !pushCalls_cons; cbn [isPush]. lia.
    + rewrite !popCalls_cons; cbn [isPop]. lia.
    + rewrite !pushCalls_cons, !popCalls_cons; cbn [isPush isPop].
      cbn [depth top length] in *. lia.
    + intros r c old new [E|[E|Hin]]; try discriminate.
      * injection E as _ _ <- _. exact Hz.
      * eapply Hwr; eauto.
    + cbn [top]. change (removelast (G :: l_newNode s :: fs))
        with (G :: removelast (l_newNode s :: fs)).
      constructor.
      * unfold placedBy, G; cbn [row col square lastWrite].
        rewrite (cell_setCell_same N), !Z.eqb_refl by assumption.
        reflexivity.
      * rewrite Forall_forall in *. intros G' HG'.
        specialize (Hpl G' HG'). unfold placedBy in *. cbn [lastWrite].
        destruct (chain_cells_filled _ _ _ _ HN Hg Hch G' HG')
          as (_ & _ & Hnz).
        destruct (Z.eqb_spec (l_row s) (row G')) as [Er|]; auto.
        destruct (Z.eqb_spec (l_col s) (col G')) as [Ec|]; auto.
        rewrite <- Er, <- Ec in Hnz. contradiction.
    + exists s'. split; [exact E|]. split; [exact HI'|].
      rewrite Hst; simpl. constructor. unfold G; simpl. now apply ones_fresh.
  - (* no value fits: pop *)
    unfold pop, isEmpty. rewrite Hdep, Etop. simpl length.
    destruct (Z.eqb_spec (Z.of_nat (S (length fs))) 0) as [|_]; [lia|].
    cbn [bind]. fold (cloneNode (l_newNode s)).
    rewrite (cloneNode_id N) by assumption.
    unfold isEmpty; cbn [depth top].
    destruct fs as [|F rest].
    + (* the bottom frame was popped *)
      right. simpl. eexists; split; [reflexivity|]. simpl. auto.
    + left. rewrite Etop in Hch.
      destruct (chain_pushed _ _ _ _ _ HN Hg Hch) as (Hch' & Hv & Hm).
      pose proof (chain_head _ _ _ _ HN Hg Hch') as [HwfF _ _ _ _ _ _].
      destruct HwfF as (HszF' & _ & HmvF' & _).
      match goal with
      | |- context [negb (?a =? 0)] =>
          destruct (Z.eqb_spec a 0) as [Hx|_];
          [cbn [length] in Hx; lia|]; set (d := a)
      end. cbn [negb].
      set (v := cell (square (l_newNode s)) (row (l_newNode s))
                     (col (l_newNode s))) in *.
      destruct (Z.leb_spec 0 (v - 1)); [|lia].
      destruct (Z.ltb_spec (v - 1) (size F)); [|lia]. cbn [andb].
      set (F' := mkNode (square F) (size F) (row F) (col F)
                        (store (moves F) (v - 1) 0)).
      destruct (nextRound_Inv N g s (mkStack (F' :: rest) d)
                  (l_pushCounter s) (l_popCounter s + 1) (EvPop :: l_trace s)
                  HN Hg)
        as (s' & E & HI' & Hst & Htr).
      * simpl. apply chain_moves; auto. now rewrite length_store.
      * unfold d. cbn [depth top length] in *. lia.
      * exact Hsz.
      * rewrite pushCalls_cons; cbn [isPush]. lia.
      * rewrite popCalls_cons; cbn [isPop]. lia.
      * rewrite pushCalls_cons, popCalls_cons; cbn [isPush isPop].
        rewrite Etop in Hbal. cbn [depth top length] in *. lia.
      * intros r c old new [E|Hin]; try discriminate. eapply Hwr; eauto.
      * rewrite Etop in Hpl.
        change (removelast (l_newNode s :: F :: rest))
          with (l_newNode s :: removelast (F :: rest)) in Hpl.
        apply Forall_inv_tail in Hpl. cbn [top].
        destruct rest as [|R rest']; [constructor|].
        change (removelast (F :: R :: rest'))
          with (F :: removelast (R :: rest')) in Hpl.
        change (removelast (F' :: R :: rest'))
          with (F' :: removelast (R :: rest')).
        constructor.
        -- exact (Forall_inv Hpl).
        -- exact (Forall_inv_tail Hpl).
      * exists s'. split; [exact E|]. split; [exact HI'|].
        rewrite Hst; simpl. constructor. unfold F'; simpl.
        apply ones_store; auto. lia.
Qed.

(** * The frame and the stack built by main *)

Lemma readLatinNode_accepts N g node :
  readLatinNode N g = Some node -> wfInput N g /\ node = inputNode N g.
Proof.
  unfold readLatinNode.
  destruct (1 <=? N) eqn:HN; [|discriminate].
  destruct (length g =? Z.to_nat N)%nat eqn:Hl; [|discriminate].
  destruct (forallb (fun r => (length r =? Z.to_nat N)%nat) g) eqn:Hr;
    [|discriminate].
  destruct (forallb (forallb (inRange N)) g) eqn:Hv; [|discriminate].
  simpl. intros E; injection E as <-. split; [|reflexivity].
  apply Z.leb_le in HN. apply Nat.eqb_eq in Hl.
  rewrite forallb_forall in Hr, Hv.
  assert (Hwf : wfSquare N g).
  { split; auto. apply Forall_forall; intros r Hin.
    now apply Nat.eqb_eq, Hr. }
  repeat split; auto; try apply Hwf; try lia.
  - pose proof (wfSquare_row _ _ _ Hwf H) as Hrow.
    assert (Hin : In (idx g i []) g) by (apply nth_In; lia).
    specialize (Hv _ Hin). rewrite forallb_forall in Hv.
    assert (Hin' : In (cell g i j) (idx g i [])) by (apply nth_In; lia).
    specialize (Hv _ Hin'). unfold inRange in Hv. lia.
  - pose proof (wfSquare_row _ _ _ Hwf H) as Hrow.
    assert (Hin : In (idx g i []) g) by (apply nth_In; lia).
    specialize (Hv _ Hin). rewrite forallb_forall in Hv.
    assert (Hin' : In (cell g i j) (idx g i [])) by (apply nth_In; lia).
    specialize (Hv _ Hin'). unfold inRange in Hv. lia.
Qed.

Lemma wfNode_inputNode N g : wfInput N g -> wfNode N (inputNode N g).
Proof.
  intros (HN & Hg & _). repeat split; simpl; try lia; try apply Hg.
  apply length_fresh.
Qed.

Lemma solveEntry_Inv N g :
  wfInput N g ->
  exists s0, solveEntry (mainStack (inputNode N g)) = Done s0
             /\ Inv N g s0
             /\ l_stack s0 = mkStack [inputNode N g] 1
             /\ l_trace s0 = []
             /\ l_pushCounter s0 = 0 /\ l_popCounter s0 = 0
             /\ l_stepCounter s0 = 1.
Proof.
  intros Hin. pose proof (wfNode_inputNode _ _ Hin) as Hwf.
  destruct Hin as (HN & Hg & _).
  unfold solveEntry, mainStack, initStack, push. cbn [top depth].
  rewrite !(cloneNode_id N (inputNode N g)) by assumption.
  destruct (findNextEmptyCell (inputNode N g)) as [[code r] c] eqn:Ef.
  eexists; split; [reflexivity|]. repeat split; simpl; auto.
  - apply chain_base, length_fresh.
  - now exists code.
  - intros r' c' old new [].
Qed.

(** * The while loop *)

Lemma solveLoop_sound N g :
  0 <= N -> wfSquare N g ->
  forall fuel s, Inv N g s ->
    match solveLoop fuel s with
    | Done (SOLVED s') => Inv N g s' /\ guard s' = false
    | Done (UNSOLVABLE s') =>
        top (l_stack s') = [] /\ depth (l_stack s') = 0
        /\ writesEmpty (l_trace s')
    | Undefined => False
    | OutOfFuel => True
    end.
Proof.
  intros HN Hg. induction fuel as [|fuel IH]; intros s HI; simpl.
  - destruct (guard s) eqn:Hgd; auto.
  - destruct (guard s) eqn:Hgd; auto.
    destruct (loopBody_step _ _ _ HN Hg HI Hgd)
      as [(s' & E & HI' & _)|(s' & E & Ht & Hd & _ & Htr)]; rewrite E; simpl.
    + apply IH; auto.
    + repeat split; auto. rewrite Htr.
      intros r c old new [Ev|Hin]; [discriminate|].
      eapply (inv_writes _ _ _ HI); eauto.
Qed.

Lemma solveLoop_more_fuel fuel : forall s e k,
  solveLoop fuel s = Done e -> solveLoop (fuel + k) s = Done e.
Proof.
  induction fuel as [|fuel IH]; intros s e k; simpl.
  - destruct (guard s) eqn:Hgd; [discriminate|].
    intros E. destruct k; simpl; now rewrite Hgd.
  - destruct (guard s); auto.
    destruct (loopBody s) as [[s'|s']| |]; simpl; auto; discriminate.
Qed.

Lemma solveLoop_fuel_independent fuel1 fuel2 s e1 e2 :
  solveLoop fuel1 s = Done e1 -> solveLoop fuel2 s = Done e2 -> e1 = e2.
Proof.
  intros H1 H2.
  apply (solveLoop_more_fuel _ _ _ fuel2) in H1.
  apply (solveLoop_more_fuel _ _ _ fuel1) in H2.
  rewrite Nat.add_comm in H2. congruence.
Qed.

(** * Termination of the search *)

Lemma weight_nonneg B K l : 0 <= B -> 0 <= weight B K l.
Proof.
  intros HB; induction l as [|F fs IH]; simpl; [lia|].
  pose proof (Z.pow_nonneg B (K - Z.of_nat (length fs)) HB). nia.
Qed.

Lemma measure_nonneg N K l : 0 <= N -> 0 <= measure N K l.
Proof.
  intros HN. unfold measure.
  pose proof (weight_nonneg (N + 2) K l ltac:(lia)).
  pose proof (Z.pow_nonneg (N + 2) (K + 1 - Z.of_nat (length l)) ltac:(lia)).
  lia.
Qed.

Lemma measure_step N K l l' :
  0 <= N -> stackStep N l l' ->
  Z.of_nat (length l) <= K + 1 -> Z.of_nat (length l') <= K + 1 ->
  measure N K l' < measure N K l.
Proof.
  intros HN Hst Hl Hl'. unfold measure.
  destruct Hst as [F fs G HG | G F fs F' HF]; cbn [weight length] in *.
  - set (w := weight (N + 2) K fs).
    set (L := Z.of_nat (length fs)) in *.
    replace (Z.of_nat (S (length fs))) with (L + 1) in * by (unfold L; lia).
    replace (Z.of_nat (S (S (length fs)))) with (L + 2) in * by (unfold L; lia).
    replace (K - L) with (Z.succ (K - (L + 1))) by lia.
    replace (K + 1 - (L + 1)) with (Z.succ (K - (L + 1))) by lia.
    replace (K + 1 - (L + 2)) with (K - (L + 1)) by lia.
    rewrite !Z.pow_succ_r by lia. rewrite HG.
    pose proof (Z.pow_pos_nonneg (N + 2) (K - (L + 1)) ltac:(lia) ltac:(lia)).
    nia.
  - set (w := weight (N + 2) K fs).
    set (L := Z.of_nat (length fs)) in *.
    replace (Z.of_nat (S (length fs))) with (L + 1) in * by (unfold L; lia).
    replace (Z.of_nat (S (S (length fs)))) with (L + 2) in * by (unfold L; lia).
    replace (K - L) with (Z.succ (K - (L + 1))) by lia.
    replace (K + 1 - (L + 1)) with (Z.succ (K - (L + 1))) by lia.
    replace (K + 1 - (L + 2)) with (K - (L + 1)) by lia.
    rewrite !Z.pow_succ_r by lia. rewrite <- HF.
    pose proof (Z.pow_pos_nonneg (N + 2) (K - (L + 1)) ltac:(lia) ltac:(lia)).
    nia.
Qed.

Lemma Inv_depth_bound N g s :
  0 <= N -> wfSquare N g -> Inv N g s ->
  Z.of_nat (length (top (l_stack s))) <= Z.of_nat (emptyCells g) + 1.
Proof.
  intros HN Hg HI. destruct (Inv_top _ _ _ HN Hg HI) as (fs & -> & HF).
  pose proof (fo_empty _ _ _ _ HF). cbn [length]. lia.
Qed.

Lemma solveLoop_terminates N g :
  0 <= N -> wfSquare N g ->
  forall fuel s, Inv N g s ->
    measure N (Z.of_nat (emptyCells g)) (top (l_stack s)) < Z.of_nat fuel ->
    exists e, solveLoop fuel s = Done e.
Proof.
  intros HN Hg. induction fuel as [|fuel IH]; intros s HI Hm.
  - pose proof (measure_nonneg N (Z.of_nat (emptyCells g))
                  (top (l_stack s)) HN). lia.
  - simpl. destruct (guard s) eqn:Hgd; [|eauto].
    destruct (loopBody_step _ _ _ HN Hg HI Hgd)
      as [(s' & E & HI' & Hst)|(s' & E & _)]; rewrite E; simpl; [|eauto].
    apply IH; auto.
    pose proof (measure_step N (Z.of_nat (emptyCells g)) _ _ HN Hst
                  (Inv_depth_bound _ _ _ HN Hg HI)
                  (Inv_depth_bound _ _ _ HN Hg HI')). lia.
Qed.

Lemma solveRun_terminates N g node :
  readLatinNode N g = Some node ->
  exists e, solveRun (enoughFuel N g) node = Done e.
Proof.
  intros Hr. destruct (readLatinNode_accepts _ _ _ Hr) as [Hin ->].
  destruct (solveEntry_Inv _ _ Hin) as (s0 & E & HI & Hst & _).
  destruct Hin as (HN & Hg & _).
  unfold solveRun. rewrite E. cbn [bind].
  apply (solveLoop_terminates N g HN Hg); auto.
  rewrite Hst. cbn [top]. unfold enoughFuel.
  pose proof (measure_nonneg N (Z.of_nat (emptyCells g)) [inputNode N g] HN).
  lia.
Qed.

Lemma reaches_Inv N g s s' :
  0 <= N -> wfSquare N g -> Inv N g s -> reaches s s' -> Inv N g s'.
Proof.
  intros HN Hg HI Hr. induction Hr as [s | s s1 s2 Hgd E _ IH]; auto.
  apply IH.
  destruct (loopBody_step _ _ _ HN Hg HI Hgd)
    as [(s' & E' & HI' & _)|(s' & E' & _)]; rewrite E in E'.
  - injection E' as <-. exact HI'.
  - discriminate.
Qed.

Lemma solveRun_sound N g node fuel e :
  readLatinNode N g = Some node ->
  solveRun fuel node = Done e ->
  match e with
  | SOLVED s => Inv N g s /\ guard s = false
  | UNSOLVABLE s => top (l_stack s) = [] /\ depth (l_stack s) = 0
                    /\ writesEmpty (l_trace s)
  end.
Proof.
  intros Hr. destruct (readLatinNode_accepts _ _ _ Hr) as [Hin ->].
  destruct (solveEntry_Inv _ _ Hin) as (s0 & E & HI & _).
  destruct Hin as (HN & Hg & _).
  unfold solveRun. rewrite E. cbn [bind]. intros Hl.
  pose proof (solveLoop_sound N g HN Hg fuel s0 HI) as H.
  rewrite Hl in H. exact H.
Qed.

(** * Complete grids and Latin squares *)

Lemma isComplete_spec N sq :
  isComplete N sq = true <->
  forall i j, 0 <= i < N -> 0 <= j < N -> cell sq i j <> 0.
Proof.
  unfold isComplete. rewrite forallb_forall. split.
  - intros H i j Hi Hj. apply in_zrange in Hi, Hj.
    specialize (H i Hi). rewrite forallb_forall in H. specialize (H j Hj).
    apply negb_true_iff, Z.eqb_neq in H. exact H.
  - intros H i Hi. apply forallb_forall. intros j Hj.
    apply in_zrange in Hi, Hj. apply negb_true_iff, Z.eqb_neq. auto.
Qed.

Lemma emptyCells_complete N sq :
  wfSquare N sq ->
  (forall i j, 0 <= i < N -> 0 <= j < N -> cell sq i j <> 0) ->
  emptyCells sq = 0%nat.
Proof.
  intros Hwf H. unfold emptyCells.
  assert (Hrows : forall r, In r sq -> count_occ Z.eq_dec r 0 = 0%nat).
  { intros r Hin. apply count_occ_not_In. intros H0.
    destruct (In_nth _ _ [] Hin) as (i & Hi & Ei).
    destruct (In_nth _ _ 0 H0) as (j & Hj & Ej).
    pose proof (proj1 Hwf) as Hl.
    assert (Hlr : length r = Z.to_nat N).
    { pose proof (proj2 Hwf) as Hr. rewrite Forall_forall in Hr. auto. }
    apply (H (Z.of_nat i) (Z.of_nat j)); try lia.
    unfold cell, idx. rewrite !Nat2Z.id, Ei. exact Ej. }
  clear Hwf H. induction sq as [|r t IH]; simpl; auto.
  rewrite (Hrows r) by (left; auto). apply IH.
  intros r0 Hin; apply Hrows; right; auto.
Qed.

Lemma NoDup_map_in {A B} (f : A -> B) l :
  NoDup l -> (forall x y, In x l -> In y l -> f x = f y -> x = y) ->
  NoDup (map f l).
Proof.
  induction 1 as [|a l Ha Hnd IH]; intros Hinj; simpl; constructor.
  - rewrite in_map_iff. intros (x & Ex & Hx).
    apply Ha. rewrite <- (Hinj x a); auto; [right|left]; auto.
  - apply IH. intros x y Hx Hy. apply Hinj; right; auto.
Qed.

Lemma NoDup_zrange N : NoDup (zrange N).
Proof.
  unfold zrange. apply NoDup_map_in; [apply seq_NoDup|].
  intros x y _ _ E. lia.
Qed.

Lemma in_values N v : In v (values N) <-> 1 <= v <= N.
Proof.
  unfold values. rewrite in_map_iff. split.
  - intros (k & <- & Hk). apply in_zrange in Hk. lia.
  - intros H. exists (v - 1). split; [lia|]. apply in_zrange. lia.
Qed.

(** A line of [N] cells, filled, in range and pairwise of different
    magnitudes, holds each of 1..N exactly once. *)
Lemma line_latin N (f : Z -> Z) v :
  0 <= N ->
  (forall j, 0 <= j < N -> f j <> 0 /\ - N <= f j <= N) ->
  (forall j k, 0 <= j < N -> 0 <= k < N -> j <> k -> Z.abs (f j) <> Z.abs (f k)) ->
  1 <= v <= N ->
  count_occ Z.eq_dec (map (fun j => Z.abs (f j)) (zrange N)) v = 1%nat.
Proof.
  intros HN Hfill Hdiff Hv.
  set (l := map (fun j => Z.abs (f j)) (zrange N)).
  assert (Hnd : NoDup l).
  { apply NoDup_map_in; [apply NoDup_zrange|].
    intros x y Hx Hy E. apply in_zrange in Hx, Hy.
    destruct (Z.eq_dec x y) as [|Hne]; auto.
    exfalso; apply (Hdiff x y); auto. }
  apply (proj1 (NoDup_count_occ' Z.eq_dec l) Hnd).
  apply (NoDup_length_incl Hnd (l' := values N)).
  - unfold l, values. rewrite !length_map. lia.
  - intros x Hx. unfold l in Hx. apply in_map_iff in Hx.
    destruct Hx as (j & <- & Hj). apply in_zrange in Hj.
    apply in_values. specialize (Hfill j Hj). lia.
  - now apply in_values.
Qed.

Lemma isLatin_intro N sq :
  0 <= N ->
  (forall i j, 0 <= i < N -> 0 <= j < N -> cell sq i j <> 0) ->
  cellsInRange N sq -> noConflict N sq ->
  isLatin N sq = true.
Proof.
  intros HN Hfull Hran Hcon. unfold isLatin.
  apply forallb_forall; intros i Hi. apply forallb_forall; intros v Hv.
  apply in_zrange in Hi. apply in_values in Hv.
  apply andb_true_intro; split; apply Nat.eqb_eq.
  - unfold rowAbs. apply (line_latin N (fun j => cell sq i j)); auto.
    intros j k Hj Hk Hjk. apply (Hcon i j k); auto.
  - unfold colAbs. apply (line_latin N (fun j => cell sq j i)); auto.
    intros j k Hj Hk Hjk. apply (Hcon i j k); auto.
Qed.

Lemma noConflictb_sound N sq : noConflictb N sq = true -> noConflict N sq.
Proof.
  unfold noConflictb, noConflict. intros H i j k Hi Hj Hk Hjk.
  apply in_zrange in Hi, Hj, Hk.
  rewrite forallb_forall in H. specialize (H i Hi).
  rewrite forallb_forall in H. specialize (H j Hj).
  rewrite forallb_forall in H. specialize (H k Hk).
  apply orb_true_iff in H. destruct H as [H|H]; [apply Z.eqb_eq in H; lia|].
  apply andb_true_iff in H. destruct H as [H1 H2].
  apply orb_true_iff in H1, H2.
  split; intros Hnz.
  - destruct H1 as [H1|H1]; [apply Z.eqb_eq in H1; lia|].
    now apply negb_true_iff, Z.eqb_neq in H1.
  - destruct H2 as [H2|H2]; [apply Z.eqb_eq in H2; lia|].
    now apply negb_true_iff, Z.eqb_neq in H2.
Qed.

(** * pop on the heap *)

Lemma nth_live_lt (h : Heap) a : nth a h None <> None -> (a < length h)%nat.
Proof.
  intros H. destruct (Nat.lt_ge_cases a (length h)) as [|Hge]; auto.
  exfalso; apply H. now apply nth_overflow.
Qed.

Lemma nth_app_live (h ext : Heap) a :
  nth a h None <> None -> nth a (h ++ ext) None = nth a h None.
Proof. intros H. apply app_nth1. now apply nth_live_lt. Qed.

Lemma set_nth_app_l {A} n (v : A) l t :
  (n < length l)%nat -> set_nth n v (l ++ t) = set_nth n v l ++ t.
Proof.
  revert n; induction l as [|x l IH]; intros [|n] H; simpl in *; try lia; auto.
  now rewrite IH by lia.
Qed.

Lemma set_nth_app_r {A} n (v : A) l t :
  set_nth (length l + n) v (l ++ t) = l ++ set_nth n v t.
Proof. induction l as [|x l IH]; simpl; auto. now rewrite IH. Qed.

Lemma set_nth_app_0 {A} (v x : A) l t :
  set_nth (length l) v (l ++ x :: t) = l ++ v :: t.
Proof.
  replace (length l) with (length l + 0)%nat by lia.
  now rewrite set_nth_app_r.
Qed.

Lemma set_nth_app_1 {A} (v x y : A) l t :
  set_nth (length l + 1) v (l ++ x :: y :: t) = l ++ x :: v :: t.
Proof. now rewrite set_nth_app_r. Qed.

Lemma nth_free_other (h : Heap) a b :
  a <> b -> nth a (free h b) None = nth a h None.
Proof. intros H. apply nth_set_nth_other. auto. Qed.

Lemma liveInts_live h sz a : liveInts h sz a -> nth a h None <> None.
Proof. intros (l & E & _). rewrite E. discriminate. Qed.

Lemma liveInts_intsAt h sz a : liveInts h sz a -> length (intsAt h a) = Z.to_nat sz.
Proof. intros (l & E & Hl). unfold intsAt. now rewrite E. Qed.

Lemma intsAt_app_live h ext a :
  nth a h None <> None -> intsAt (h ++ ext) a = intsAt h a.
Proof. intros H. unfold intsAt. now rewrite nth_app_live. Qed.

Lemma rowsAt_app_live h ext a :
  nth a h None <> None -> rowsAt (h ++ ext) a = rowsAt h a.
Proof. intros H. unfold rowsAt. now rewrite nth_app_live. Qed.

Lemma intsAt_tail (ls : list (list Z)) : forall pre : Heap,
  map (intsAt (pre ++ map (fun x => Some (Ints x)) ls))
      (seq (length pre) (length ls)) = ls.
Proof.
  induction ls as [|x ls IH]; intros pre; simpl; auto. f_equal.
  - unfold intsAt. now rewrite nth_middle.
  - specialize (IH (pre ++ [Some (Ints x)])).
    rewrite <- app_assoc, length_app in IH. simpl in IH.
    now rewrite Nat.add_1_r in IH.
Qed.

Lemma intsAt_tail2 (pre : Heap) c0 c1 (g : Z -> list Z) ks :
  map (intsAt (pre ++ c0 :: c1 :: map (fun i => Some (Ints (g i))) ks))
      (seq (length pre + 2) (length ks)) = map g ks.
Proof.
  pose proof (intsAt_tail (map g ks) (pre ++ [c0; c1])) as H.
  rewrite map_map, <- app_assoc, length_app, length_map in H. exact H.
Qed.

Section PopOnHeap.
Variables (h : Heap) (temp : NodePtr) (rs : list nat).
Hypothesis Hsq : nth (p_square temp) h None = Some (Rows rs).
Hypothesis Hlen : length rs = Z.to_nat (p_size temp).
Hypothesis Hrows : Forall (liveInts h (p_size temp)) rs.
Hypothesis Hmv : liveInts h (p_size temp) (p_moves temp).

Lemma row_live i : 0 <= i < p_size temp -> liveInts h (p_size temp) (idx rs i 0%nat).
Proof.
  intros Hi. rewrite Forall_forall in Hrows. apply Hrows.
  apply nth_In. lia.
Qed.

Lemma rowsAt_temp ext : rowsAt (h ++ ext) (p_square temp) = rs.
Proof.
  rewrite rowsAt_app_live by (rewrite Hsq; discriminate).
  unfold rowsAt. now rewrite Hsq.
Qed.

Lemma copyRowsP_closed ks : forall ext,
  (forall i, In i ks -> 0 <= i < p_size temp) ->
  copyRowsP (h ++ ext) temp ks
  = (seq (length (h ++ ext)) (length ks),
     (h ++ ext) ++ map (fun i => Some (Ints (intsAt h (idx rs i 0%nat)))) ks).
Proof.
  induction ks as [|i ks IH]; intros ext Hin; simpl.
  - now rewrite app_nil_r.
  - assert (Hi : 0 <= i < p_size temp) by (apply Hin; left; auto).
    pose proof (row_live i Hi) as Hlive.
    rewrite rowsAt_temp, intsAt_app_live by (eapply liveInts_live; eauto).
    rewrite idx_copy by (eapply liveInts_intsAt; eauto).
    rewrite <- app_assoc. rewrite IH by (intros; apply Hin; right; auto).
    rewrite <- !app_assoc. simpl. f_equal. f_equal.
    rewrite !length_app. simpl. f_equal. lia.
Qed.

Lemma fold_free_app (ks : list Z) : forall (hh t : Heap),
  length hh = length h ->
  (forall i, In i ks -> 0 <= i < p_size temp) ->
  fold_left (fun x i => free x (idx rs i 0%nat)) ks (hh ++ t)
  = fold_left (fun x i => free x (idx rs i 0%nat)) ks hh ++ t.
Proof.
  induction ks as [|i ks IH]; intros hh t Hl Hin; simpl; auto.
  assert (Hi : 0 <= i < p_size temp) by (apply Hin; left; auto).
  pose proof (nth_live_lt _ _ (liveInts_live _ _ _ (row_live i Hi))) as Hlt.
  unfold free at 2. rewrite set_nth_app_l by lia.
  apply IH; [| intros; apply Hin; right; auto].
  unfold free. now rewrite length_set_nth.
Qed.

Lemma fold_free_length (ks : list Z) : forall hh : Heap,
  length (fold_left (fun x i => free x (idx rs i 0%nat)) ks hh) = length hh.
Proof.
  induction ks as [|i ks IH]; intros hh; simpl; auto.
  rewrite IH. unfold free. apply length_set_nth.
Qed.

Lemma fold_free_other (ks : list Z) a : forall hh : Heap,
  (forall i, In i ks -> idx rs i 0%nat <> a) ->
  nth a (fold_left (fun x i => free x (idx rs i 0%nat)) ks hh) None
  = nth a hh None.
Proof.
  induction ks as [|i ks IH]; intros hh Hin; simpl; auto.
  rewrite IH by (intros; apply Hin; right; auto).
  apply nth_free_other. intros E. apply (Hin i); [left|]; auto.
Qed.

Lemma rowsAt_temp0 : rowsAt h (p_square temp) = rs.
Proof. unfold rowsAt. now rewrite Hsq. Qed.

Lemma length_freeNodeP : length (freeNodeP h temp) = length h.
Proof.
  unfold freeNodeP, free. rewrite rowsAt_temp0.
  now rewrite !length_set_nth, fold_free_length.
Qed.

Lemma freeNodeP_other a :
  ~ In a (footprint h temp) -> nth a (freeNodeP h temp) None = nth a h None.
Proof.
  intros Hn. unfold footprint in Hn. rewrite rowsAt_temp0 in Hn. simpl in Hn.
  unfold freeNodeP. rewrite rowsAt_temp0.
  rewrite !nth_free_other by (intros E; apply Hn; rewrite E; auto).
  apply fold_free_other. intros i Hi E. apply in_zrange in Hi.
  apply Hn. right; right. rewrite <- E. apply nth_In. lia.
Qed.

Lemma popP_heap rest d retNode :
  d <> 0 ->
  popP h (mkStackPtr (temp :: rest) d) retNode
  = Done (EXIT_SUCCESS, freeNodeP h temp ++ copiedBlocks h temp,
          mkStackPtr rest (d - 1),
          Some (mkNodePtr (length h) (p_size temp) (p_row temp) (p_col temp)
                          (S (length h)))).
Proof.
  intros Hd. unfold popP. cbn [p_depth p_top].
  destruct (Z.eqb_spec d 0) as [|_]; [contradiction|].
  unfold malloc. rewrite <- app_assoc. cbn [app].
  rewrite copyRowsP_closed by (intros i Hi; now apply in_zrange in Hi).
  rewrite !length_app, length_zrange. cbn [length].
  rewrite <- app_assoc. cbn [app].
  rewrite !set_nth_app_0, set_nth_app_1.
  rewrite intsAt_app_live by (eapply liveInts_live; eauto).
  rewrite copyMoves_id by (eapply liveInts_intsAt; eauto).
  unfold freeNodeP, copiedBlocks. rewrite rowsAt_temp, rowsAt_temp0.
  rewrite fold_free_app by (auto; intros i Hi; now apply in_zrange in Hi).
  pose proof (nth_live_lt h (p_square temp)
                ltac:(rewrite Hsq; discriminate)) as Hlt1.
  pose proof (nth_live_lt _ _ (liveInts_live _ _ _ Hmv)) as Hlt2.
  unfold free at 2. rewrite set_nth_app_l by (rewrite fold_free_length; lia).
  unfold free at 1.
  rewrite set_nth_app_l by (rewrite length_set_nth, fold_free_length; lia).
  repeat f_equal; lia.
Qed.
Lemma popped_old_block a :
  nth a h None <> None -> ~ In a (footprint h temp) ->
  nth a (freeNodeP h temp ++ copiedBlocks h temp) None = nth a h None.
Proof.
  intros Hlive Hn. pose proof (nth_live_lt _ _ Hlive) as Hlt.
  rewrite app_nth1 by (rewrite length_freeNodeP; lia).
  now apply freeNodeP_other.
Qed.

Lemma popped_copy_square :
  map (intsAt (freeNodeP h temp ++ copiedBlocks h temp))
      (seq (length h + 2) (Z.to_nat (p_size temp)))
  = map (intsAt h) rs.
Proof.
  unfold copiedBlocks. rewrite rowsAt_temp0.
  pose proof (intsAt_tail2 (freeNodeP h temp)
                (Some (Rows (seq (length h + 2) (Z.to_nat (p_size temp)))))
                (Some (Ints (intsAt h (p_moves temp))))
                (fun i => intsAt h (idx rs i 0%nat))
                (zrange (p_size temp))) as H.
  rewrite length_freeNodeP, length_zrange in H. rewrite H.
  rewrite <- (map_map (fun i => idx rs i 0%nat) (intsAt h)).
  now rewrite idx_copy.
Qed.

Lemma popped_copy :
  nodeAt (freeNodeP h temp ++ copiedBlocks h temp)
         (mkNodePtr (length h) (p_size temp) (p_row temp) (p_col temp)
                    (S (length h)))
  = nodeAt h temp.
Proof.
  unfold nodeAt; cbn [p_square p_size p_row p_col p_moves].
  assert (E0 : nth (length h) (freeNodeP h temp ++ copiedBlocks h temp) None
               = Some (Rows (seq (length h + 2) (Z.to_nat (p_size temp))))).
  { rewrite app_nth2 by (rewrite length_freeNodeP; lia).
    rewrite length_freeNodeP, Nat.sub_diag. reflexivity. }
  assert (E1 : nth (S (length h)) (freeNodeP h temp ++ copiedBlocks h temp) None
               = Some (Ints (intsAt h (p_moves temp)))).
  { rewrite app_nth2 by (rewrite length_freeNodeP; lia).
    rewrite length_freeNodeP.
    replace (S (length h) - length h)%nat with 1%nat by lia. reflexivity. }
  unfold rowsAt at 1. rewrite E0. unfold intsAt at 2. rewrite E1.
  rewrite popped_copy_square, rowsAt_temp0. reflexivity.
Qed.

Lemma popped_copy_fresh a :
  In a (footprint (freeNodeP h temp ++ copiedBlocks h temp)
                  (mkNodePtr (length h) (p_size temp) (p_row temp) (p_col temp)
                             (S (length h)))) ->
  (length h <= a)%nat
  /\ nth a (freeNodeP h temp ++ copiedBlocks h temp) None <> None.
Proof.
  unfold footprint; cbn [p_square p_moves]. intros Hin.
  assert (Hlen' : length (copiedBlocks h temp) = (2 + Z.to_nat (p_size temp))%nat).
  { unfold copiedBlocks. cbn [length]. now rewrite length_map, length_zrange. }
  assert (Hrange : (length h <= a < length h + 2 + Z.to_nat (p_size temp))%nat).
  { destruct Hin as [<-|[<-|Hin]]; try lia.
    unfold rowsAt in Hin.
    rewrite app_nth2 in Hin by (rewrite length_freeNodeP; lia).
    rewrite length_freeNodeP, Nat.sub_diag in Hin. cbn in Hin.
    apply in_seq in Hin. lia. }
  split; [lia|].
  rewrite app_nth2 by (rewrite length_freeNodeP; lia).
  rewrite length_freeNodeP.
  assert (Hall : forall b, In b (copiedBlocks h temp) -> b <> None).
  { unfold copiedBlocks. intros b [<-|[<-|Hb]]; try discriminate.
    apply in_map_iff in Hb. destruct Hb as (i & <- & _). discriminate. }
  apply Hall, nth_In. lia.
Qed.
End PopOnHeap.

Lemma wfNodePtr_wfNode h p : wfNodePtr h p -> wfNode (p_size p) (nodeAt h p).
Proof.
  intros (Hr & Hc & (rs & Hsq & Hlen & Hrows) & Hmv).
  unfold nodeAt, wfNode, wfSquare; cbn [size square moves row col].
  unfold rowsAt. rewrite Hsq. rewrite length_map.
  repeat split; auto.
  - apply Forall_map. eapply Forall_impl; [|exact Hrows].
    intros a Ha. eapply liveInts_intsAt; eauto.
  - eapply liveInts_intsAt; eauto.
Qed.

Lemma footprint_live h p a :
  wfNodePtr h p -> In a (footprint h p) -> nth a h None <> None.
Proof.
  intros (_ & _ & (rs & Hsq & _ & Hrows) & Hmv). unfold footprint, rowsAt.
  rewrite Hsq. intros [<-|[<-|Hin]].
  - rewrite Hsq; discriminate.
  - eapply liveInts_live; eauto.
  - rewrite Forall_forall in Hrows. eapply liveInts_live; eauto.
Qed.

(** A frame whose blocks are apart from those of the popped frame reads
    the same after [pop], from the same addresses. *)
Lemma popped_frame_kept h temp G :
  wfNodePtr h temp -> wfNodePtr h G ->
  (forall a, In a (footprint h G) -> ~ In a (footprint h temp)) ->
  nodeAt (freeNodeP h temp ++ copiedBlocks h temp) G = nodeAt h G
  /\ footprint (freeNodeP h temp ++ copiedBlocks h temp) G = footprint h G.
Proof.
  intros (_ & _ & (rs & Hsq & Hlen & _) & _) HG Hsep.
  assert (Hold : forall a, In a (footprint h G) ->
            nth a (freeNodeP h temp ++ copiedBlocks h temp) None
            = nth a h None).
  { intros a Ha. eapply popped_old_block; eauto.
    eapply footprint_live; eauto. }
  assert (Erows : rowsAt (freeNodeP h temp ++ copiedBlocks h temp) (p_square G)
                  = rowsAt h (p_square G)).
  { unfold rowsAt. rewrite Hold; [reflexivity | left; reflexivity]. }
  split.
  - unfold nodeAt. rewrite Erows. f_equal.
    + apply map_ext_in. intros r Hr. unfold intsAt.
      rewrite Hold; [reflexivity | right; right; exact Hr].
    + unfold intsAt. rewrite Hold; [reflexivity | right; left; reflexivity].
  - unfold footprint. now rewrite Erows.
Qed.

Lemma NoDup_app_apart {A} (l1 l2 : list A) a :
  NoDup (l1 ++ l2) -> In a l1 -> In a l2 -> False.
Proof.
  induction l1 as [|x l1 IH]; simpl; intros Hnd H1 H2; [contradiction|].
  inversion Hnd as [|? ? Hx Hnd']; subst. destruct H1 as [->|H1].
  - apply Hx, in_or_app. now right.
  - now apply IH.
Qed.

(** [pop] on frames as values: failure on an empty stack, else the top
    frame is removed and copied out. *)
Lemma pop_frames (s : Stack) (retNode : option Node) :
  wfStack s ->
  match top s with
  | [] => pop s retNode = Done (EXIT_FAILURE, s, retNode)
  | F :: fs =>
      exists s' copy,
        pop s retNode = Done (EXIT_SUCCESS, s', Some copy)
        /\ top s' = fs
        /\ depth s' = depth s - 1
        /\ depth s' = Z.of_nat (length fs)
        /\ hd_error (top s') = hd_error fs
        /\ square copy = square F /\ moves copy = moves F
        /\ row copy = row F /\ col copy = col F /\ size copy = size F
  end.
Proof.
  intros [Hd Hwf]. unfold pop, isEmpty.
  destruct (top s) as [|F fs] eqn:Etop; cbn [length] in Hd.
  - rewrite Hd. reflexivity.
  - destruct (Z.eqb_spec (depth s) 0) as [|_]; [lia|].
    apply Forall_inv in Hwf. destruct Hwf as (_ & Hsq & Hmv & _).
    eexists; eexists. split; [reflexivity|].
    cbn [top depth square moves row col size].
    rewrite copySquare_id, copyMoves_id by assumption.
    repeat split; auto. lia.
Qed.

(** * Runs on small inputs *)

(** The two 2 x 2 grids of the specification's test list: the frames
    at the exit, top first, and the calls made. *)
Lemma run_2x2_solved :
  exists s, solveRun 5 (inputNode 2 [[1; 0]; [0; 1]]) = Done (SOLVED s)
            /\ map square (top (l_stack s))
               = [[[1; 2]; [2; 1]]; [[1; 2]; [0; 1]]; [[1; 0]; [0; 1]]]
            /\ l_pushCounter s = 2 /\ l_popCounter s = 0.
Proof. eexists. split; [vm_compute; reflexivity|]. repeat split. Qed.

Lemma run_2x2_clue_conflict :
  exists s, solveRun 5 (inputNode 2 [[-1; -1]; [0; 0]]) = Done (UNSOLVABLE s)
            /\ top (l_stack s) = []
            /\ l_trace s = [EvPop; EvPop; EvPush; EvUpdate 1 0 0 2].
Proof. eexists. split; [vm_compute; reflexivity|]. repeat split. Qed.

(** The puzzle of the debugging [main] of algorithm.c. *)
Lemma run_4x4_first_row :
  exists s, solveRun 20 (inputNode 4 [[1; 2; 3; 4]; [0; 0; 0; 0];
                                      [0; 0; 0; 0]; [0; 0; 0; 0]])
            = Done (SOLVED s)
            /\ option_map square (hd_error (top (l_stack s)))
               = Some [[1; 2; 3; 4]; [2; 1; 4; 3]; [3; 4; 1; 2]; [4; 3; 2; 1]]
            /\ l_pushCounter s = 12 /\ l_popCounter s = 0.
Proof. eexists. split; [vm_compute; reflexivity|]. repeat split. Qed.

Lemma run_3x3_backtracks :
  exists s, solveRun 20 (inputNode 3 [[0; 0; 0]; [0; 0; 0]; [0; 0; 0]])
            = Done (SOLVED s)
            /\ option_map square (hd_error (top (l_stack s)))
               = Some [[1; 2; 3]; [2; 3; 1]; [3; 1; 2]]
            /\ l_pushCounter s = 10 /\ l_popCounter s = 1.
Proof. eexists. split; [vm_compute; reflexivity|]. repeat split. Qed.

(** * The claims of the specification *)

(** C1 (as amended). When the loop ends in SOLVED, the top frame of the
    stack has every cell non-zero; [solveLatinSquare] then releases the
    whole stack and returns only [true], so no grid reaches the caller.
    When it ends in UNSOLVABLE, [false] is returned and the stack holds
    no frame. *)
Theorem solved_top_complete_then_freed N g node fuel e :
  readLatinNode N g = Some node ->
  solveRun fuel node = Done e ->
  match e with
  | SOLVED s =>
      (exists F fs, top (l_stack s) = F :: fs
                    /\ isComplete N (square F) = true)
      /\ solveLatinSquare fuel (mainStack node) = Done (true, Freed)
      /\ peekTop Freed = None
  | UNSOLVABLE s =>
      top (l_stack s) = []
      /\ solveLatinSquare fuel (mainStack node) = Done (false, Live (l_stack s))
      /\ peekTop (Live (l_stack s)) = None
  end.
Proof.
  intros Hr Hrun. pose proof (solveRun_sound _ _ _ _ _ Hr Hrun) as Hs.
  destruct (readLatinNode_accepts _ _ _ Hr) as [(HN & Hg & _) _].
  assert (Hret : solveLatinSquare fuel (mainStack node)
                 = match e with
                   | SOLVED s => Done (true, freeStack (l_stack s))
                   | UNSOLVABLE s => Done (false, Live (l_stack s))
                   end).
  { unfold solveLatinSquare, solveRun in *.
    destruct (solveEntry (mainStack node)) as [s0| |]; try discriminate.
    cbn [bind] in *. now rewrite Hrun. }
  destruct e as [s|s].
  - destruct Hs as [HI Hgd]. split; [|split; [exact Hret | reflexivity]].
    destruct (Inv_top _ _ _ HN Hg HI) as (fs & Etop & _).
    exists (l_newNode s), fs. split; auto.
    apply isComplete_spec. now apply (guard_false_complete N g).
  - destruct Hs as (Etop & _). split; [exact Etop|].
    split; [exact Hret|]. simpl. now rewrite Etop.
Qed.

Lemma solved_top_complete_then_freed_witness :
  exists s, solveRun 5 (inputNode 2 [[1; 0]; [0; 1]]) = Done (SOLVED s)
    /\ (exists F fs, top (l_stack s) = F :: fs
                     /\ isComplete 2 (square F) = true)
    /\ solveLatinSquare 5 (mainStack (inputNode 2 [[1; 0]; [0; 1]]))
       = Done (true, Freed)
    /\ peekTop Freed = None.
Proof.
  eexists. split; [vm_compute; reflexivity|].
  apply (solved_top_complete_then_freed 2 [[1; 0]; [0; 1]]
           (inputNode 2 [[1; 0]; [0; 1]]) 5 (SOLVED _));
    vm_compute; reflexivity.
Defined.

(** C1, as stated, fails: after [solveLatinSquare] has returned true on
    the 2 x 2 puzzle [[1,0],[0,1]], the stack of main is released and
    its own node still is the input with its two empty cells: no grid
    main can read is complete. *)
Lemma solved_grid_not_available :
  exists node v,
    readLatinNode 2 [[1; 0]; [0; 1]] = Some node
    /\ mainSolve 5 node = Done v
    /\ cv_result v = true
    /\ cv_stack v = Freed
    /\ forall sq, In sq (callerGrids v) -> isComplete 2 sq = false.
Proof.
  exists (inputNode 2 [[1; 0]; [0; 1]]).
  exists (mkCallerView true Freed (inputNode 2 [[1; 0]; [0; 1]])).
  split; [reflexivity|].
  split; [vm_compute; reflexivity|]. split; [reflexivity|].
  split; [reflexivity|]. intros sq [<-|[]]. reflexivity.
Qed.

(** C2 (as amended). For every accepted input whose filled cells have no
    repeated magnitude in a row or in a column, if the solver reports
    SOLVED then in the resulting grid (the top frame at the exit of the
    loop) every row and every column holds each of 1..N, by absolute
    magnitude, exactly once. *)
Theorem solved_is_latin N g node fuel s :
  readLatinNode N g = Some node ->
  noConflictb N g = true ->
  solveRun fuel node = Done (SOLVED s) ->
  exists F fs, top (l_stack s) = F :: fs /\ isLatin N (square F) = true.
Proof.
  intros Hr Hcon Hrun.
  destruct (solveRun_sound _ _ _ _ _ Hr Hrun) as [HI Hgd].
  destruct (readLatinNode_accepts _ _ _ Hr) as [(HN & Hg & Hran) _].
  destruct (Inv_top _ _ _ HN Hg HI) as (fs & Etop & HF).
  exists (l_newNode s), fs. split; auto.
  apply isLatin_intro; auto.
  - now apply (guard_false_complete N g).
  - now apply (fo_range _ _ _ _ HF).
  - apply (fo_conflict _ _ _ _ HF). now apply noConflictb_sound.
Qed.

Lemma solved_is_latin_witness :
  exists s, solveRun 20 (inputNode 3 [[0; 0; 0]; [0; 0; -1]; [0; -1; 0]])
            = Done (SOLVED s)
    /\ exists F fs, top (l_stack s) = F :: fs /\ isLatin 3 (square F) = true.
Proof.
  eexists. split; [vm_compute; reflexivity|].
  apply (solved_is_latin 3 [[0; 0; 0]; [0; 0; -1]; [0; -1; 0]]
           (inputNode 3 [[0; 0; 0]; [0; 0; -1]; [0; -1; 0]]) 20);
    vm_compute; reflexivity.
Defined.

(** C2, as stated, fails: the accepted input [[1,1],[1,1]] is reported
    SOLVED and its resulting grid is no Latin square. *)
Lemma solved_not_latin :
  exists node s F fs,
    readLatinNode 2 [[1; 1]; [1; 1]] = Some node
    /\ solveRun 4 node = Done (SOLVED s)
    /\ top (l_stack s) = F :: fs
    /\ isLatin 2 (square F) = false.
Proof. do 4 eexists. repeat split; vm_compute; reflexivity. Qed.

(** C3. When the solver reports SOLVED, every cell that was negative in
    the input holds the same value in the resulting grid, hence the same
    magnitude; and in every run each write of [updateNode] went to a
    cell holding 0. *)
Theorem clues_kept N g node fuel e :
  readLatinNode N g = Some node ->
  solveRun fuel node = Done e ->
  writesEmpty (exitTrace e)
  /\ match e with
     | SOLVED s =>
         exists F fs, top (l_stack s) = F :: fs
           /\ forall i j, 0 <= i < N -> 0 <= j < N -> cell g i j < 0 ->
                cell (square F) i j = cell g i j
                /\ Z.abs (cell (square F) i j) = Z.abs (cell g i j)
     | UNSOLVABLE _ => True
     end.
Proof.
  intros Hr Hrun. pose proof (solveRun_sound _ _ _ _ _ Hr Hrun) as Hs.
  destruct (readLatinNode_accepts _ _ _ Hr) as [(HN & Hg & _) _].
  destruct e as [s|s]; simpl.
  - destruct Hs as [HI _]. split; [apply (inv_writes _ _ _ HI)|].
    destruct (Inv_top _ _ _ HN Hg HI) as (fs & Etop & HF).
    exists (l_newNode s), fs. split; auto.
    intros i j Hi Hj Hneg.
    rewrite (fo_extends _ _ _ _ HF i j) by (auto; lia). auto.
  - split; auto. apply Hs.
Qed.

Lemma clues_kept_witness :
  exists s, solveRun 20 (inputNode 3 [[0; 0; 0]; [0; 0; -1]; [0; -1; 0]])
            = Done (SOLVED s)
    /\ writesEmpty (l_trace s)
    /\ exists F fs, top (l_stack s) = F :: fs
         /\ forall i j, 0 <= i < 3 -> 0 <= j < 3 ->
              cell [[0; 0; 0]; [0; 0; -1]; [0; -1; 0]] i j < 0 ->
              cell (square F) i j = cell [[0; 0; 0]; [0; 0; -1]; [0; -1; 0]] i j
              /\ Z.abs (cell (square F) i j)
                 = Z.abs (cell [[0; 0; 0]; [0; 0; -1]; [0; -1; 0]] i j).
Proof.
  eexists. split; [vm_compute; reflexivity|].
  match goal with
  | |- writesEmpty (l_trace ?s) /\ _ =>
      apply (clues_kept 3 [[0; 0; 0]; [0; 0; -1]; [0; -1; 0]]
               (inputNode 3 [[0; 0; 0]; [0; 0; -1]; [0; -1; 0]]) 20 (SOLVED s))
  end; vm_compute; reflexivity.
Defined.

(** C4. On a successful solve of an input with k empty cells, the number
    of calls of push minus the number of calls of pop made by the driver
    is k; the driver's own two counters agree with these numbers. *)
Theorem stack_balance N g node fuel s :
  readLatinNode N g = Some node ->
  solveRun fuel node = Done (SOLVED s) ->
  pushCalls (l_trace s) - popCalls (l_trace s) = Z.of_nat (emptyCells g)
  /\ l_pushCounter s = pushCalls (l_trace s)
  /\ l_popCounter s = popCalls (l_trace s)
  /\ Z.of_nat (length (top (l_stack s))) = Z.of_nat (emptyCells g) + 1.
Proof.
  intros Hr Hrun.
  destruct (solveRun_sound _ _ _ _ _ Hr Hrun) as [HI Hgd].
  destruct (readLatinNode_accepts _ _ _ Hr) as [(HN & Hg & _) _].
  destruct (Inv_top _ _ _ HN Hg HI) as (fs & Etop & HF).
  pose proof (guard_false_complete N g s HN Hg HI Hgd) as Hfull.
  pose proof (fo_wf _ _ _ _ HF) as (_ & Hsq & _).
  pose proof (emptyCells_complete N _ Hsq Hfull) as Hzero.
  pose proof (fo_empty _ _ _ _ HF) as Hcnt. rewrite Hzero in Hcnt.
  pose proof (inv_balance _ _ _ HI) as Hbal. rewrite Etop in *.
  cbn [length] in *.
  repeat split; try apply HI; lia.
Qed.

Lemma stack_balance_witness :
  exists s, solveRun 20 (inputNode 3 [[0; 0; 0]; [0; 0; 0]; [0; 0; 0]])
            = Done (SOLVED s)
    /\ pushCalls (l_trace s) - popCalls (l_trace s)
       = Z.of_nat (emptyCells [[0; 0; 0]; [0; 0; 0]; [0; 0; 0]])
    /\ l_pushCounter s = pushCalls (l_trace s)
    /\ l_popCounter s = popCalls (l_trace s)
    /\ Z.of_nat (length (top (l_stack s)))
       = Z.of_nat (emptyCells [[0; 0; 0]; [0; 0; 0]; [0; 0; 0]]) + 1.
Proof.
  eexists. split; [vm_compute; reflexivity|].
  apply (stack_balance 3 [[0; 0; 0]; [0; 0; 0]; [0; 0; 0]]
           (inputNode 3 [[0; 0; 0]; [0; 0; 0]; [0; 0; 0]]) 20);
    vm_compute; reflexivity.
Defined.

(** C5. The solver is deterministic: on every accepted input the run
    ends, with enough rounds allowed, in one exit state (outcome, final
    stack and grids), no number of rounds yields another one, and no
    round faults; the value committed at a cell is the least one that
    passes the two tests of the loop, the values being tried in
    ascending order. *)
Theorem solver_deterministic N g node :
  readLatinNode N g = Some node ->
  (exists e, solveRun (enoughFuel N g) node = Done e
             /\ forall fuel e', solveRun fuel node = Done e' -> e' = e)
  /\ (forall fuel, solveRun fuel node <> Undefined)
  /\ (forall F r c v,
        tryValues F (size F) r c 1 (Z.to_nat (size F)) = Some v ->
        admissible F r c v
        /\ forall u, 1 <= u < v -> ~ admissible F r c u).
Proof.
  intros Hr. split; [|split].
  - destruct (solveRun_terminates _ _ _ Hr) as [e He]. exists e. split; auto.
    intros fuel e' He'. unfold solveRun in *.
    destruct (solveEntry (mainStack node)) as [s0| |]; try discriminate.
    cbn [bind] in *. eapply solveLoop_fuel_independent; eauto.
  - intros fuel. destruct (readLatinNode_accepts _ _ _ Hr) as [Hin ->].
    destruct (solveEntry_Inv _ _ Hin) as (s0 & E & HI & _).
    destruct Hin as (HN & Hg & _). unfold solveRun. rewrite E. cbn [bind].
    pose proof (solveLoop_sound N g HN Hg fuel s0 HI) as H.
    intros Hu. now rewrite Hu in H.
  - intros F r c v Ht.
    pose proof (tryValues_spec F (size F) r c (Z.to_nat (size F)) 1
                  ltac:(lia)) as H.
    rewrite Ht in H. destruct H as (_ & Hm & Hd & Hleast).
    split; [split; auto|]. intros u Hu [Hm' Hd'].
    destruct (Hleast u Hu); congruence.
Qed.

Lemma solver_deterministic_witness :
  (exists e, solveRun (enoughFuel 2 [[1; 0]; [0; 1]])
                      (inputNode 2 [[1; 0]; [0; 1]]) = Done e
             /\ forall fuel e',
                  solveRun fuel (inputNode 2 [[1; 0]; [0; 1]]) = Done e' ->
                  e' = e)
  /\ (forall fuel, solveRun fuel (inputNode 2 [[1; 0]; [0; 1]]) <> Undefined)
  /\ (forall F r c v,
        tryValues F (size F) r c 1 (Z.to_nat (size F)) = Some v ->
        admissible F r c v
        /\ forall u, 1 <= u < v -> ~ admissible F r c u).
Proof.
  apply (solver_deterministic 2 [[1; 0]; [0; 1]]). reflexivity.
Defined.

(** C6. [findNextEmptyCell] visits the cells row by row from the frame's
    (lastRow, lastCol), the column back at 0 on each later row, and
    returns the first visited cell holding 0 with the success code, or
    row = col = -1 with the failure code when no visited cell holds 0. *)
Theorem findNextEmptyCell_first_empty (node : Node) :
  findNextEmptyCell node
  = match firstEmptyFrom node with
    | Some (i, j) => (EXIT_SUCCESS, i, j)
    | None => (EXIT_FAILURE, -1, -1)
    end.
Proof.
  unfold findNextEmptyCell, firstEmptyFrom.
  now rewrite scanRows_find by apply Nat.le_refl.
Qed.

(** On an input without empty cell the guard of the loop fails at once. *)
Lemma complete_input_exit N g node :
  readLatinNode N g = Some node ->
  isComplete N g = true ->
  exists s, solveRun 0 node = Done (SOLVED s)
            /\ l_stack s = mainStack node
            /\ top (l_stack s) = [node]
            /\ l_trace s = []
            /\ l_pushCounter s = 0 /\ l_popCounter s = 0
            /\ l_stepCounter s = 1
            /\ solveLatinSquare 0 (mainStack node) = Done (true, Freed).
Proof.
  intros Hr Hfull. destruct (readLatinNode_accepts _ _ _ Hr) as [Hin ->].
  pose proof (wfNode_inputNode _ _ Hin) as Hwf.
  destruct (solveEntry_Inv _ _ Hin) as (s0 & E & HI & Hst & Htr & Hpu & Hpo & Hsc).
  destruct Hin as (HN & Hg & _).
  assert (Hgd : guard s0 = false).
  { destruct (guard s0) eqn:Hgd; auto. exfalso.
    pose proof (guard_true_found _ _ _ HN Hg HI Hgd) as Hf.
    destruct (Inv_top _ _ _ HN Hg HI) as (fs & Etop & HF).
    rewrite Hst in Etop. injection Etop as En _.
    destruct (found_in_grid _ _ _ _ (fo_wf _ _ _ _ HF) Hf) as (Hr' & Hc' & Hz & _).
    rewrite <- En in Hz. simpl in Hz.
    exact (proj1 (isComplete_spec N g) Hfull _ _ Hr' Hc' Hz). }
  assert (Hms : mainStack (inputNode N g) = mkStack [inputNode N g] 1).
  { unfold mainStack, initStack, push. cbn [top depth].
    now rewrite (cloneNode_id N) by assumption. }
  exists s0. unfold solveLatinSquare, solveRun. rewrite E. cbn [bind solveLoop].
  rewrite Hgd, Hst, Hms. cbn [bind]. repeat split; auto.
Qed.

(** C7. A fully pre-filled input is reported SOLVED before the first
    round of the loop: no value is placed, the stack still holds the
    single frame pushed by main, no push and no pop is made. *)
Theorem prefilled_solved_at_once N g node :
  readLatinNode N g = Some node ->
  isComplete N g = true ->
  exists s, solveRun 0 node = Done (SOLVED s)
            /\ l_stack s = mainStack node
            /\ top (l_stack s) = [node]
            /\ l_trace s = []
            /\ l_pushCounter s = 0 /\ l_popCounter s = 0
            /\ l_stepCounter s = 1
            /\ solveLatinSquare 0 (mainStack node) = Done (true, Freed).
Proof. exact (complete_input_exit N g node). Qed.

Lemma prefilled_solved_at_once_witness :
  exists s, solveRun 0 (inputNode 2 [[1; -2]; [-2; 1]]) = Done (SOLVED s)
            /\ l_stack s = mainStack (inputNode 2 [[1; -2]; [-2; 1]])
            /\ top (l_stack s) = [inputNode 2 [[1; -2]; [-2; 1]]]
            /\ l_trace s = []
            /\ l_pushCounter s = 0 /\ l_popCounter s = 0
            /\ l_stepCounter s = 1
            /\ solveLatinSquare 0 (mainStack (inputNode 2 [[1; -2]; [-2; 1]]))
               = Done (true, Freed).
Proof.
  apply (prefilled_solved_at_once 2 [[1; -2]; [-2; 1]]); reflexivity.
Defined.

(** C8. [pop] on a stack without frames returns the failure code and
    leaves the heap, the stack and the caller's node as they were.  On
    a stack with frames it returns the success code, removes the top
    frame and lowers the depth by one; the caller's node then designates
    a copy of the removed frame (grid, candidate flags, cursor, size)
    held in blocks allocated by this call, still allocated on return
    and shared with no frame left on the stack; the frames left on the
    stack read as before.  Frames taken as values, this is [pop]. *)
Theorem pop_contract (h : Heap) (s : StackPtr) (retNode : option NodePtr) :
  wfStackPtr h s ->
  match p_top s with
  | [] =>
      popP h s retNode = Done (EXIT_FAILURE, h, s, retNode)
      /\ pop (stackAt h s) (option_map (nodeAt h) retNode)
         = Done (EXIT_FAILURE, stackAt h s, option_map (nodeAt h) retNode)
  | temp :: rest =>
      exists h' ret,
        popP h s retNode
        = Done (EXIT_SUCCESS, h', mkStackPtr rest (p_depth s - 1), Some ret)
        /\ pop (stackAt h s) (option_map (nodeAt h) retNode)
           = Done (EXIT_SUCCESS, stackAt h' (mkStackPtr rest (p_depth s - 1)),
                   Some (nodeAt h' ret))
        /\ p_depth s - 1 = Z.of_nat (length rest)
        /\ nodeAt h' ret = nodeAt h temp
        /\ map (nodeAt h') rest = map (nodeAt h) rest
        /\ (forall a, In a (footprint h' ret) ->
              (length h <= a)%nat /\ nth a h' None <> None)
        /\ (forall G a, In G rest -> In a (footprint h' G) ->
              ~ In a (footprint h' ret))
  end.
Proof.
  intros (Hd & Hwf & Hnd). destruct s as [frames d]; cbn [p_top p_depth] in *.
  destruct frames as [|temp rest]; cbn [length] in Hd.
  - subst d. split; reflexivity.
  - assert (Hd0 : d <> 0) by lia.
    pose proof (Forall_inv Hwf) as Htemp.
    pose proof (Forall_inv_tail Hwf) as Hrest. rewrite Forall_forall in Hrest.
    pose proof Htemp as (_ & _ & (rs & Hsq & Hlen & Hrows) & Hmv).
    exists (freeNodeP h temp ++ copiedBlocks h temp).
    exists (mkNodePtr (length h) (p_size temp) (p_row temp) (p_col temp)
                      (S (length h))).
    assert (Hkept : forall G, In G rest ->
              nodeAt (freeNodeP h temp ++ copiedBlocks h temp) G = nodeAt h G
              /\ footprint (freeNodeP h temp ++ copiedBlocks h temp) G
                 = footprint h G).
    { intros G HG. apply popped_frame_kept; auto.
      intros a Ha Ht. cbn [flat_map] in Hnd.
      apply (NoDup_app_apart _ _ a Hnd Ht).
      apply in_flat_map. exists G. auto. }
    assert (Hmap : map (nodeAt (freeNodeP h temp ++ copiedBlocks h temp)) rest
                   = map (nodeAt h) rest).
    { apply map_ext_in. intros G HG. now apply Hkept. }
    pose proof (popped_copy h temp rs Hsq Hlen) as Hcopy.
    split; [now apply (popP_heap h temp rs)|].
    split; [|split; [lia|split; [exact Hcopy|split; [exact Hmap|split]]]].
    + unfold stackAt; cbn [p_top p_depth map]. rewrite Hmap, Hcopy.
      unfold pop, isEmpty; cbn [depth top].
      destruct (Z.eqb_spec d 0) as [|_]; [contradiction|].
      fold (cloneNode (nodeAt h temp)).
      rewrite (cloneNode_id (p_size temp)) by now apply wfNodePtr_wfNode.
      reflexivity.
    + intros a Ha. eapply popped_copy_fresh; eauto.
    + intros G a HG Ha Hret.
      destruct (Hkept G HG) as [_ Efp]. rewrite Efp in Ha.
      pose proof (nth_live_lt _ _ (footprint_live h G a (Hrest G HG) Ha)).
      pose proof (popped_copy_fresh h temp rs Hsq Hlen a Hret). lia.
Qed.

Lemma pop_contract_witness :
  (popP [] (mkStackPtr [] 0) None = Done (EXIT_FAILURE, [], mkStackPtr [] 0, None)
   /\ pop (stackAt [] (mkStackPtr [] 0)) None
      = Done (EXIT_FAILURE, stackAt [] (mkStackPtr [] 0), None))
  /\ exists h' ret,
       popP demoHeap demoStack None
       = Done (EXIT_SUCCESS, h', mkStackPtr [mkNodePtr 2 2 0 0 3] 1, Some ret)
       /\ pop (stackAt demoHeap demoStack) None
          = Done (EXIT_SUCCESS, stackAt h' (mkStackPtr [mkNodePtr 2 2 0 0 3] 1),
                  Some (nodeAt h' ret))
       /\ 2 - 1 = Z.of_nat (length [mkNodePtr 2 2 0 0 3])
       /\ nodeAt h' ret = nodeAt demoHeap (mkNodePtr 6 2 0 1 7)
       /\ map (nodeAt h') [mkNodePtr 2 2 0 0 3]
          = map (nodeAt demoHeap) [mkNodePtr 2 2 0 0 3]
       /\ (forall a, In a (footprint h' ret) ->
             (length demoHeap <= a)%nat /\ nth a h' None <> None)
       /\ (forall G a, In G [mkNodePtr 2 2 0 0 3] -> In a (footprint h' G) ->
             ~ In a (footprint h' ret)).
Proof.
  split.
  - apply (pop_contract [] (mkStackPtr [] 0) None).
    split; [reflexivity|]. split; constructor.
  - apply (pop_contract demoHeap demoStack None).
    split; [reflexivity|]. split.
    + repeat constructor; simpl; try lia;
        repeat first [eexists; split; [reflexivity|]
                     | split; [reflexivity|]
                     | constructor
                     | reflexivity].
    + vm_compute. repeat constructor; simpl; intuition discriminate.
Defined.

(** C9. On an input without a zero cell [solveLatinSquare] returns true
    whatever the cells hold: the pre-filled values are never checked
    against each other, so a filled grid with a repeated value in a row
    or a column is reported solved as well. *)
Theorem filled_grid_never_validated N g node fuel :
  readLatinNode N g = Some node ->
  isComplete N g = true ->
  solveLatinSquare fuel (mainStack node) = Done (true, Freed)
  /\ exists s, solveRun fuel node = Done (SOLVED s)
               /\ top (l_stack s) = [node] /\ l_trace s = [].
Proof.
  intros Hr Hfull.
  destruct (complete_input_exit N g node Hr Hfull)
    as (s & E & _ & Etop & Etr & _ & _ & _ & Es).
  unfold solveRun in *. unfold solveLatinSquare in *.
  destruct (solveEntry (mainStack node)) as [s0| |]; try discriminate.
  cbn [bind] in *.
  apply (solveLoop_more_fuel 0 s0 _ fuel) in E. cbn [Nat.add] in E.
  rewrite E. cbn [bind]. split; [reflexivity|].
  exists s. auto.
Qed.

Lemma filled_grid_never_validated_witness :
  isLatin 2 [[1; 1]; [1; 1]] = false
  /\ noConflictb 2 [[1; 1]; [1; 1]] = false
  /\ solveLatinSquare 3 (mainStack (inputNode 2 [[1; 1]; [1; 1]]))
     = Done (true, Freed)
  /\ exists s, solveRun 3 (inputNode 2 [[1; 1]; [1; 1]]) = Done (SOLVED s)
               /\ top (l_stack s) = [inputNode 2 [[1; 1]; [1; 1]]]
               /\ l_trace s = [].
Proof.
  split; [reflexivity|]. split; [reflexivity|].
  apply (filled_grid_never_validated 2 [[1; 1]; [1; 1]]); reflexivity.
Defined.

(** C10. In every round of the search that backtracks and leaves the
    stack non-empty after the pop, the popped frame holds at its
    (row, col) a value v with 1 <= v <= N, the value [updateNode]
    wrote last at that cell; the index v - 1 lies inside the N
    candidate flags of the new top frame, and the round completes
    within defined behaviour. *)
Theorem backtrack_index_in_bounds N g node s0 s code st ret :
  readLatinNode N g = Some node ->
  solveEntry (mainStack node) = Done s0 ->
  reaches s0 s ->
  guard s = true ->
  tryValues (l_newNode s) (l_size s) (l_row s) (l_col s) 1
            (Z.to_nat (l_size s)) = None ->
  pop (l_stack s) None = Done (code, st, Some ret) ->
  isEmpty st = false ->
  1 <= cell (square ret) (row ret) (col ret) <= N
  /\ lastWrite (l_trace s) (row ret) (col ret)
     = Some (cell (square ret) (row ret) (col ret))
  /\ (exists t rest,
        top st = t :: rest /\ size t = N
        /\ length (moves t) = Z.to_nat N
        /\ 0 <= cell (square ret) (row ret) (col ret) - 1
             < Z.of_nat (length (moves t)))
  /\ exists s', loopBody s = Done (Continue s').
Proof.
  intros Hr He Hreach Hgd Htry Hpop Hne.
  destruct (readLatinNode_accepts _ _ _ Hr) as [Hin ->].
  destruct (solveEntry_Inv _ _ Hin) as (s0' & E & HI0 & _).
  rewrite He in E; injection E as <-.
  destruct Hin as (HN & Hg & _).
  pose proof (reaches_Inv _ _ _ _ HN Hg HI0 Hreach) as HI.
  destruct (Inv_top _ _ _ HN Hg HI) as (fs & Etop & HF).
  pose proof (fo_wf _ _ _ _ HF) as Hwf.
  pose proof (inv_depth _ _ _ HI) as Hdep.
  pose proof (inv_chain _ _ _ HI) as Hch.
  pose proof (inv_placed _ _ _ HI) as Hpl.
  unfold pop, isEmpty in Hpop. rewrite Etop in *. cbn [length] in Hdep.
  destruct (Z.eqb_spec (depth (l_stack s)) 0) as [|_]; [lia|].
  fold (cloneNode (l_newNode s)) in Hpop.
  rewrite (cloneNode_id N) in Hpop by assumption.
  injection Hpop as _ <- <-.
  unfold isEmpty in Hne; cbn [depth] in Hne. apply Z.eqb_neq in Hne.
  destruct fs as [|G rest]; [cbn [length] in Hdep; lia|].
  destruct (chain_pushed _ _ _ _ _ HN Hg Hch) as (Hch' & Hv & _).
  pose proof (chain_head _ _ _ _ HN Hg Hch') as [(HszG & _ & HmvG & _) _ _ _ _ _ _].
  split; [exact Hv|]. split; [|split].
  - change (removelast (l_newNode s :: G :: rest))
      with (l_newNode s :: removelast (G :: rest)) in Hpl.
    exact (Forall_inv Hpl).
  - exists G, rest. cbn [top]. repeat split; auto; lia.
  - destruct (loopBody_step _ _ _ HN Hg HI Hgd)
      as [(s' & E' & _)|(s' & _ & _ & _ & Hlen & _)]; [eauto|].
    rewrite Etop in Hlen. discriminate.
Qed.

Lemma backtrack_index_in_bounds_witness :
  exists s0 s st ret,
    solveEntry (mainStack (inputNode 2 [[1; 1]; [0; 0]])) = Done s0
    /\ reaches s0 s
    /\ pop (l_stack s) None = Done (EXIT_SUCCESS, st, Some ret)
    /\ 1 <= cell (square ret) (row ret) (col ret) <= 2
    /\ lastWrite (l_trace s) (row ret) (col ret)
       = Some (cell (square ret) (row ret) (col ret))
    /\ (exists t rest,
          top st = t :: rest /\ size t = 2
          /\ length (moves t) = Z.to_nat 2
          /\ 0 <= cell (square ret) (row ret) (col ret) - 1
               < Z.of_nat (length (moves t)))
    /\ exists s', loopBody s = Done (Continue s').
Proof.
  do 4 eexists.
  split; [vm_compute; reflexivity|].
  assert (Hreach : reaches
            (mkLocals (mkStack [inputNode 2 [[1; 1]; [0; 0]]] 1) 2 0 0 1
                      (inputNode 2 [[1; 1]; [0; 0]]) 1 0 [])
            (mkLocals
               (mkStack [mkNode [[1; 1]; [2; 0]] 2 1 0 [1; 1];
                         inputNode 2 [[1; 1]; [0; 0]]] 2)
               2 1 0 2 (mkNode [[1; 1]; [2; 0]] 2 1 0 [1; 1]) 1 1
               [EvPush; EvUpdate 1 0 0 2])).
  { eapply reaches_round; [reflexivity | reflexivity | apply reaches_here]. }
  split; [exact Hreach|].
  split; [reflexivity|].
  apply (backtrack_index_in_bounds 2 [[1; 1]; [0; 0]]
           (inputNode 2 [[1; 1]; [0; 0]]) _ _ EXIT_SUCCESS _ _
           eq_refl eq_refl Hreach); reflexivity.
Defined.

(** * Completions of the input: what the search finds *)

Lemma checkDuplicates_true node v r c :
  checkDuplicates node v r c = true ->
  exists k, 0 <= k < size node
    /\ ((k <> c /\ Z.abs (cell (square node) r k) = v)
        \/ (k <> r /\ Z.abs (cell (square node) k c) = v)).
Proof.
  unfold checkDuplicates. intros H. apply orb_true_iff in H.
  destruct H as [H|H]; apply existsb_exists in H;
    destruct H as (k & Hk & Hb); apply in_zrange in Hk;
    apply andb_true_iff in Hb; destruct Hb as [Hne Heq];
    apply negb_true_iff, Z.eqb_neq in Hne; apply Z.eqb_eq in Heq;
    exists k; split; auto.
Qed.

Lemma completes_fill N sq sq' r c :
  wfSquare N sq -> 0 <= r < N -> 0 <= c < N -> cell sq r c = 0 ->
  completes N sq sq' ->
  completes N (setCell sq r c (cell sq' r c)) sq'.
Proof.
  intros Hwf Hr Hc Hz Hcomp i j Hi Hj.
  destruct (Z.eq_dec i r) as [->|Hir]; [destruct (Z.eq_dec j c) as [->|Hjc]|].
  - rewrite (cell_setCell_same N) by assumption. split; auto.
    intros E. destruct (Hcomp r c Hr Hc) as [_ H]. specialize (H Hz). lia.
  - rewrite (cell_setCell_other N) by (auto; try lia; congruence).
    now apply Hcomp.
  - rewrite (cell_setCell_other N) by (auto; try lia; congruence).
    now apply Hcomp.
Qed.

Lemma dup_hopeless N F r c u :
  size F = N -> 0 <= r < N -> 0 <= c < N -> cell (square F) r c = 0 ->
  1 <= u -> checkDuplicates F u r c = true ->
  hopeless N (square F) r c u.
Proof.
  intros Hsz Hr Hc Hz Hu Hdup sq' Hcomp E.
  destruct (Hcomp r c Hr Hc) as [_ H]. destruct (H Hz) as [_ Hclash].
  destruct (checkDuplicates_true _ _ _ _ Hdup) as (k & Hk & Hcase).
  rewrite Hsz in Hk. destruct (Hclash k Hk) as [Hrow Hcol].
  destruct Hcase as [[Hne Habs]|[Hne Habs]].
  - apply (Hrow Hne). destruct (Hcomp r k Hr Hk) as [Hkeep _].
    rewrite Hkeep by lia. congruence.
  - apply (Hcol Hne). destruct (Hcomp k c Hk Hc) as [Hkeep _].
    rewrite Hkeep by lia. congruence.
Qed.

(** A frame whose next empty cell takes no value has no completion. *)
Lemma no_candidate_no_completion N G r c :
  wfNode N G -> flagsSound N G ->
  findNextEmptyCell G = (EXIT_SUCCESS, r, c) ->
  tryValues G N r c 1 (Z.to_nat N) = None ->
  forall sq', ~ completes N (square G) sq'.
Proof.
  intros Hwf Hfl Hf Htry sq' Hcomp.
  destruct (found_in_grid _ _ _ _ Hwf Hf) as (Hr & Hc & Hz & _).
  destruct (Hcomp r c Hr Hc) as [_ H]. destruct (H Hz) as [Hw _].
  pose proof (tryValues_spec G N r c (Z.to_nat N) 1 ltac:(lia)) as Hno.
  rewrite Htry in Hno. destruct (Hno _ Hw) as [Hflag|Hdup].
  - exact (Hfl r c _ Hf Hw Hflag sq' Hcomp eq_refl).
  - refine (dup_hopeless N G r c _ _ Hr Hc Hz _ Hdup sq' Hcomp eq_refl);
      [apply Hwf | lia].
Qed.

(** The frames of a chain, two by two. *)
Lemma chain_pair N g G F fs :
  0 <= N -> wfSquare N g ->
  chain N g (G :: F :: fs) ->
  chain N g (F :: fs)
  /\ findNextEmptyCell F = (EXIT_SUCCESS, row G, col G)
  /\ square G = setCell (square F) (row G) (col G)
                        (cell (square G) (row G) (col G))
  /\ checkDuplicates F (cell (square G) (row G) (col G)) (row G) (col G)
     = false
  /\ 1 <= cell (square G) (row G) (col G) <= N.
Proof.
  intros HN Hg H.
  inversion H as [|F' fs' r c v mv Hch Hf Hv Hm Hd Hmv]; subst.
  cbn [row col square].
  pose proof (chain_head _ _ _ _ HN Hg Hch) as [Hwf _ _ _ _ _ _].
  destruct (found_in_grid _ _ _ _ Hwf Hf) as (Hr & Hc & _).
  rewrite (cell_setCell_same N) by (auto; apply Hwf). auto.
Qed.

Lemma idx_fresh N i :
  0 <= i < N -> idx (map (fun _ : Z => 1) (zrange N)) i 0 = 1.
Proof.
  intros Hi. unfold idx.
  assert (Hin : In (nth (Z.to_nat i) (map (fun _ : Z => 1) (zrange N)) 0)
                   (map (fun _ : Z => 1) (zrange N))).
  { apply nth_In. rewrite length_map, length_zrange. lia. }
  apply in_map_iff in Hin. now destruct Hin as (k & <- & _).
Qed.

(** The three ways a round of the loop goes, frame by frame. *)
Lemma loopBody_push N g s v :
  0 <= N -> wfSquare N g -> Inv N g s -> guard s = true ->
  tryValues (l_newNode s) (l_size s) (l_row s) (l_col s) 1
            (Z.to_nat (l_size s)) = Some v ->
  exists s', loopBody s = Done (Continue s')
    /\ top (l_stack s')
       = mkNode (setCell (square (l_newNode s)) (l_row s) (l_col s) v) N
                (l_row s) (l_col s) (map (fun _ => 1) (zrange N))
         :: top (l_stack s).
Proof.
  intros HN Hg HI Hgd Htry.
  pose proof (guard_true_found _ _ _ HN Hg HI Hgd) as Hf.
  destruct (Inv_top _ _ _ HN Hg HI) as (fs & Etop & HF).
  pose proof (fo_wf _ _ _ _ HF) as Hwf. pose proof Hwf as (HszF & _).
  pose proof (tryValues_spec (l_newNode s) (l_size s) (l_row s) (l_col s)
                (Z.to_nat (l_size s)) 1 ltac:(lia)) as Ht.
  rewrite Htry in Ht. destruct Ht as (Hv & _ & Hd & _).
  rewrite (inv_size _ _ _ HI) in Hv.
  unfold loopBody. rewrite Htry. unfold updateNode, push. rewrite HszF.
  set (G := mkNode (setCell (square (l_newNode s)) (l_row s) (l_col s) v) N
                   (l_row s) (l_col s) (map (fun _ => 1) (zrange N))).
  pose proof (frameOk_push _ _ _ _ _ _ v (map (fun _ => 1) (zrange N))
                HF Hf Hv Hd (length_fresh N)) as HG. fold G in HG.
  rewrite (cloneNode_id N G) by apply HG.
  unfold nextRound. cbn [top].
  rewrite (cloneNode_id N G) by apply HG.
  destruct (findNextEmptyCell G) as [[code r] c].
  eexists. split; [reflexivity|]. reflexivity.
Qed.

Lemma loopBody_pop N g s G F rest :
  0 <= N -> wfSquare N g -> Inv N g s ->
  tryValues (l_newNode s) (l_size s) (l_row s) (l_col s) 1
            (Z.to_nat (l_size s)) = None ->
  top (l_stack s) = G :: F :: rest ->
  exists s', loopBody s = Done (Continue s')
    /\ top (l_stack s')
       = mkNode (square F) (size F) (row F) (col F)
                (store (moves F) (cell (square G) (row G) (col G) - 1) 0)
         :: rest.
Proof.
  intros HN Hg HI Htry Etop.
  pose proof (inv_chain _ _ _ HI) as Hch. rewrite Etop in Hch.
  pose proof (inv_depth _ _ _ HI) as Hdep. rewrite Etop in Hdep.
  cbn [length] in Hdep.
  pose proof (chain_head _ _ _ _ HN Hg Hch) as [HwfG _ _ _ _ _ _].
  destruct (chain_pushed _ _ _ _ _ HN Hg Hch) as (Hch' & Hv & _).
  pose proof (chain_head _ _ _ _ HN Hg Hch') as [(HszF & _) _ _ _ _ _ _].
  unfold loopBody. rewrite Htry. unfold pop, isEmpty. rewrite Etop.
  destruct (Z.eqb_spec (depth (l_stack s)) 0) as [|_]; [lia|].
  cbn [bind]. fold (cloneNode G). rewrite (cloneNode_id N) by assumption.
  cbn [depth top].
  destruct (Z.eqb_spec (depth (l_stack s) - 1) 0) as [|_]; [lia|].
  cbn [negb].
  destruct (Z.leb_spec 0 (cell (square G) (row G) (col G) - 1)); [|lia].
  destruct (Z.ltb_spec (cell (square G) (row G) (col G) - 1) (size F));
    [|lia].
  cbn [andb]. unfold nextRound. cbn [top].
  destruct (findNextEmptyCell _) as [[code r] c].
  eexists. split; [reflexivity|]. reflexivity.
Qed.

Lemma loopBody_return N g s F :
  0 <= N -> wfSquare N g -> Inv N g s ->
  tryValues (l_newNode s) (l_size s) (l_row s) (l_col s) 1
            (Z.to_nat (l_size s)) = None ->
  top (l_stack s) = [F] ->
  exists s', loopBody s = Done (ReturnFalse s').
Proof.
  intros HN Hg HI Htry Etop.
  pose proof (inv_chain _ _ _ HI) as Hch. rewrite Etop in Hch.
  pose proof (inv_depth _ _ _ HI) as Hdep. rewrite Etop in Hdep.
  cbn [length] in Hdep.
  unfold loopBody. rewrite Htry. unfold pop, isEmpty. rewrite Etop.
  destruct (Z.eqb_spec (depth (l_stack s)) 0) as [|_]; [lia|].
  cbn [bind depth top].
  destruct (Z.eqb_spec (depth (l_stack s) - 1) 0) as [_|]; [|lia].
  cbn [negb]. eexists. reflexivity.
Qed.

Lemma hopeless_after_dead_end N F G r c :
  wfNode N F -> wfNode N G -> flagsSound N G ->
  findNextEmptyCell F = (EXIT_SUCCESS, r, c) ->
  square G = setCell (square F) r c (cell (square G) r c) ->
  forall r' c',
    findNextEmptyCell G = (EXIT_SUCCESS, r', c') ->
    tryValues G N r' c' 1 (Z.to_nat N) = None ->
    hopeless N (square F) r c (cell (square G) r c).
Proof.
  intros HwfF HwfG Hfl Hf Esq r' c' Hf' Htry sq' Hcomp E.
  destruct (found_in_grid _ _ _ _ HwfF Hf) as (Hr & Hc & Hz & _).
  apply (no_candidate_no_completion N G r' c' HwfG Hfl Hf' Htry sq').
  rewrite Esq, <- E. apply completes_fill; auto. apply HwfF.
Qed.

Lemma loopBody_search N g s :
  0 <= N -> wfSquare N g -> Inv N g s -> Search N s -> guard s = true ->
  match loopBody s with
  | Done (Continue s') => Search N s'
  | Done (ReturnFalse _) => forall sq', ~ completes N g sq'
  | _ => True
  end.
Proof.
  intros HN Hg HI [Hfl Hle] Hgd.
  pose proof (guard_true_found _ _ _ HN Hg HI Hgd) as Hf.
  destruct (Inv_top _ _ _ HN Hg HI) as (fs & Etop & HF).
  pose proof (fo_wf _ _ _ _ HF) as Hwf. pose proof Hwf as (HszF & _).
  pose proof (inv_size _ _ _ HI) as Hsz.
  pose proof (inv_chain _ _ _ HI) as Hch.
  destruct (found_in_grid _ _ _ _ Hwf Hf) as (Hr & Hc & Hz & _).
  rewrite Etop in Hfl, Hle, Hch.
  pose proof (Forall_inv Hfl) as HflF.
  destruct (tryValues (l_newNode s) (l_size s) (l_row s) (l_col s) 1
                      (Z.to_nat (l_size s))) as [v|] eqn:Htry.
  - destruct (loopBody_push _ _ _ _ HN Hg HI Hgd Htry) as (s' & E & Etop').
    rewrite E. pose proof (tryValues_spec (l_newNode s) (l_size s) (l_row s)
                             (l_col s) (Z.to_nat (l_size s)) 1 ltac:(lia)) as Ht.
    rewrite Htry, Hsz in Ht. destruct Ht as (Hv & _ & _ & Hleast).
    constructor; rewrite Etop', Etop.
    + constructor; [|exact Hfl].
      intros r c v' _ Hv' Hflag. exfalso; apply Hflag. cbn [moves].
      apply idx_fresh. lia.
    + cbn [choicesLeast square row col]. split; [|exact Hle].
      rewrite (cell_setCell_same N) by (auto; apply Hwf).
      intros u Hu. destruct (Hleast u Hu) as [Hflag|Hdup].
      * apply (HflF _ _ _ Hf); auto. lia.
      * apply dup_hopeless; auto. lia.
  - rewrite Hsz in Htry.
    destruct fs as [|F rest].
    + rewrite <- Hsz in Htry.
      destruct (loopBody_return _ _ _ _ HN Hg HI Htry Etop) as (s' & E).
      rewrite E. rewrite Hsz in Htry.
      inversion Hch as [mv Hmv Eg|].
      assert (Esq : square (l_newNode s) = g) by (rewrite <- Eg; reflexivity).
      pose proof (no_candidate_no_completion N _ _ _ Hwf HflF Hf Htry) as H.
      rewrite Esq in H. exact H.
    + rewrite <- Hsz in Htry.
      destruct (loopBody_pop _ _ _ _ _ _ HN Hg HI Htry Etop)
        as (s' & E & Etop').
      rewrite E. rewrite Hsz in Htry.
      destruct (chain_pair _ _ _ _ _ HN Hg Hch)
        as (Hch' & HfF & Esq & _ & Hv).
      pose proof (chain_head _ _ _ _ HN Hg Hch') as [HwfF _ _ _ _ _ _].
      pose proof (Forall_inv (Forall_inv_tail Hfl)) as HflF0.
      constructor; rewrite Etop'.
      * constructor; [|exact (Forall_inv_tail (Forall_inv_tail Hfl))].
        intros r c v' Hf' Hv' Hflag. cbn [square moves] in *.
        assert (Ef : findNextEmptyCell F = (EXIT_SUCCESS, r, c)) by exact Hf'.
        rewrite HfF in Ef. injection Ef as <- <-.
        destruct (Z.eq_dec v' (cell (square (l_newNode s))
                                    (row (l_newNode s)) (col (l_newNode s))))
          as [->|Hne].
        -- eapply hopeless_after_dead_end; eauto.
        -- rewrite idx_store_other in Hflag by lia.
           apply (HflF0 _ _ _ HfF); auto.
      * destruct Hle as [_ Hle]. destruct rest; exact Hle.
Qed.

Lemma solveLoop_search N g :
  0 <= N -> wfSquare N g ->
  forall fuel s, Inv N g s -> Search N s ->
    match solveLoop fuel s with
    | Done (SOLVED s') => Inv N g s' /\ Search N s' /\ guard s' = false
    | Done (UNSOLVABLE _) => forall sq', ~ completes N g sq'
    | _ => True
    end.
Proof.
  intros HN Hg. induction fuel as [|fuel IH]; intros s HI HS; simpl.
  - destruct (guard s) eqn:Hgd; auto.
  - destruct (guard s) eqn:Hgd; auto.
    pose proof (loopBody_search _ _ _ HN Hg HI HS Hgd) as Hstep.
    destruct (loopBody_step _ _ _ HN Hg HI Hgd)
      as [(s' & E & HI' & _)|(s' & E & _)]; rewrite E in *; simpl.
    + apply IH; auto.
    + exact Hstep.
Qed.

Lemma solveEntry_Search N g s0 :
  wfInput N g ->
  solveEntry (mainStack (inputNode N g)) = Done s0 ->
  Inv N g s0 /\ Search N s0.
Proof.
  intros Hin E. destruct (solveEntry_Inv _ _ Hin) as (s & E' & HI & Hst & _).
  rewrite E in E'. injection E' as <-. split; auto.
  constructor; rewrite Hst; cbn [top choicesLeast]; auto.
  constructor; [|constructor].
  intros r c v _ Hv Hflag. exfalso; apply Hflag. cbn [moves inputNode].
  apply idx_fresh. lia.
Qed.

Lemma solveRun_search N g node fuel e :
  readLatinNode N g = Some node ->
  solveRun fuel node = Done e ->
  match e with
  | SOLVED s => Inv N g s /\ Search N s /\ guard s = false
  | UNSOLVABLE _ => forall sq', ~ completes N g sq'
  end.
Proof.
  intros Hr. destruct (readLatinNode_accepts _ _ _ Hr) as [Hin ->].
  unfold solveRun.
  destruct (solveEntry (mainStack (inputNode N g))) as [s0| |] eqn:E;
    try discriminate.
  destruct (solveEntry_Search _ _ _ Hin E) as [HI HS].
  destruct Hin as (HN & Hg & _). cbn [bind]. intros Hl.
  pose proof (solveLoop_search N g HN Hg fuel s0 HI HS) as H.
  rewrite Hl in H. exact H.
Qed.

(** The cells a chain has filled hold values of 1..N that clash with
    nothing in the top frame. *)
Lemma chain_placed N g F fs :
  0 <= N -> wfSquare N g ->
  chain N g (F :: fs) ->
  forall i j, 0 <= i < N -> 0 <= j < N ->
    cell g i j = 0 -> cell (square F) i j <> 0 ->
    1 <= cell (square F) i j <= N /\ noClash N (square F) i j.
Proof.
  intros HN Hg H. remember (F :: fs) as l eqn:E. revert F fs E.
  induction H as [mv Hmv | F' fs' r c v mv Hch IH Hf Hv Hm Hd Hmv];
    intros F fs E i j Hi Hj Hgz Hnz; injection E as <- <-.
  - cbn [square] in Hnz. contradiction.
  - cbn [square] in *.
    pose proof (chain_head _ _ _ _ HN Hg Hch) as [Hwf _ _ _ _ _ _].
    destruct (found_in_grid _ _ _ _ Hwf Hf) as (Hr & Hc & Hz & _).
    pose proof Hwf as (Hsz & Hsq & _).
    pose proof (checkDuplicates_false _ _ _ _ Hd) as Hdup.
    rewrite Hsz in Hdup.
    assert (Hother : forall i j, 0 <= i < N -> 0 <= j < N -> (i, j) <> (r, c) ->
              cell (setCell (square F') r c v) i j = cell (square F') i j).
    { intros; apply cell_setCell_other with N; auto; lia. }
    assert (Hsame : cell (setCell (square F') r c v) r c = v).
    { apply cell_setCell_same with N; auto. }
    assert (Hcase : (i, j) = (r, c) \/ (i, j) <> (r, c)).
    { destruct (Z.eq_dec i r), (Z.eq_dec j c); subst; auto;
        right; congruence. }
    destruct Hcase as [Ep|Hne].
    + injection Ep as -> ->. rewrite Hsame. split; [exact Hv|].
      intros k Hk. rewrite Hsame. destruct (Hdup k Hk) as [Hrow Hcol].
      split; intros Hkn.
      * rewrite Hother by (auto; congruence). auto.
      * rewrite Hother by (auto; congruence). auto.
    + rewrite Hother in * by auto.
      destruct (IH F' fs' eq_refl i j Hi Hj Hgz Hnz) as [Hval Hclash].
      split; [exact Hval|]. intros k Hk. rewrite (Hother i j) by auto.
      destruct (Hclash k Hk) as [Hrow Hcol]. split; intros Hkn.
      * destruct (Z.eq_dec i r) as [->|Hir];
          [destruct (Z.eq_dec k c) as [->|Hkc]|].
        -- rewrite Hsame. destruct (Hdup j Hj) as [Hd1 _].
           assert (j <> c) by congruence. specialize (Hd1 H). lia.
        -- rewrite Hother by (auto; congruence). auto.
        -- rewrite Hother by (auto; congruence). auto.
      * destruct (Z.eq_dec j c) as [->|Hjc];
          [destruct (Z.eq_dec k r) as [->|Hkr]|].
        -- rewrite Hsame. destruct (Hdup i Hi) as [_ Hd2].
           assert (i <> r) by congruence. specialize (Hd2 H). lia.
        -- rewrite Hother by (auto; congruence). auto.
        -- rewrite Hother by (auto; congruence). auto.
Qed.

Lemma solved_top_completes N g s :
  0 <= N -> wfSquare N g -> Inv N g s -> guard s = false ->
  completes N g (square (l_newNode s)).
Proof.
  intros HN Hg HI Hgd i j Hi Hj.
  destruct (Inv_top _ _ _ HN Hg HI) as (fs & Etop & HF).
  pose proof (inv_chain _ _ _ HI) as Hch. rewrite Etop in Hch.
  split.
  - now apply (fo_extends _ _ _ _ HF).
  - intros Hz. apply (chain_placed N g _ fs); auto.
    now apply (guard_false_complete N g).
Qed.

(** A completion of the input completes the top frame, or exceeds it at
    the first cell where the two differ, a cell the chain has filled. *)
Lemma chain_least N g F fs :
  0 <= N -> wfSquare N g ->
  chain N g (F :: fs) -> choicesLeast N (F :: fs) ->
  forall sq', completes N g sq' ->
    completes N (square F) sq'
    \/ exists i j, 0 <= i < N /\ 0 <= j < N
         /\ (before i j (row F) (col F) \/ (i = row F /\ j = col F))
         /\ cell (square F) i j <> 0
         /\ cell (square F) i j < cell sq' i j
         /\ forall i' j', 0 <= i' < N -> 0 <= j' < N -> before i' j' i j ->
              cell (square F) i' j' = cell sq' i' j'.
Proof.
  intros HN Hg H. remember (F :: fs) as l eqn:E. revert F fs E.
  induction H as [mv Hmv | F' fs' r c v mv Hch IH Hf Hv Hm Hd Hmv];
    intros F fs E Hle sq' Hcomp; injection E as <- <-.
  - left. exact Hcomp.
  - cbn [choicesLeast square row col] in *. destruct Hle as [Hlow Hle].
    pose proof (chain_head _ _ _ _ HN Hg Hch) as HF'.
    pose proof (fo_wf _ _ _ _ HF') as Hwf.
    destruct (found_in_grid _ _ _ _ Hwf Hf) as (Hr & Hc & Hz & Hsc & _).
    pose proof Hwf as (Hsz & Hsq & _ & Hrow0 & Hcol0).
    pose proof (frameOk_push _ _ _ _ _ _ v mv HF' Hf Hv Hd Hmv) as HG.
    pose proof (fo_prefix _ _ _ _ HG) as Hpre.
    unfold prefixFull in Hpre. cbn [square row col] in Hpre.
    assert (Hother : forall i j, 0 <= i < N -> 0 <= j < N -> (i, j) <> (r, c) ->
              cell (setCell (square F') r c v) i j = cell (square F') i j).
    { intros; apply cell_setCell_other with N; auto; lia. }
    assert (Hsame : cell (setCell (square F') r c v) r c = v).
    { apply cell_setCell_same with N; auto. }
    rewrite Hsame in Hlow.
    assert (Hbefore_ne : forall i j, before i j r c -> (i, j) <> (r, c)).
    { unfold before. intros i j Hb Ep. injection Ep as -> ->. lia. }
    destruct (IH F' fs' eq_refl Hle sq' Hcomp)
      as [Hc'|(i & j & Hi & Hj & Hpos & Hnz & Hlt & Hagree)].
    + destruct (Hc' r c Hr Hc) as [_ Hw]. destruct (Hw Hz) as [Hw1 _].
      destruct (Z.lt_trichotomy (cell sq' r c) v) as [Hlt|[Heq|Hgt]].
      * exfalso. apply (Hlow (cell sq' r c) ltac:(lia) sq' Hc' eq_refl).
      * left. rewrite <- Heq. now apply completes_fill.
      * right. exists r, c.
        split; [exact Hr|]. split; [exact Hc|]. split; [right; auto|].
        rewrite Hsame. split; [lia|]. split; [lia|].
        intros i' j' Hi' Hj' Hb.
        pose proof (Hpre i' j' Hi' Hj' Hb) as Hnz'.
        rewrite Hother in * by auto.
        symmetry. now apply Hc'.
    + right. exists i, j.
      assert (Hne : (i, j) <> (r, c)).
      { intros Ep. injection Ep as -> ->. contradiction. }
      assert (Hb : before i j r c).
      { assert (Hjc : i = r -> j <> c) by (intros Ei Ej; subst; auto).
        unfold before, scanned in *.
        destruct (Z.eqb_spec r (row F')); lia. }
      split; [exact Hi|]. split; [exact Hj|]. split; [left; exact Hb|].
      rewrite Hother by auto.
      split; [exact Hnz|]. split; [exact Hlt|].
      intros i' j' Hi' Hj' Hb'. rewrite Hother; auto.
      apply Hbefore_ne. unfold before in *. lia.
Qed.

Lemma solved_top_least N g s :
  0 <= N -> wfSquare N g -> Inv N g s -> Search N s -> guard s = false ->
  forall sq', completes N g sq' -> lexLe N (square (l_newNode s)) sq'.
Proof.
  intros HN Hg HI HS Hgd sq' Hcomp.
  destruct (Inv_top _ _ _ HN Hg HI) as (fs & Etop & HF).
  pose proof (inv_chain _ _ _ HI) as Hch. rewrite Etop in Hch.
  pose proof (se_least _ _ HS) as Hle. rewrite Etop in Hle.
  pose proof (guard_false_complete N g s HN Hg HI Hgd) as Hfull.
  destruct (chain_least _ _ _ _ HN Hg Hch Hle sq' Hcomp)
    as [Hc|(i & j & Hi & Hj & _ & _ & Hlt & Hagree)].
  - left. intros i j Hi Hj. symmetry. apply Hc; auto.
  - right. exists i, j. auto.
Qed.

Lemma readLatinNode_complete N g :
  1 <= N -> wfSquare N g -> cellsInRange N g ->
  readLatinNode N g = Some (inputNode N g).
Proof.
  intros HN [Hl Hr] Hran. unfold readLatinNode.
  replace (1 <=? N) with true by (symmetry; now apply Z.leb_le).
  replace (length g =? Z.to_nat N)%nat with true
    by (symmetry; now apply Nat.eqb_eq).
  replace (forallb (fun r => (length r =? Z.to_nat N)%nat) g) with true.
  2:{ symmetry. apply forallb_forall. intros r Hin.
      rewrite Forall_forall in Hr. now apply Nat.eqb_eq, Hr. }
  replace (forallb (forallb (inRange N)) g) with true; [reflexivity|].
  symmetry. apply forallb_forall. intros r Hin. apply forallb_forall.
  intros v Hv.
  destruct (In_nth _ _ [] Hin) as (i & Hi & Ei).
  destruct (In_nth _ _ 0 Hv) as (j & Hj & Ej).
  rewrite Forall_forall in Hr. pose proof (Hr r Hin) as Hlr.
  specialize (Hran (Z.of_nat i) (Z.of_nat j) ltac:(lia) ltac:(lia)).
  unfold cell, idx in Hran. rewrite !Nat2Z.id, Ei, Ej in Hran.
  unfold inRange. apply andb_true_intro. split; apply Z.leb_le; lia.
Qed.

Lemma nth_map_in {A B} (f : A -> B) l n d d' :
  (n < length l)%nat -> nth n (map f l) d' = f (nth n l d).
Proof.
  revert n; induction l as [|x l IH]; intros [|n] H; simpl in *; try lia; auto.
  apply IH. lia.
Qed.

Lemma nth_zrange N k : 0 <= k < N -> nth (Z.to_nat k) (zrange N) 0 = k.
Proof.
  intros Hk. unfold zrange.
  rewrite (nth_map_in Z.of_nat _ _ 0%nat) by (rewrite length_seq; lia).
  rewrite seq_nth by lia. lia.
Qed.

Lemma cell_tabulate N (f : Z -> Z -> Z) i j :
  0 <= i < N -> 0 <= j < N ->
  cell (map (fun i => map (fun j => f i j) (zrange N)) (zrange N)) i j = f i j.
Proof.
  intros Hi Hj. unfold cell, idx.
  rewrite (nth_map_in _ _ _ 0) by (rewrite length_zrange; lia).
  rewrite (nth_map_in _ _ _ 0) by (rewrite length_zrange; lia).
  now rewrite !nth_zrange.
Qed.

Lemma wfSquare_tabulate N (f : Z -> Z -> Z) :
  wfSquare N (map (fun i => map (fun j => f i j) (zrange N)) (zrange N)).
Proof.
  split.
  - now rewrite length_map, length_zrange.
  - apply Forall_forall. intros r Hin. apply in_map_iff in Hin.
    destruct Hin as (i & <- & _). now rewrite length_map, length_zrange.
Qed.

Lemma cyclic_apart N i j k :
  1 <= N -> 0 <= j < N -> 0 <= k < N -> j <> k ->
  (i + j) mod N <> (i + k) mod N.
Proof.
  intros HN Hj Hk Hjk E.
  pose proof (Z.div_mod (i + j) N ltac:(lia)) as D1.
  pose proof (Z.div_mod (i + k) N ltac:(lia)) as D2.
  rewrite E in D1.
  assert (Hd : j - k = N * ((i + j) / N - (i + k) / N)) by lia.
  assert (Hq : (i + j) / N - (i + k) / N = 0) by nia.
  rewrite Hq in Hd. lia.
Qed.

Lemma cyclic_completes_empty N :
  1 <= N ->
  completes N (square (snd (initNode None N))) (cyclic N).
Proof.
  intros HN i j Hi Hj. cbn [initNode snd square].
  rewrite (cell_tabulate N (fun _ _ => 0)) by assumption.
  split; [intros H; contradiction|]. intros _.
  unfold cyclic.
  assert (Hc : forall a b, 0 <= a < N -> 0 <= b < N ->
            cell (map (fun i => map (fun j => (i + j) mod N + 1) (zrange N))
                      (zrange N)) a b = (a + b) mod N + 1).
  { intros a b Ha Hb. now apply (cell_tabulate N (fun i j => (i + j) mod N + 1)). }
  rewrite Hc by assumption.
  pose proof (Z.mod_pos_bound (i + j) N ltac:(lia)) as Hb.
  split; [lia|]. intros k Hk. rewrite !Hc by assumption.
  pose proof (Z.mod_pos_bound (i + k) N ltac:(lia)) as Hb1.
  pose proof (Z.mod_pos_bound (k + j) N ltac:(lia)) as Hb2.
  split; intros Hne.
  - pose proof (cyclic_apart N i j k HN Hj Hk ltac:(auto)). lia.
  - pose proof (cyclic_apart N j i k HN Hi Hk ltac:(auto)) as H.
    rewrite (Z.add_comm j i), (Z.add_comm j k) in H. lia.
Qed.

Lemma solve_decides N g node :
  readLatinNode N g = Some node ->
  exists e, solveRun (enoughFuel N g) node = Done e
    /\ solveLatinSquare (enoughFuel N g) (mainStack node)
       = Done (match e with
               | SOLVED _ => (true, Freed)
               | UNSOLVABLE s => (false, Live (l_stack s))
               end)
    /\ match e with
       | SOLVED _ => exists sq', completes N g sq'
       | UNSOLVABLE _ => forall sq', ~ completes N g sq'
       end.
Proof.
  intros Hr. destruct (solveRun_terminates _ _ _ Hr) as [e He].
  exists e. split; [exact He|].
  pose proof (solveRun_search _ _ _ _ _ Hr He) as Hs.
  destruct (readLatinNode_accepts _ _ _ Hr) as [(HN & Hg & _) _].
  split.
  - unfold solveLatinSquare, solveRun in *.
    destruct (solveEntry (mainStack node)) as [s0| |]; try discriminate.
    cbn [bind] in *. rewrite He. now destruct e.
  - destruct e as [s|s]; [|exact Hs].
    destruct Hs as (HI & _ & Hgd).
    exists (square (l_newNode s)). now apply solved_top_completes.
Qed.

(** * Further properties of the solver *)

(** X1. When the solver reports SOLVED on an accepted input, conflicting
    clues or not, the grid of the top frame is a well-formed N x N grid
    that keeps every non-zero cell of the input and holds, in each cell
    the input left empty, a value of 1..N that is the magnitude of no
    other cell of its row and column. *)
Theorem solved_grid_completes_input N g node fuel s :
  readLatinNode N g = Some node ->
  solveRun fuel node = Done (SOLVED s) ->
  exists F fs, top (l_stack s) = F :: fs
    /\ wfSquare N (square F) /\ completes N g (square F).
Proof.
  intros Hr Hrun.
  destruct (solveRun_sound _ _ _ _ _ Hr Hrun) as [HI Hgd].
  destruct (readLatinNode_accepts _ _ _ Hr) as [(HN & Hg & _) _].
  destruct (Inv_top _ _ _ HN Hg HI) as (fs & Etop & HF).
  exists (l_newNode s), fs. split; [exact Etop|]. split.
  - apply (fo_wf _ _ _ _ HF).
  - now apply solved_top_completes.
Qed.

Lemma solved_grid_completes_input_witness :
  exists s, solveRun 20 (inputNode 3 [[0; 0; 0]; [0; 0; -1]; [0; -1; 0]])
            = Done (SOLVED s)
    /\ exists F fs, top (l_stack s) = F :: fs
         /\ wfSquare 3 (square F)
         /\ completes 3 [[0; 0; 0]; [0; 0; -1]; [0; -1; 0]] (square F).
Proof.
  eexists. split; [vm_compute; reflexivity|].
  apply (solved_grid_completes_input 3 [[0; 0; 0]; [0; 0; -1]; [0; -1; 0]]
           (inputNode 3 [[0; 0; 0]; [0; 0; -1]; [0; -1; 0]]) 20);
    vm_compute; reflexivity.
Defined.

(** X2. When the solver reports UNSOLVABLE on an accepted input, no grid
    completes the input: the search has left out no way of filling the
    empty cells with values of 1..N that clash with nothing in their
    row and column. *)
Theorem unsolvable_has_no_completion N g node fuel s :
  readLatinNode N g = Some node ->
  solveRun fuel node = Done (UNSOLVABLE s) ->
  forall sq', ~ completes N g sq'.
Proof.
  intros Hr Hrun. exact (solveRun_search _ _ _ _ _ Hr Hrun).
Qed.

Lemma unsolvable_has_no_completion_witness :
  exists s, solveRun 5 (inputNode 2 [[-1; -1]; [0; 0]]) = Done (UNSOLVABLE s)
    /\ forall sq', ~ completes 2 [[-1; -1]; [0; 0]] sq'.
Proof.
  eexists. split; [vm_compute; reflexivity|].
  eapply (unsolvable_has_no_completion 2 [[-1; -1]; [0; 0]]
            (inputNode 2 [[-1; -1]; [0; 0]]) 5);
    vm_compute; reflexivity.
Defined.

(** X3. [solveLatinSquare] decides the puzzle: on every accepted input
    it returns, within [enoughFuel] rounds, and the boolean returned is
    true exactly when the input has a completion. *)
Theorem solveLatinSquare_decides N g node :
  readLatinNode N g = Some node ->
  exists b ref,
    solveLatinSquare (enoughFuel N g) (mainStack node) = Done (b, ref)
    /\ (b = true <-> exists sq', completes N g sq').
Proof.
  intros Hr. destruct (solve_decides _ _ _ Hr) as (e & _ & Hret & Hres).
  destruct e as [s|s].
  - exists true, Freed. split; [exact Hret|]. split; auto.
  - exists false, (Live (l_stack s)). split; [exact Hret|].
    split; [discriminate|]. intros [sq' Hc]. exfalso. exact (Hres sq' Hc).
Qed.

Lemma solveLatinSquare_decides_witness :
  exists b ref,
    solveLatinSquare (enoughFuel 2 [[1; 0]; [0; 1]])
                     (mainStack (inputNode 2 [[1; 0]; [0; 1]]))
    = Done (b, ref)
    /\ (b = true <-> exists sq', completes 2 [[1; 0]; [0; 1]] sq').
Proof.
  apply (solveLatinSquare_decides 2 [[1; 0]; [0; 1]]). reflexivity.
Defined.

(** X4. The grid the solver ends on is the first completion of the
    input in the order of the cells read row by row: every completion
    agrees with it, or holds a larger value at the first cell where the
    two differ. *)
Theorem solved_grid_is_least N g node fuel s :
  readLatinNode N g = Some node ->
  solveRun fuel node = Done (SOLVED s) ->
  exists F fs, top (l_stack s) = F :: fs
    /\ forall sq', completes N g sq' -> lexLe N (square F) sq'.
Proof.
  intros Hr Hrun.
  destruct (solveRun_search _ _ _ _ _ Hr Hrun) as (HI & HS & Hgd).
  destruct (readLatinNode_accepts _ _ _ Hr) as [(HN & Hg & _) _].
  destruct (Inv_top _ _ _ HN Hg HI) as (fs & Etop & _).
  exists (l_newNode s), fs. split; [exact Etop|].
  now apply (solved_top_least N g).
Qed.

Lemma solved_grid_is_least_witness :
  exists s, solveRun 20 (inputNode 3 [[0; 0; 0]; [0; 0; 0]; [0; 0; 0]])
            = Done (SOLVED s)
    /\ exists F fs, top (l_stack s) = F :: fs
         /\ forall sq', completes 3 [[0; 0; 0]; [0; 0; 0]; [0; 0; 0]] sq' ->
                        lexLe 3 (square F) sq'.
Proof.
  eexists. split; [vm_compute; reflexivity|].
  apply (solved_grid_is_least 3 [[0; 0; 0]; [0; 0; 0]; [0; 0; 0]]
           (inputNode 3 [[0; 0; 0]; [0; 0; 0]; [0; 0; 0]]) 20);
    vm_compute; reflexivity.
Defined.

(** X5. On the empty grid of any size N >= 1, the node [initNode]
    builds from a NULL source, the solver reports SOLVED. *)
Theorem empty_grid_is_solved N :
  1 <= N ->
  solveLatinSquare (enoughFuel N (square (snd (initNode None N))))
                   (mainStack (snd (initNode None N)))
  = Done (true, Freed).
Proof.
  intros HN.
  assert (Hr : readLatinNode N (square (snd (initNode None N)))
               = Some (snd (initNode None N))).
  { apply (readLatinNode_complete N (square (snd (initNode None N))) HN).
    - apply (wfSquare_tabulate N (fun _ _ => 0)).
    - intros i j Hi Hj. cbn [initNode snd square].
      rewrite (cell_tabulate N (fun _ _ => 0)) by assumption. lia. }
  destruct (solve_decides _ _ _ Hr) as (e & _ & Hret & Hres).
  destruct e as [s|s]; [exact Hret|].
  exfalso. exact (Hres _ (cyclic_completes_empty N HN)).
Qed.

Lemma empty_grid_is_solved_witness :
  solveLatinSquare (enoughFuel 3 (square (snd (initNode None 3))))
                   (mainStack (snd (initNode None 3)))
  = Done (true, Freed).
Proof. apply (empty_grid_is_solved 3). lia. Defined.

(** * Further properties of the node and stack operations *)

Lemma noConflict_place N sq r c v :
  wfSquare N sq -> noConflict N sq ->
  0 <= r < N -> 0 <= c < N -> 0 <= v ->
  (forall k, 0 <= k < N ->
     (k <> c -> Z.abs (cell sq r k) <> v)
     /\ (k <> r -> Z.abs (cell sq k c) <> v)) ->
  noConflict N (setCell sq r c v).
Proof.
  intros Hsq Hcon Hr Hc Hv Hd.
  assert (Hother : forall i j, 0 <= i < N -> 0 <= j < N -> (i, j) <> (r, c) ->
            cell (setCell sq r c v) i j = cell sq i j).
  { intros; apply cell_setCell_other with N; auto; lia. }
  assert (Hsame : cell (setCell sq r c v) r c = v).
  { apply cell_setCell_same with N; auto. }
  intros i j k Hi Hj Hk Hjk.
  destruct (Hcon i j k Hi Hj Hk Hjk) as [Hrow' Hcol'].
  split; intros Hnz.
  - destruct (Z.eq_dec i r) as [->|Hir].
    + destruct (Z.eq_dec j c) as [->|Hjc].
      * rewrite Hsame, (Hother r k) by (auto; congruence).
        intros E. apply (proj1 (Hd k Hk)); auto. rewrite <- E; lia.
      * rewrite (Hother r j) in * by (auto; congruence).
        destruct (Z.eq_dec k c) as [->|Hkc].
        -- rewrite Hsame. intros E. apply (proj1 (Hd j Hj)); auto.
           rewrite E; lia.
        -- rewrite (Hother r k) by (auto; congruence). auto.
    + rewrite !Hother in * by (auto; congruence). auto.
  - destruct (Z.eq_dec i c) as [->|Hic].
    + destruct (Z.eq_dec j r) as [->|Hjr].
      * rewrite Hsame, (Hother k c) by (auto; congruence).
        intros E. apply (proj2 (Hd k Hk)); auto. rewrite <- E; lia.
      * rewrite (Hother j c) in * by (auto; congruence).
        destruct (Z.eq_dec k r) as [->|Hkr].
        -- rewrite Hsame. intros E. apply (proj2 (Hd j Hj)); auto.
           rewrite E; lia.
        -- rewrite (Hother k c) by (auto; congruence). auto.
    + rewrite !Hother in * by (auto; congruence). auto.
Qed.

(** X6. On a grid whose filled cells repeat no magnitude in a row or a
    column, [checkDuplicates] accepts a value v >= 1 at a cell exactly
    when the grid [updateNode] builds by writing v there still repeats
    none. *)
Theorem checkDuplicates_guards_update N F r c v :
  wfNode N F -> noConflict N (square F) ->
  0 <= r < N -> 0 <= c < N -> 1 <= v ->
  (checkDuplicates F v r c = false
   <-> noConflict N (square (snd (updateNode F r c v)))).
Proof.
  intros (Hsz & Hsq & _) Hcon Hr Hc Hv. cbn [updateNode snd square].
  split.
  - intros Hdup. apply noConflict_place; auto; try lia.
    pose proof (checkDuplicates_false _ _ _ _ Hdup) as Hd.
    rewrite Hsz in Hd. exact Hd.
  - intros Hnew. destruct (checkDuplicates F v r c) eqn:Hdup; [|reflexivity].
    exfalso.
    destruct (checkDuplicates_true _ _ _ _ Hdup) as (k & Hk & Hcase).
    rewrite Hsz in Hk.
    assert (Hsame : cell (setCell (square F) r c v) r c = v).
    { apply cell_setCell_same with N; auto. }
    destruct Hcase as [[Hkc E]|[Hkr E]].
    + assert (Hjk : c <> k) by congruence.
      destruct (Hnew r c k Hr Hc Hk Hjk) as [H1 _].
      rewrite Hsame in H1.
      rewrite (cell_setCell_other N) in H1 by (auto; try lia; try congruence).
      apply H1; lia.
    + assert (Hjk : r <> k) by congruence.
      destruct (Hnew c r k Hc Hr Hk Hjk) as [_ H2].
      rewrite Hsame in H2.
      rewrite (cell_setCell_other N) in H2 by (auto; try lia; try congruence).
      apply H2; lia.
Qed.

Lemma checkDuplicates_guards_update_witness :
  checkDuplicates (inputNode 2 [[1; 0]; [0; 0]]) 2 0 1 = false
  <-> noConflict 2
        (square (snd (updateNode (inputNode 2 [[1; 0]; [0; 0]]) 0 1 2))).
Proof.
  apply (checkDuplicates_guards_update 2 (inputNode 2 [[1; 0]; [0; 0]]) 0 1 2);
    try lia.
  - apply wfNode_inputNode. split; [lia|]. split.
    + split; [reflexivity | repeat constructor].
    + intros i j Hi Hj.
      assert (Ei : i = 0 \/ i = 1) by lia. assert (Ej : j = 0 \/ j = 1) by lia.
      destruct Ei as [-> | ->], Ej as [-> | ->]; vm_compute; split; discriminate.
  - apply noConflictb_sound. reflexivity.
Defined.

(** X7. [updateNode] on a well-formed node, at a cell inside the grid,
    succeeds and leaves a well-formed node of the same size: the cell
    holds the value written, every other cell is unchanged, the cursor
    is the cell written, every candidate flag is back at 1; written
    over an empty cell, a non-zero value lowers the number of empty
    cells by exactly one. *)
Theorem updateNode_frame N F r c v :
  wfNode N F -> 0 <= r < N -> 0 <= c < N ->
  exists F', updateNode F r c v = (EXIT_SUCCESS, F')
    /\ wfNode N F'
    /\ row F' = r /\ col F' = c
    /\ cell (square F') r c = v
    /\ (forall i j, 0 <= i < N -> 0 <= j < N -> (i, j) <> (r, c) ->
          cell (square F') i j = cell (square F) i j)
    /\ (forall k, 0 <= k < N -> idx (moves F') k 0 = 1)
    /\ (cell (square F) r c = 0 -> v <> 0 ->
          S (emptyCells (square F')) = emptyCells (square F)).
Proof.
  intros (Hsz & Hsq & Hmv & Hrow & Hcol) Hr Hc.
  eexists. split; [reflexivity|]. cbn [square size row col moves].
  rewrite Hsz. split; [|split; [reflexivity|split; [reflexivity|]]].
  - repeat split; cbn [square size row col moves]; try lia.
    + apply (proj1 (wfSquare_setCell N (square F) r c v Hsq Hr)).
    + apply (proj2 (wfSquare_setCell N (square F) r c v Hsq Hr)).
    + apply length_fresh.
  - split; [apply cell_setCell_same with N; auto|].
    split; [intros; apply cell_setCell_other with N; auto; lia|].
    split; [intros k Hk; apply idx_fresh; exact Hk|].
    intros Hz Hv. apply emptyCells_setCell with N; auto.
Qed.

Lemma updateNode_frame_witness :
  exists F', updateNode (inputNode 2 [[1; 0]; [0; 0]]) 0 1 2 = (EXIT_SUCCESS, F')
    /\ wfNode 2 F'
    /\ row F' = 0 /\ col F' = 1
    /\ cell (square F') 0 1 = 2
    /\ (forall i j, 0 <= i < 2 -> 0 <= j < 2 -> (i, j) <> (0, 1) ->
          cell (square F') i j = cell [[1; 0]; [0; 0]] i j)
    /\ (forall k, 0 <= k < 2 -> idx (moves F') k 0 = 1)
    /\ (cell [[1; 0]; [0; 0]] 0 1 = 0 -> 2 <> 0 ->
          S (emptyCells (square F')) = emptyCells [[1; 0]; [0; 0]]).
Proof.
  apply (updateNode_frame 2 (inputNode 2 [[1; 0]; [0; 0]]) 0 1 2); try lia.
  repeat split; simpl; try lia; repeat constructor.
Defined.

(** X8. [pop] undoes [push]: on a stack whose size field counts its
    frames, pushing a well-formed node and popping at once gives the
    success code, the stack as it was before the push, and in the
    caller's node a copy equal to the node pushed. *)
Theorem pop_after_push s n retNode :
  wfStack s -> wfNode (size n) n ->
  pop (snd (push s n)) retNode = Done (EXIT_SUCCESS, s, Some n).
Proof.
  intros [Hd _] Hn. destruct s as [fr d]. cbn [top depth] in Hd.
  unfold push, pop, isEmpty. cbn [snd top depth].
  destruct (Z.eqb_spec (d + 1) 0) as [E|_]; [lia|].
  rewrite (cloneNode_id _ _ Hn).
  destruct Hn as (_ & Hsq & Hmv & _).
  rewrite (copySquare_id _ _ Hsq), (copyMoves_id _ _ Hmv).
  replace (d + 1 - 1) with d by lia. now destruct n.
Qed.

Lemma pop_after_push_witness :
  pop (snd (push (mkStack [] 0) (inputNode 2 [[1; 0]; [0; 0]]))) None
  = Done (EXIT_SUCCESS, mkStack [] 0, Some (inputNode 2 [[1; 0]; [0; 0]])).
Proof.
  apply (pop_after_push (mkStack [] 0) (inputNode 2 [[1; 0]; [0; 0]]) None).
  - split; [reflexivity | constructor].
  - repeat split; simpl; try lia; repeat constructor.
Defined.




(** X10. At the head of every round of the search the stack is not
    empty and holds at most k + 1 frames, k being the number of empty
    cells of the input; its size field is the number of its frames. *)
Theorem search_depth_bounded N g node s0 s :
  readLatinNode N g = Some node ->
  solveEntry (mainStack node) = Done s0 ->
  reaches s0 s ->
  depth (l_stack s) = Z.of_nat (length (top (l_stack s)))
  /\ 1 <= depth (l_stack s) <= Z.of_nat (emptyCells g) + 1.
Proof.
  intros Hr He Hreach.
  destruct (readLatinNode_accepts _ _ _ Hr) as [Hwf ->].
  destruct (solveEntry_Inv _ _ Hwf) as (s0' & He' & HI0 & _).
  rewrite He in He'. injection He' as <-.
  destruct Hwf as (HN & Hg & _).
  pose proof (reaches_Inv _ _ _ _ HN Hg HI0 Hreach) as HI.
  pose proof (Inv_depth_bound _ _ _ HN Hg HI) as Hb.
  pose proof (chain_nonempty _ _ _ (inv_chain _ _ _ HI)) as Hne.
  rewrite (inv_depth _ _ _ HI). split; [reflexivity|].
  split; [|exact Hb].
  destruct (top (l_stack s)); [congruence|]. cbn [length]. lia.
Qed.

Lemma search_depth_bounded_witness :
  exists s0 s,
    solveEntry (mainStack (inputNode 2 [[1; 0]; [0; 0]])) = Done s0
    /\ loopBody s0 = Done (Continue s)
    /\ depth (l_stack s) = Z.of_nat (length (top (l_stack s)))
    /\ 1 <= depth (l_stack s) <= Z.of_nat (emptyCells [[1; 0]; [0; 0]]) + 1.
Proof.
  eexists. eexists. split; [vm_compute; reflexivity|].
  split; [vm_compute; reflexivity|].
  eapply (search_depth_bounded 2 [[1; 0]; [0; 0]]
            (inputNode 2 [[1; 0]; [0; 0]])).
  - reflexivity.
  - vm_compute; reflexivity.
  - eapply reaches_round; [| |apply reaches_here]; vm_compute; reflexivity.
Defined.

(** X11. The two copy constructors reproduce a well-formed node: the
    node [cloneNode] returns, and the one [initNode] builds from a
    source of the same size, hold the grid, the candidate flags, the
    cursor and the size of the source. *)
Theorem copies_equal_source n :
  wfNode (size n) n ->
  cloneNode n = n /\ initNode (Some n) (size n) = (EXIT_SUCCESS, n).
Proof.
  intros Hn. split; [exact (cloneNode_id _ _ Hn)|].
  destruct Hn as (_ & Hsq & Hmv & _). unfold initNode.
  rewrite (copySquare_id _ _ Hsq), (copyMoves_id _ _ Hmv). now destruct n.
Qed.

Lemma copies_equal_source_witness :
  cloneNode (mkNode [[1; 0]; [0; -2]] 2 1 0 [1; 0])
  = mkNode [[1; 0]; [0; -2]] 2 1 0 [1; 0]
  /\ initNode (Some (mkNode [[1; 0]; [0; -2]] 2 1 0 [1; 0])) 2
     = (EXIT_SUCCESS, mkNode [[1; 0]; [0; -2]] 2 1 0 [1; 0]).
Proof.
  apply (copies_equal_source (mkNode [[1; 0]; [0; -2]] 2 1 0 [1; 0])).
  repeat split; simpl; try lia; repeat constructor.
Defined.

(** X12. On a well-formed node [findNextEmptyCell] either succeeds with
    a cell inside the grid that holds 0 and does not come before the
    node's cursor, or fails with row = col = -1; so the test
    [row != -1 && col != -1] of the driver, which ignores the returned
    code, is true exactly on success. *)
Theorem findNextEmptyCell_in_grid N F :
  wfNode N F ->
  exists code r c,
    findNextEmptyCell F = (code, r, c)
    /\ ((code = EXIT_SUCCESS /\ 0 <= r < N /\ 0 <= c < N
         /\ cell (square F) r c = 0 /\ ~ before r c (row F) (col F))
        \/ (code = EXIT_FAILURE /\ r = -1 /\ c = -1))
    /\ (negb (r =? -1) && negb (c =? -1) = (code =? EXIT_SUCCESS)).
Proof.
  intros Hwf.
  destruct (findNextEmptyCell_cases F) as [(r & c & E & _)|[E _]].
  - destruct (found_in_grid _ _ _ _ Hwf E) as (Hr & Hc & Hz & Hsc & _).
    exists EXIT_SUCCESS, r, c. split; [exact E|]. split.
    + left. repeat split; try lia; auto.
      unfold scanned in Hsc. unfold before.
      destruct (Z.eqb_spec r (row F)); lia.
    + destruct (Z.eqb_spec r (-1)); [lia|].
      destruct (Z.eqb_spec c (-1)); [lia|]. reflexivity.
  - exists EXIT_FAILURE, (-1), (-1). split; [exact E|]. split.
    + right. auto.
    + reflexivity.
Qed.

Lemma findNextEmptyCell_in_grid_witness :
  exists code r c,
    findNextEmptyCell (mkNode [[1; 0]; [0; -2]] 2 1 0 [1; 0]) = (code, r, c)
    /\ ((code = EXIT_SUCCESS /\ 0 <= r < 2 /\ 0 <= c < 2
         /\ cell [[1; 0]; [0; -2]] r c = 0 /\ ~ before r c 1 0)
        \/ (code = EXIT_FAILURE /\ r = -1 /\ c = -1))
    /\ (negb (r =? -1) && negb (c =? -1) = (code =? EXIT_SUCCESS)).
Proof.
  apply (findNextEmptyCell_in_grid 2 (mkNode [[1; 0]; [0; -2]] 2 1 0 [1; 0])).
  repeat split; simpl; try lia; repeat constructor.
Defined.

(** X13. From the cursor (0, 0) [findNextEmptyCell] fails exactly when
    the grid has no empty cell. *)
Theorem findNextEmptyCell_fails_iff_complete N F :
  wfNode N F -> row F = 0 -> col F = 0 ->
  (findNextEmptyCell F = (EXIT_FAILURE, -1, -1)
   <-> isComplete N (square F) = true).
Proof.
  intros Hwf Hrow Hcol. pose proof Hwf as (Hsz & _).
  rewrite isComplete_spec. split.
  - intros E i j Hi Hj.
    destruct (findNextEmptyCell_cases F) as [(r & c & E' & _)|[_ Hall]].
    + rewrite E in E'. discriminate.
    + apply Hall. unfold scanned. rewrite Hsz, Hrow, Hcol.
      destruct (i =? 0); lia.
  - intros Hall.
    destruct (findNextEmptyCell_cases F) as [(r & c & E' & _)|[E _]];
      [|exact E].
    destruct (found_in_grid _ _ _ _ Hwf E') as (Hr & Hc & Hz & _).
    exfalso. exact (Hall r c Hr Hc Hz).
Qed.

Lemma findNextEmptyCell_fails_iff_complete_witness :
  findNextEmptyCell (inputNode 2 [[1; 2]; [2; -1]]) = (EXIT_FAILURE, -1, -1)
  <-> isComplete 2 (square (inputNode 2 [[1; 2]; [2; -1]])) = true.
Proof.
  apply (findNextEmptyCell_fails_iff_complete 2 (inputNode 2 [[1; 2]; [2; -1]]));
    [|reflexivity|reflexivity].
  repeat split; simpl; try lia; repeat constructor.
Defined.





(** * cloneNode, push and freeStack on the heap *)

(** A node structure whose blocks read the same in a second heap is the
    same frame there, with the same blocks. *)
Lemma frame_kept h h' G :
  wfNodePtr h G ->
  (forall a, In a (footprint h G) -> nth a h' None = nth a h None) ->
  nodeAt h' G = nodeAt h G
  /\ footprint h' G = footprint h G
  /\ wfNodePtr h' G.
Proof.
  intros (Hr & Hc & (rs & Hsq & Hlen & Hrows) & Hmv) Hold.
  assert (Efp : footprint h G = p_square G :: p_moves G :: rs).
  { unfold footprint, rowsAt. now rewrite Hsq. }
  rewrite Efp in Hold.
  assert (Esq : nth (p_square G) h' None = Some (Rows rs)).
  { rewrite Hold; [exact Hsq | left; reflexivity]. }
  assert (Erows : rowsAt h' (p_square G) = rowsAt h (p_square G)).
  { unfold rowsAt. now rewrite Esq, Hsq. }
  assert (Hlive : forall a, In a (p_moves G :: rs) ->
            liveInts h (p_size G) a -> liveInts h' (p_size G) a).
  { intros a Ha (l & E & Hl). exists l. split; [|exact Hl].
    rewrite Hold; [exact E | right; exact Ha]. }
  split; [|split].
  - unfold nodeAt. rewrite Erows. f_equal.
    + apply map_ext_in. intros r Hin. unfold intsAt.
      unfold rowsAt in Hin. rewrite Hsq in Hin.
      rewrite Hold; [reflexivity | right; right; exact Hin].
    + unfold intsAt. rewrite Hold; [reflexivity | right; left; reflexivity].
  - unfold footprint. now rewrite Erows.
  - split; [exact Hr|]. split; [exact Hc|]. split.
    + exists rs. split; [exact Esq|]. split; [exact Hlen|].
      rewrite Forall_forall in *. intros a Ha.
      apply Hlive; [right; exact Ha | now apply Hrows].
    + apply Hlive; [left; reflexivity | exact Hmv].
Qed.

Lemma frames_kept h h' frames :
  Forall (wfNodePtr h) frames ->
  (forall a, In a (flat_map (footprint h) frames) ->
             nth a h' None = nth a h None) ->
  map (nodeAt h') frames = map (nodeAt h) frames
  /\ flat_map (footprint h') frames = flat_map (footprint h) frames
  /\ Forall (wfNodePtr h') frames.
Proof.
  induction frames as [|G fs IH]; intros Hwf Hold.
  - repeat split; constructor.
  - cbn [flat_map] in Hold.
    destruct (frame_kept h h' G (Forall_inv Hwf)) as (E1 & E2 & E3).
    { intros a Ha. apply Hold, in_or_app. now left. }
    destruct (IH (Forall_inv_tail Hwf)) as (I1 & I2 & I3).
    { intros a Ha. apply Hold, in_or_app. now right. }
    cbn [map flat_map]. rewrite E1, E2, I1, I2.
    repeat split; auto.
Qed.

Lemma nth_zrange_nat N k :
  (k < Z.to_nat N)%nat -> nth k (zrange N) 0 = Z.of_nat k.
Proof.
  intros Hk. unfold zrange.
  rewrite (nth_map_in Z.of_nat _ _ 0%nat) by (rewrite length_seq; lia).
  now rewrite seq_nth by lia.
Qed.

Lemma length_clonedBlocks (h : Heap) (node : NodePtr) :
  length (clonedBlocks h node) = (2 + Z.to_nat (p_size node))%nat.
Proof.
  unfold clonedBlocks. cbn [length]. now rewrite length_map, length_zrange.
Qed.

Lemma cloned_rows (h : Heap) (node : NodePtr) :
  rowsAt (h ++ clonedBlocks h node) (S (length h))
  = seq (length h + 2) (Z.to_nat (p_size node)).
Proof.
  unfold rowsAt. rewrite app_nth2 by lia.
  replace (S (length h) - length h)%nat with 1%nat by lia. reflexivity.
Qed.

Lemma cloned_footprint (h : Heap) (node : NodePtr) :
  footprint (h ++ clonedBlocks h node)
            (mkNodePtr (S (length h)) (p_size node) (p_row node) (p_col node)
                       (length h))
  = S (length h) :: length h :: seq (length h + 2) (Z.to_nat (p_size node)).
Proof. unfold footprint; cbn [p_square p_moves]. now rewrite cloned_rows. Qed.

Lemma cloned_block_live (h : Heap) (node : NodePtr) a :
  (length h <= a < length h + 2 + Z.to_nat (p_size node))%nat ->
  nth a (h ++ clonedBlocks h node) None <> None.
Proof.
  intros Ha. rewrite app_nth2 by lia.
  assert (Hall : forall b, In b (clonedBlocks h node) -> b <> None).
  { unfold clonedBlocks. intros b [<-|[<-|Hb]]; try discriminate.
    apply in_map_iff in Hb. destruct Hb as (i & <- & _). discriminate. }
  apply Hall, nth_In. rewrite length_clonedBlocks. lia.
Qed.

Lemma cloned_footprint_NoDup (h : Heap) (node : NodePtr) :
  NoDup (S (length h) :: length h
         :: seq (length h + 2) (Z.to_nat (p_size node))).
Proof.
  constructor.
  - intros [E|Hin]; [lia|]. apply in_seq in Hin. lia.
  - constructor.
    + intros Hin. apply in_seq in Hin. lia.
    + apply seq_NoDup.
Qed.

Section CloneOnHeap.
Variables (h : Heap) (node : NodePtr) (rs : list nat).
Hypothesis Hsq : nth (p_square node) h None = Some (Rows rs).
Hypothesis Hlen : length rs = Z.to_nat (p_size node).
Hypothesis Hrows : Forall (liveInts h (p_size node)) rs.
Hypothesis Hmv : liveInts h (p_size node) (p_moves node).

Lemma cloneNodeP_heap :
  cloneNodeP h node
  = (mkNodePtr (S (length h)) (p_size node) (p_row node) (p_col node)
               (length h),
     h ++ clonedBlocks h node).
Proof.
  unfold cloneNodeP, malloc. rewrite <- app_assoc. cbn [app].
  rewrite (copyRowsP_closed h node rs Hsq Hlen Hrows)
    by (intros i Hi; now apply in_zrange in Hi).
  rewrite !length_app, length_zrange. cbn [length].
  rewrite <- app_assoc. cbn [app].
  rewrite set_nth_app_1, set_nth_app_0.
  rewrite intsAt_app_live by (eapply liveInts_live; eauto).
  rewrite copyMoves_id by (eapply liveInts_intsAt; eauto).
  unfold clonedBlocks. rewrite (rowsAt_temp0 h node rs Hsq).
  repeat f_equal; lia.
Qed.

Lemma cloned_copy :
  nodeAt (h ++ clonedBlocks h node)
         (mkNodePtr (S (length h)) (p_size node) (p_row node) (p_col node)
                    (length h))
  = nodeAt h node.
Proof.
  unfold nodeAt; cbn [p_square p_size p_row p_col p_moves].
  rewrite cloned_rows.
  assert (E1 : intsAt (h ++ clonedBlocks h node) (length h)
               = intsAt h (p_moves node)).
  { unfold intsAt. rewrite app_nth2 by lia. now rewrite Nat.sub_diag. }
  rewrite E1. f_equal.
  unfold clonedBlocks. rewrite (rowsAt_temp0 h node rs Hsq).
  pose proof (intsAt_tail2 h
                (Some (Ints (intsAt h (p_moves node))))
                (Some (Rows (seq (length h + 2) (Z.to_nat (p_size node)))))
                (fun i => intsAt h (idx rs i 0%nat))
                (zrange (p_size node))) as H.
  rewrite length_zrange in H. rewrite H.
  rewrite <- (map_map (fun i => idx rs i 0%nat) (intsAt h)).
  now rewrite idx_copy.
Qed.

Lemma cloned_row_live a :
  In a (seq (length h + 2) (Z.to_nat (p_size node))) ->
  liveInts (h ++ clonedBlocks h node) (p_size node) a.
Proof.
  intros Ha. apply in_seq in Ha.
  unfold clonedBlocks. rewrite (rowsAt_temp0 h node rs Hsq).
  set (k := (a - (length h + 2))%nat).
  exists (intsAt h (idx rs (Z.of_nat k) 0%nat)). split.
  - rewrite app_nth2 by lia.
    replace (a - length h)%nat with (S (S k)) by (unfold k; lia).
    cbn [nth].
    rewrite (nth_map_in (fun i => Some (Ints (intsAt h (idx rs i 0%nat))))
               (zrange (p_size node)) k 0 None)
      by (rewrite length_zrange; unfold k; lia).
    rewrite nth_zrange_nat by (unfold k; lia). reflexivity.
  - eapply liveInts_intsAt. apply (row_live h node rs Hlen Hrows).
    unfold k; lia.
Qed.

Lemma cloned_wf :
  0 <= p_row node -> 0 <= p_col node ->
  wfNodePtr (h ++ clonedBlocks h node)
            (mkNodePtr (S (length h)) (p_size node) (p_row node) (p_col node)
                       (length h)).
Proof.
  intros Hr Hc. split; [exact Hr|]. split; [exact Hc|].
  cbn [p_square p_size p_moves]. split.
  - exists (seq (length h + 2) (Z.to_nat (p_size node))). split; [|split].
    + rewrite app_nth2 by lia.
      replace (S (length h) - length h)%nat with 1%nat by lia. reflexivity.
    + apply length_seq.
    + rewrite Forall_forall. intros a Ha. now apply cloned_row_live.
  - exists (intsAt h (p_moves node)). split.
    + rewrite app_nth2 by lia. now rewrite Nat.sub_diag.
    + eapply liveInts_intsAt; eauto.
Qed.
End CloneOnHeap.

Lemma flat_footprint_live h frames a :
  Forall (wfNodePtr h) frames ->
  In a (flat_map (footprint h) frames) -> nth a h None <> None.
Proof.
  intros Hwf Hin. apply in_flat_map in Hin. destruct Hin as (G & HG & Ha).
  rewrite Forall_forall in Hwf. eapply footprint_live; eauto.
Qed.

Lemma NoDup_app_intro {A} (l1 l2 : list A) :
  NoDup l1 -> NoDup l2 -> (forall a, In a l1 -> ~ In a l2) -> NoDup (l1 ++ l2).
Proof.
  induction l1 as [|x l1 IH]; intros H1 H2 Hd; [exact H2|].
  inversion H1 as [|? ? Hx H1']; subst. cbn [app]. constructor.
  - intros Hin. apply in_app_or in Hin. destruct Hin as [Hin|Hin]; [auto|].
    apply (Hd x); [left; reflexivity | exact Hin].
  - apply IH; auto. intros a Ha. apply Hd. now right.
Qed.

(** X15. [push] stores a copy of its own: on a stack whose frames own
    their blocks separately, pushing a node whose blocks are allocated
    succeeds and keeps such a stack, one frame deeper; the new top frame
    reads as the node pushed and lies in blocks allocated by this call,
    none of them a block of the caller's node; every block allocated
    before keeps its content, so the caller's node reads as before.
    Frames taken as values, this is [push]. *)
Theorem push_stores_own_copy h s n :
  wfStackPtr h s -> wfNodePtr h n ->
  exists h' c,
    pushP h s n
    = (EXIT_SUCCESS, h', mkStackPtr (c :: p_top s) (p_depth s + 1))
    /\ stackAt h' (mkStackPtr (c :: p_top s) (p_depth s + 1))
       = snd (push (stackAt h s) (nodeAt h n))
    /\ wfStackPtr h' (mkStackPtr (c :: p_top s) (p_depth s + 1))
    /\ nodeAt h' c = nodeAt h n
    /\ nodeAt h' n = nodeAt h n
    /\ (forall a, In a (footprint h' c) ->
          (length h <= a)%nat /\ nth a h' None <> None
          /\ ~ In a (footprint h' n))
    /\ (forall a, nth a h None <> None -> nth a h' None = nth a h None).
Proof.
  intros (Hd & Hwf & Hnd) Hn.
  pose proof Hn as (Hr & Hc & (rs & Hsq & Hlen & Hrows) & Hmv).
  set (h' := h ++ clonedBlocks h n).
  set (c := mkNodePtr (S (length h)) (p_size n) (p_row n) (p_col n) (length h)).
  assert (Hold : forall a, nth a h None <> None -> nth a h' None = nth a h None).
  { intros a Ha. now apply nth_app_live. }
  destruct (frame_kept h h' n Hn) as (En & Efn & _).
  { intros a Ha. apply Hold. eapply footprint_live; eauto. }
  destruct (frames_kept h h' (p_top s) Hwf) as (Emap & Eflat & Hwf').
  { intros a Ha. apply Hold. eapply flat_footprint_live; eauto. }
  pose proof (cloned_copy h n rs Hsq Hlen) as Ecopy. fold h' c in Ecopy.
  pose proof (cloned_footprint h n) as Efp. fold h' c in Efp.
  assert (Hfresh : forall a, In a (footprint h' c) ->
            (length h <= a < length h + 2 + Z.to_nat (p_size n))%nat).
  { intros a Ha. rewrite Efp in Ha. destruct Ha as [<-|[<-|Ha]]; try lia.
    apply in_seq in Ha. lia. }
  exists h', c. split; [|split; [|split; [|split; [|split; [|split]]]]].
  - unfold pushP. rewrite (cloneNodeP_heap h n rs Hsq Hlen Hrows Hmv).
    reflexivity.
  - unfold stackAt, push. cbn [p_top p_depth map snd top depth].
    rewrite Emap, Ecopy.
    rewrite (cloneNode_id (p_size n)) by now apply wfNodePtr_wfNode.
    reflexivity.
  - split; [|split]; cbn [p_top p_depth].
    + cbn [length]. lia.
    + constructor; [|exact Hwf'].
      apply (cloned_wf h n rs Hsq Hlen Hrows Hmv Hr Hc).
    + cbn [flat_map]. rewrite Eflat. apply NoDup_app_intro; [| exact Hnd |].
      * rewrite Efp. apply cloned_footprint_NoDup.
      * intros a Ha Hin. apply Hfresh in Ha.
        pose proof (nth_live_lt _ _ (flat_footprint_live _ _ _ Hwf Hin)). lia.
  - exact Ecopy.
  - exact En.
  - intros a Ha. pose proof (Hfresh a Ha) as Hran.
    split; [lia|]. split.
    + apply (cloned_block_live h n). exact Hran.
    + rewrite Efn. intros Hin.
      pose proof (nth_live_lt _ _ (footprint_live _ _ _ Hn Hin)). lia.
  - exact Hold.
Qed.

Lemma push_stores_own_copy_witness :
  exists h' c,
    pushP demoHeap demoStack (mkNodePtr 2 2 0 0 3)
    = (EXIT_SUCCESS, h', mkStackPtr (c :: p_top demoStack) (p_depth demoStack + 1))
    /\ stackAt h' (mkStackPtr (c :: p_top demoStack) (p_depth demoStack + 1))
       = snd (push (stackAt demoHeap demoStack)
                   (nodeAt demoHeap (mkNodePtr 2 2 0 0 3)))
    /\ wfStackPtr h' (mkStackPtr (c :: p_top demoStack) (p_depth demoStack + 1))
    /\ nodeAt h' c = nodeAt demoHeap (mkNodePtr 2 2 0 0 3)
    /\ nodeAt h' (mkNodePtr 2 2 0 0 3) = nodeAt demoHeap (mkNodePtr 2 2 0 0 3)
    /\ (forall a, In a (footprint h' c) ->
          (length demoHeap <= a)%nat /\ nth a h' None <> None
          /\ ~ In a (footprint h' (mkNodePtr 2 2 0 0 3)))
    /\ (forall a, nth a demoHeap None <> None ->
                  nth a h' None = nth a demoHeap None).
Proof.
  apply (push_stores_own_copy demoHeap demoStack (mkNodePtr 2 2 0 0 3)).
  - split; [reflexivity|]. split.
    + repeat constructor; simpl; try lia;
        repeat first [eexists; split; [reflexivity|]
                     | split; [reflexivity|]
                     | constructor
                     | reflexivity].
    + vm_compute. repeat constructor; simpl; intuition discriminate.
  - repeat constructor; simpl; try lia;
      repeat first [eexists; split; [reflexivity|]
                   | split; [reflexivity|]
                   | constructor
                   | reflexivity].
Defined.

Lemma nth_free_same (h : Heap) a : nth a (free h a) None = None.
Proof.
  unfold free. destruct (Nat.lt_ge_cases a (length h)) as [Hlt|Hge].
  - now apply nth_set_nth_same.
  - apply nth_overflow. now rewrite length_set_nth.
Qed.

Lemma nth_free_none (h : Heap) a b :
  nth a h None = None -> nth a (free h b) None = None.
Proof.
  intros H. destruct (Nat.eq_dec a b) as [->|Hne].
  - apply nth_free_same.
  - rewrite nth_free_other by exact Hne. exact H.
Qed.

Lemma fold_free_none (rs : list nat) (ks : list Z) a : forall hh : Heap,
  nth a hh None = None ->
  nth a (fold_left (fun x i => free x (idx rs i 0%nat)) ks hh) None = None.
Proof.
  induction ks as [|i ks IH]; intros hh H; cbn [fold_left]; [exact H|].
  apply IH. now apply nth_free_none.
Qed.

Lemma fold_free_in (rs : list nat) (ks : list Z) a : forall hh : Heap,
  (exists i, In i ks /\ idx rs i 0%nat = a) ->
  nth a (fold_left (fun x i => free x (idx rs i 0%nat)) ks hh) None = None.
Proof.
  induction ks as [|i ks IH]; intros hh (j & Hj & E); [contradiction|].
  cbn [fold_left]. destruct Hj as [->|Hj].
  - apply fold_free_none. rewrite E. apply nth_free_same.
  - apply IH. exists j. auto.
Qed.

Lemma freeNodeP_freed h p a :
  wfNodePtr h p -> In a (footprint h p) -> nth a (freeNodeP h p) None = None.
Proof.
  intros (_ & _ & (rs & Hsq & Hlen & _) & _) Hin.
  unfold footprint in Hin. unfold freeNodeP.
  rewrite (rowsAt_temp0 h p rs Hsq) in *.
  destruct Hin as [<-|[<-|Hin]].
  - apply nth_free_none, nth_free_same.
  - apply nth_free_same.
  - do 2 apply nth_free_none. apply fold_free_in.
    destruct (In_nth _ _ 0%nat Hin) as (k & Hk & E).
    exists (Z.of_nat k). split.
    + apply in_zrange. lia.
    + unfold idx. now rewrite Nat2Z.id.
Qed.

Lemma freeNodeP_kept h p a :
  wfNodePtr h p -> ~ In a (footprint h p) ->
  nth a (freeNodeP h p) None = nth a h None.
Proof.
  intros (_ & _ & (rs & Hsq & Hlen & _) & _).
  exact (freeNodeP_other h p rs Hsq Hlen a).
Qed.

Lemma freeNodeP_length h p :
  wfNodePtr h p -> length (freeNodeP h p) = length h.
Proof.
  intros (_ & _ & (rs & Hsq & _) & _). exact (length_freeNodeP h p rs Hsq).
Qed.

(** X16. [freeNode] on a node whose blocks are allocated, each once,
    releases exactly those: the flags, the row pointers and every row
    are released, and every other block of the heap keeps its
    content. *)
Theorem freeNode_releases_its_blocks h p :
  wfNodePtr h p -> NoDup (footprint h p) ->
  length (freeNodeP h p) = length h
  /\ forall a,
       (In a (footprint h p) -> nth a (freeNodeP h p) None = None)
       /\ (~ In a (footprint h p) ->
           nth a (freeNodeP h p) None = nth a h None).
Proof.
  intros Hwf _. split; [now apply freeNodeP_length|].
  intros a. split.
  - now apply freeNodeP_freed.
  - now apply freeNodeP_kept.
Qed.

Lemma freeNode_releases_its_blocks_witness :
  length (freeNodeP demoHeap (mkNodePtr 6 2 0 1 7)) = length demoHeap
  /\ forall a,
       (In a (footprint demoHeap (mkNodePtr 6 2 0 1 7)) ->
        nth a (freeNodeP demoHeap (mkNodePtr 6 2 0 1 7)) None = None)
       /\ (~ In a (footprint demoHeap (mkNodePtr 6 2 0 1 7)) ->
           nth a (freeNodeP demoHeap (mkNodePtr 6 2 0 1 7)) None
           = nth a demoHeap None).
Proof.
  apply (freeNode_releases_its_blocks demoHeap (mkNodePtr 6 2 0 1 7)).
  - repeat constructor; simpl; try lia;
      repeat first [eexists; split; [reflexivity|]
                   | split; [reflexivity|]
                   | constructor
                   | reflexivity].
  - vm_compute. repeat constructor; simpl; intuition discriminate.
Defined.

Lemma freeFrames_heap frames : forall h,
  Forall (wfNodePtr h) frames ->
  NoDup (flat_map (footprint h) frames) ->
  length (fold_left freeNodeP frames h) = length h
  /\ forall a,
       (In a (flat_map (footprint h) frames) ->
        nth a (fold_left freeNodeP frames h) None = None)
       /\ (~ In a (flat_map (footprint h) frames) ->
           nth a (fold_left freeNodeP frames h) None = nth a h None).
Proof.
  induction frames as [|G fs IH]; intros h Hwf Hnd; cbn [fold_left flat_map].
  - split; [reflexivity|]. intros a. split; [contradiction|reflexivity].
  - pose proof (Forall_inv Hwf) as HG.
    pose proof (Forall_inv_tail Hwf) as Hfs.
    cbn [flat_map] in Hnd.
    assert (Hapart : forall a, In a (flat_map (footprint h) fs) ->
              ~ In a (footprint h G)).
    { intros a Ha HaG. exact (NoDup_app_apart _ _ a Hnd HaG Ha). }
    destruct (frames_kept h (freeNodeP h G) fs Hfs) as (_ & Eflat & Hfs').
    { intros a Ha. apply freeNodeP_kept; auto. }
    assert (Hnd' : NoDup (flat_map (footprint (freeNodeP h G)) fs)).
    { rewrite Eflat. eapply NoDup_app_remove_l. exact Hnd. }
    destruct (IH (freeNodeP h G) Hfs' Hnd') as (Hlen & Hall).
    rewrite Eflat in Hall.
    split; [rewrite Hlen; now apply freeNodeP_length|].
    intros a. split.
    + intros Hin. apply in_app_or in Hin.
      destruct (in_dec Nat.eq_dec a (flat_map (footprint h) fs)) as [Hfsin|Hno].
      * now apply (proj1 (Hall a)).
      * destruct Hin as [HaG|Hfsin]; [|contradiction].
        rewrite (proj2 (Hall a) Hno). now apply freeNodeP_freed.
    + intros Hno.
      rewrite (proj2 (Hall a)) by (intros Hin; apply Hno, in_or_app; now right).
      apply freeNodeP_kept; auto.
      intros Hin; apply Hno, in_or_app; now left.
Qed.

(** X17. [freeStack] on a stack whose frames own their blocks
    separately releases every block of every frame, and no other block
    of the heap is touched. *)
Theorem freeStack_releases_every_frame h s :
  wfStackPtr h s ->
  length (freeStackP h s) = length h
  /\ forall a,
       (In a (flat_map (footprint h) (p_top s)) ->
        nth a (freeStackP h s) None = None)
       /\ (~ In a (flat_map (footprint h) (p_top s)) ->
           nth a (freeStackP h s) None = nth a h None).
Proof.
  intros (_ & Hwf & Hnd). unfold freeStackP. now apply freeFrames_heap.
Qed.

Lemma freeStack_releases_every_frame_witness :
  length (freeStackP demoHeap demoStack) = length demoHeap
  /\ forall a,
       (In a (flat_map (footprint demoHeap) (p_top demoStack)) ->
        nth a (freeStackP demoHeap demoStack) None = None)
       /\ (~ In a (flat_map (footprint demoHeap) (p_top demoStack)) ->
           nth a (freeStackP demoHeap demoStack) None = nth a demoHeap None).
Proof.
  apply (freeStack_releases_every_frame demoHeap demoStack).
  split; [reflexivity|]. split.
  - repeat constructor; simpl; try lia;
      repeat first [eexists; split; [reflexivity|]
                   | split; [reflexivity|]
                   | constructor
                   | reflexivity].
  - vm_compute. repeat constructor; simpl; intuition discriminate.
Defined.


